(** * gob: the recursive-descent parser of the B front end

    A shallow embedding of [parse/parser.go] (package [parse]) and of the node
    classification of the AST file.  The parser is a Go object with a mutable
    token buffer; here its methods are functions in a state monad over the
    [Parser] record whose computations may also panic (Go's [panic]) or run
    out of fuel (the recursion of the grammar is not structural). *)

From Stdlib Require Import ZArith List String Ascii Bool Lia.
Import ListNotations.
Set Warnings "-register-all".
Local Open Scope string_scope.
Local Open Scope list_scope.
Local Open Scope Z_scope.

(** ** Tokens *)

Inductive TokenType : Type :=
| tkError | tkEof | tkNumber | tkString | tkCharacter | tkIdent | tkKeyword
| tkOperator | tkTernary | tkColon | tkSemicolon | tkComma
| tkOpenParen | tkCloseParen | tkOpenBrace | tkCloseBrace
| tkOpenBracket | tkCloseBracket.

Definition TokenType_eqb (a b : TokenType) : bool :=
  match a, b with
  | tkError, tkError | tkEof, tkEof | tkNumber, tkNumber | tkString, tkString
  | tkCharacter, tkCharacter | tkIdent, tkIdent | tkKeyword, tkKeyword
  | tkOperator, tkOperator | tkTernary, tkTernary | tkColon, tkColon
  | tkSemicolon, tkSemicolon | tkComma, tkComma
  | tkOpenParen, tkOpenParen | tkCloseParen, tkCloseParen
  | tkOpenBrace, tkOpenBrace | tkCloseBrace, tkCloseBrace
  | tkOpenBracket, tkOpenBracket | tkCloseBracket, tkCloseBracket => true
  | _, _ => false
  end.

Record Position : Type := mkPosition
  { Name : string; Line : Z; Column : Z; Offset : Z }.

Record Token : Type := mkToken
  { kind : TokenType; value : string; start : Position; end_ : Position }.

Definition noPos : Position := mkPosition "" 0 0 0.

(** A token with the positions left at their zero value. *)
Definition tok (k : TokenType) (v : string) : Token := mkToken k v noPos noPos.

(** ** The lexer, as the parser sees it *)

Record LexError : Type := mkLexError { errTok : Token; errMsg : string }.

(** What one call of [NextToken] hands back: the token and the error, if any. *)
Definition LexResult : Type := (Token * option LexError)%type.

(** Modelled from the spec: the lexer ([Lexer], [NewLexer], [NextToken]) is
    not part of the parser file.  The parser only calls [NextToken] and reads
    the name, so a lexer is the name and the results its coming calls will
    deliver; once they are used up it hands back [Eof] again and again
    ("on hitting end of input returns a token of kind Eof repeatedly"). *)
Record Lexer : Type := mkLexer { name : string; pending : list LexResult }.

Definition NewLexer (nm : string) (input : list LexResult) : Lexer :=
  mkLexer nm input.

Definition NextToken (l : Lexer) : LexResult * Lexer :=
  match pending l with
  | [] => ((tok tkEof "", None), l)
  | r :: rest => (r, mkLexer (name l) rest)
  end.

(** A lexer run without errors, and one that ends in a lex error. *)
Definition lexed (ts : list Token) : list LexResult :=
  map (fun t => (t, None)) ts.

Definition lexFailure (msg : string) : LexResult :=
  (tok tkError msg, Some (mkLexError (tok tkError msg) msg)).

(** ** The syntax tree *)

Record VarDecl : Type := mkVarDecl
  { vname : string; vecDecl : bool; vsize : Z }.

(** The node types the parser builds, with the fields it fills in.  [NilNode]
    is the zero value of the [Node] interface (the [ElseBody] of an [if]
    without [else]); [OtherNode] is a value of any other type with a [String]
    method, the default of a type switch.  A Go slice that is [nil] is the
    empty list: the parser only ever grows its slices with [append], so a
    slice it holds is [nil] exactly when it is empty. *)
Inductive Node : Type :=
| NilNode
| OtherNode
| ArrayAccessNode (Array Index : Node)
| BinaryNode (Left : Node) (Oper : string) (Right : Node)
| BlockNode (Nodes : list Node)
| BreakNode
| CharacterNode (Value : string)
| ExternVarDeclNode (names : list string)
| ExternVarInitNode (Name : string) (Value : Node)
| ExternVecInitNode (Name : string) (Size : Z) (Values : list Node)
| FunctionNode (Name : string) (Params : list string) (Body : Node)
| FunctionCallNode (Callable : Node) (Args : list Node)
| GotoNode (Label : string)
| IdentNode (Value : string)
| IfNode (Cond Body : Node) (HasElse : bool) (ElseBody : Node)
| IntegerNode (Value : Z)
| LabelNode (Name : string)
| NullNode
| ParenNode (Node : Node)
| ReturnNode (Node : Node)
| StatementNode (Expr : Node)
| StringNode (Value : string)
| SwitchNode (Cond : Node) (DefaultCase : list Node) (Cases : list CaseNode)
| TernaryNode (Cond TrueBody FalseBody : Node)
| UnaryNode (Oper : string) (Node : Node) (Postfix : bool)
| VarDeclNode (Vars : list VarDecl)
| WhileNode (Cond Body : Node)
with CaseNode : Type :=
| mkCase (Cond : Node) (Statements : list Node).

Definition caseCond (c : CaseNode) : Node :=
  match c with mkCase cond _ => cond end.

Definition caseStatements (c : CaseNode) : list Node :=
  match c with mkCase _ stmts => stmts end.

(** [IsExpr]: a type switch on the dynamic type of the node. *)
Definition IsExpr (n : Node) : bool :=
  match n with
  | ArrayAccessNode _ _ | BinaryNode _ _ _ | IdentNode _ | IntegerNode _
  | CharacterNode _ | FunctionCallNode _ _ | ParenNode _ | TernaryNode _ _ _
  | UnaryNode _ _ _ => true
  | _ => false
  end.

Definition IsStatement (n : Node) : bool :=
  if IsExpr n then false
  else
    match n with
    | BlockNode _ | BreakNode | ExternVarDeclNode _ | ExternVarInitNode _ _
    | ExternVecInitNode _ _ _ | FunctionNode _ _ _ | GotoNode _
    | IfNode _ _ _ _ | LabelNode _ | ReturnNode _ | StatementNode _
    | SwitchNode _ _ _ | VarDeclNode _ | WhileNode _ _ => true
    | _ => false
    end.

(** The constants of the grammar: what [parseConstant] builds. *)
Definition IsConstant (n : Node) : bool :=
  match n with
  | IntegerNode _ | CharacterNode _ | StringNode _ => true
  | _ => false
  end.

Record TranslationUnit : Type := mkUnit
  { File : string; Funcs : list Node; Vars : list Node }.

(** [TranslationUnit{}], the zero value. *)
Definition emptyUnit : TranslationUnit := mkUnit "" [] [].

(** ** Errors, panics and the parser monad *)

(** The message of a [ParseError]: a text of the source, or one of the
    three built with [fmt.Sprintf] from a token type ([Expected %v],
    [Expected (%v: %v)], [Expected one of: %s]); how a token type is printed
    is settled with the lexer, so those keep the token types as they are. *)
Inductive Message : Type :=
| Text (s : string)
| Expected (t : TokenType)
| ExpectedValue (t : TokenType) (str : string)
| ExpectedOneOf (ts : list TokenType).

Coercion Text : string >-> Message.

(** Go's [error] values met in the parser: a [*ParseError] or a [*LexError]. *)
Inductive error : Type :=
| ParseError (etok : Token) (msg : Message)
| LexErr (e : LexError).

Definition NewParseError (t : Token) (msg : Message) : error :=
  ParseError t msg.

(** What a function with the Go signature [(T, error)] returns. *)
Inductive result (A : Type) : Type :=
| Ok (a : A)
| Err (e : error).
Arguments Ok {A} a.
Arguments Err {A} e.

Record Parser : Type := mkParser
  { lex : Lexer; tokens : list Token; tokIdx : Z }.

(** The value a [panic] carries: the [error] that [accept] and [NewParser]
    throw with [panic(err)], or a run-time error of Go itself (an index out
    of range). *)
Inductive PanicValue : Type :=
| ErrorPanic (e : error)
| RuntimePanic (msg : string).

Inductive Res (A : Type) : Type :=
| Ret (a : A) (p : Parser)
| Panic (v : PanicValue) (p : Parser)
| OutOfFuel.
Arguments Ret {A} a p.
Arguments Panic {A} v p.
Arguments OutOfFuel {A}.

Definition M (A : Type) : Type := Parser -> Res A.

Definition ret {A} (a : A) : M A := fun p => Ret a p.

Definition bind {A B} (m : M A) (k : A -> M B) : M B :=
  fun p =>
    match m p with
    | Ret a p' => k a p'
    | Panic v p' => Panic v p'
    | OutOfFuel => OutOfFuel
    end.

Definition panic {A} (v : PanicValue) : M A := fun p => Panic v p.

Definition outOfFuel {A} : M A := fun _ => OutOfFuel.

Definition bindOk {A B} (m : M (result A)) (k : A -> M (result B))
    : M (result B) :=
  bind m (fun r => match r with Ok a => k a | Err e => ret (Err e) end).

Declare Scope parser_scope.
Delimit Scope parser_scope with parser.
Notation "x <- m ;; k" := (bind m (fun x => k))
  (at level 100, m at next level, right associativity) : parser_scope.
Notation "m ;;; k" := (bind m (fun _ => k))
  (at level 100, right associativity) : parser_scope.
(** [x <~ m ;; k]: Go's [x, err := m(); if err != nil { return nil, err }]. *)
Notation "x <~ m ;; k" := (bindOk m (fun x => k))
  (at level 100, m at next level, right associativity) : parser_scope.
Local Open Scope parser_scope.

Definition getIdx : M Z := fun p => Ret (tokIdx p) p.

(** The parser with its index put at [i]: [p.tokIdx = i]. *)
Definition rewindTo (p : Parser) (i : Z) : Parser :=
  mkParser (lex p) (tokens p) i.

Definition setIdx (i : Z) : M unit := fun p => Ret tt (rewindTo p i).

(** ** Token buffer *)

(** [p.tokens[idx]]: Go panics when the index is out of range. *)
Definition tokenAt (idx : Z) : M Token :=
  fun p =>
    if (0 <=? idx) && (idx <? Z.of_nat (List.length (tokens p))) then
      match nth_error (tokens p) (Z.to_nat idx) with
      | Some t => Ret t p
      | None => Panic (RuntimePanic "index out of range") p
      end
    else Panic (RuntimePanic "index out of range") p.

Definition token : M Token := i <- getIdx ;; tokenAt i.

(** [nextToken]: step the index; read a token from the lexer when the buffer
    ends.  A token that comes with a lex error is not appended. *)
Definition nextToken : M (result Token) :=
  fun p =>
    let i := tokIdx p + 1 in
    if i <? Z.of_nat (List.length (tokens p)) then
      (t <- tokenAt i ;; ret (Ok t)) (mkParser (lex p) (tokens p) i)
    else
      match NextToken (lex p) with
      | ((t, Some e), l) => Ret (Err (LexErr e)) (mkParser l (tokens p) i)
      | ((t, None), l) => Ret (Ok t) (mkParser l (tokens p ++ [t]) i)
      end.

(** [if _, err := p.nextToken(); err != nil { panic(err) }], as [accept] and
    [NewParser] have it. *)
Definition nextTokenOrPanic : M unit :=
  r <- nextToken ;;
  match r with
  | Ok _ => ret tt
  | Err err => panic (ErrorPanic err)
  end.

(** ** Primitives *)

(** [accept] returns [(&tok, true)] or [(nil, false)]: an optional token. *)
Definition accept (t : TokenType) (str : string) : M (option Token) :=
  cur <- token ;;
  if TokenType_eqb (kind cur) t then
    if (str =? "")%string || (str =? value cur)%string then
      nextTokenOrPanic ;;; ret (Some cur)
    else ret None
  else ret None.

Definition acceptType (t : TokenType) : M (option Token) := accept t "".

Definition expect (t : TokenType) (str : string) : M (result Token) :=
  r <- accept t str ;;
  match r with
  | None =>
      cur <- token ;;
      if (str =? "")%string
      then ret (Err (NewParseError cur (Expected t)))
      else ret (Err (NewParseError cur (ExpectedValue t str)))
  | Some tk => ret (Ok tk)
  end.

Definition expectType (t : TokenType) : M (result Token) := expect t "".

(** [expectOneOf]: the first listed kind the current token has.  The result
    of [nextToken] is dropped here, a lex error included. *)
Definition expectOneOf (ts : list TokenType) : M (result (TokenType * Token)) :=
  cur <- token ;;
  match find (fun ty => TokenType_eqb (kind cur) ty) ts with
  | Some ty => nextToken ;;; ret (Ok (ty, cur))
  | None =>
      cur' <- token ;;
      ret (Err (NewParseError cur' (ExpectedOneOf ts)))
  end.

(** ** [strconv.Atoi] *)

Definition digitValue (c : ascii) : option Z :=
  let n := Z.of_nat (nat_of_ascii c) in
  if (48 <=? n) && (n <=? 57) then Some (n - 48) else None.

Fixpoint digits (s : string) (acc : Z) : option Z :=
  match s with
  | EmptyString => Some acc
  | String c rest =>
      match digitValue c with
      | Some d => digits rest (10 * acc + d)
      | None => None
      end
  end.

(** Decimal text with an optional sign, in the range of a 64-bit [int];
    anything else is an error ([None]). *)
Definition Atoi (s : string) : option Z :=
  let '(neg, body) :=
    match s with
    | String "+"%char r => (false, r)
    | String "-"%char r => (true, r)
    | _ => (false, s)
    end in
  match body with
  | EmptyString => None
  | _ =>
      match digits body 0 with
      | Some n =>
          let v := if neg then - n else n in
          if (- 2 ^ 63 <=? v) && (v <=? 2 ^ 63 - 1) then Some v else None
      | None => None
      end
  end.

(** ** The grammar *)

Section Grammar.

(** [OperatorPrecedence] lives with the lexer, outside the parser file; only
    its first result is used. *)
Variable OperatorPrecedence : string -> Z.

Definition parseConstant : M (result Node) :=
  r <~ expectOneOf [tkNumber; tkCharacter; tkString] ;;
  let '(knd, tk) := r in
  match knd with
  | tkNumber =>
      match Atoi (value tk) with
      | None =>
          cur <- token ;;
          ret (Err (NewParseError cur "invalid integer literal"))
      | Some num => ret (Ok (IntegerNode num))
      end
  | tkCharacter => ret (Ok (CharacterNode (value tk)))
  | tkString => ret (Ok (StringNode (value tk)))
  | _ => (* [return nil, err] with a nil [err]: no caller survives it *)
      panic (RuntimePanic "nil pointer dereference")
  end.

Definition parseIdent : M (result Node) :=
  tk <~ expectType tkIdent ;;
  ret (Ok (IdentNode (value tk))).

(** The functions of the expression grammar call each other through
    [parseExpression]; [callExpr] stands for that call. *)
Definition parseParen_ (callExpr : M (result Node)) : M (result Node) :=
  _ <~ expectType tkOpenParen ;;
  inner <~ callExpr ;;
  _ <~ expectType tkCloseParen ;;
  ret (Ok (ParenNode inner)).

(** [if node, err = m(); err == nil {} else if ...]: the next alternative is
    tried from wherever the failed one stopped. *)
Definition orElse {A} (m k : M (result A)) : M (result A) :=
  r <- m ;;
  match r with
  | Ok a => ret (Ok a)
  | Err _ => k
  end.

Fixpoint parseArgs (fuel : nat) (callExpr : M (result Node))
    (args : list Node) : M (result (list Node)) :=
  match fuel with
  | O => outOfFuel
  | S n =>
      arg <~ callExpr ;;
      c <- acceptType tkComma ;;
      match c with
      | Some _ => parseArgs n callExpr (args ++ [arg])
      | None => ret (Ok (args ++ [arg]))
      end
  end.

Definition parsePrimary_ (fuel : nat) (callExpr : M (result Node))
    : M (result Node) :=
  node <~ orElse (parseParen_ callExpr)
            (orElse parseConstant
               (orElse parseIdent
                  (cur <- token ;;
                   ret (Err (NewParseError cur
                               "expected primary expression"))))) ;;
  (* Array access *)
  ob <- acceptType tkOpenBracket ;;
  match ob with
  | Some _ =>
      index <~ callExpr ;;
      _ <~ expectType tkCloseBracket ;;
      ret (Ok (ArrayAccessNode node index))
  | None =>
      (* Function call *)
      op <- acceptType tkOpenParen ;;
      match op with
      | Some _ =>
          cur <- token ;;
          args <~ (if negb (TokenType_eqb (kind cur) tkCloseParen)
                   then parseArgs fuel callExpr []
                   else ret (Ok [])) ;;
          _ <~ expectType tkCloseParen ;;
          ret (Ok (FunctionCallNode node args))
      | None => ret (Ok node)
      end
  end.

Definition isPrefixOp (s : string) : bool :=
  existsb (String.eqb s) ["*"; "&"; "-"; "!"; "++"; "--"; "~"].

Definition isPostfixOp (s : string) : bool :=
  existsb (String.eqb s) ["++"; "--"].

Definition parseSubExpression_ (fuel : nat) (callExpr : M (result Node))
    : M (result Node) :=
  (* Unary prefix operator *)
  o <- acceptType tkOperator ;;
  oper <~ match o with
          | Some tk =>
              if isPrefixOp (value tk) then ret (Ok (value tk))
              else cur <- token ;;
                   ret (Err (NewParseError cur "invalid unary op"))
          | None => ret (Ok "")
          end ;;
  expr <~ parsePrimary_ fuel callExpr ;;
  let expr1 := if (oper =? "")%string then expr
               else UnaryNode oper expr false in
  cur <- token ;;
  if TokenType_eqb (kind cur) tkOperator && isPostfixOp (value cur) then
    (* Unary postfix operator; the result of [nextToken] is dropped *)
    nextToken ;;; ret (Ok (UnaryNode (value cur) expr1 true))
  else ret (Ok expr1).

(** The rotation of [parseExpression] on a right operand that is binary. *)
Definition resolve (node : Node) (oper : string) (rhs : Node) : Node :=
  match rhs with
  | BinaryNode rleft roper rright =>
      let lproc := OperatorPrecedence oper in
      let rproc := OperatorPrecedence roper in
      if lproc >? rproc
      then BinaryNode (BinaryNode node oper rleft) roper rright
      else BinaryNode node oper rhs
  | _ => BinaryNode node oper rhs
  end.

Fixpoint parseExpression (fuel : nat) : M (result Node) :=
  match fuel with
  | O => outOfFuel
  | S n =>
      node <~ parseSubExpression_ n (parseExpression n) ;;
      o <- acceptType tkOperator ;;
      node1 <~ match o with
               | Some tk =>
                   rhs <~ parseExpression n ;;
                   ret (Ok (resolve node (value tk) rhs))
               | None => ret (Ok node)
               end ;;
      (* Ternary operator *)
      t <- acceptType tkTernary ;;
      match t with
      | Some _ =>
          tbody <~ parseExpression n ;;
          _ <~ expectType tkColon ;;
          fbody <~ parseExpression n ;;
          ret (Ok (TernaryNode node1 tbody fbody))
      | None => ret (Ok node1)
      end
  end.

Definition parseParen (fuel : nat) : M (result Node) :=
  parseParen_ (parseExpression fuel).

Definition parsePrimary (fuel : nat) : M (result Node) :=
  parsePrimary_ fuel (parseExpression fuel).

Definition parseSubExpression (fuel : nat) : M (result Node) :=
  parseSubExpression_ fuel (parseExpression fuel).

(** *** Declarations *)

Fixpoint variableListLoop (fuel : nat) (id : Token) (vars : list string)
    : M (result (list string)) :=
  match fuel with
  | O => outOfFuel
  | S n =>
      let vars := vars ++ [value id] in
      c <- acceptType tkComma ;;
      match c with
      | None => ret (Ok vars)
      | Some _ =>
          id' <~ expectType tkIdent ;;
          variableListLoop n id' vars
      end
  end.

(** zero or more comma separated variables *)
Definition parseVariableList (fuel : nat) : M (result (list string)) :=
  o <- acceptType tkIdent ;;
  match o with
  | Some id => variableListLoop fuel id []
  | None => ret (Ok [])
  end.

Definition parseExternVarDecl (fuel : nat) : M (result Node) :=
  _ <~ expect tkKeyword "extrn" ;;
  names <~ parseVariableList fuel ;;
  _ <~ expectType tkSemicolon ;;
  if (Z.of_nat (List.length names) <=? 0) then
    cur <- token ;;
    ret (Err (NewParseError cur
                "expected at least 1 variable in extrn declaration"))
  else ret (Ok (ExternVarDeclNode names)).

Fixpoint varDeclLoop (fuel : nat) (vars : list VarDecl)
    : M (result (list VarDecl)) :=
  match fuel with
  | O => outOfFuel
  | S n =>
      ident <~ expectType tkIdent ;;
      ob <- acceptType tkOpenBracket ;;
      vars' <~ match ob with
               | Some _ =>
                   num <~ expectType tkNumber ;;
                   match Atoi (value num) with
                   | None =>
                       cur <- token ;;
                       ret (Err (NewParseError cur "invalid integer literal"))
                   | Some size =>
                       _ <~ expectType tkCloseBracket ;;
                       ret (Ok (vars ++ [mkVarDecl (value ident) true size]))
                   end
               | None => ret (Ok (vars ++ [mkVarDecl (value ident) false 0]))
               end ;;
      c <- acceptType tkComma ;;
      match c with
      | Some _ => varDeclLoop n vars'
      | None => ret (Ok vars')
      end
  end.

Definition parseVarDecl (fuel : nat) : M (result Node) :=
  _ <~ expect tkKeyword "auto" ;;
  vars <~ varDeclLoop fuel [] ;;
  _ <~ expectType tkSemicolon ;;
  if (Z.of_nat (List.length vars) <=? 0) then
    cur <- token ;;
    ret (Err (NewParseError cur
                "expected at least 1 variable in auto declaration"))
  else ret (Ok (VarDeclNode vars)).

Fixpoint vecValuesLoop (fuel : nat) (values : list Node)
    : M (result (list Node)) :=
  match fuel with
  | O => outOfFuel
  | S n =>
      constant <~ parseConstant ;;
      c <- acceptType tkComma ;;
      match c with
      | Some _ => vecValuesLoop n (values ++ [constant])
      | None => ret (Ok (values ++ [constant]))
      end
  end.

Definition parseExternalVariableInit (fuel : nat) : M (result Node) :=
  ident <~ expectType tkIdent ;;
  ob <- acceptType tkOpenBracket ;;
  match ob with
  | Some _ =>
      size <~ expectType tkNumber ;;
      _ <~ expectType tkCloseBracket ;;
      match Atoi (value size) with
      | None =>
          cur <- token ;;
          ret (Err (NewParseError cur "Bad integer literal"))
      | Some sz =>
          values <~ vecValuesLoop fuel [] ;;
          _ <~ expectType tkSemicolon ;;
          ret (Ok (ExternVecInitNode (value ident) sz values))
      end
  | None =>
      c <- parseConstant ;;
      match c with
      | Err _ =>
          (* Empty declarations are zero filled *)
          _ <~ expectType tkSemicolon ;;
          ret (Ok (ExternVarInitNode (value ident) (IntegerNode 0)))
      | Ok constant =>
          _ <~ expectType tkSemicolon ;;
          ret (Ok (ExternVarInitNode (value ident) constant))
      end
  end.

(** *** Statements *)

(** [if node, err := m(); err != nil && p.tokIdx != pos { return nil, err }
    else if err == nil { return node, nil }], then [k]. *)
Definition attempt (pos : Z) (m k : M (result Node)) : M (result Node) :=
  r <- m ;;
  idx <- getIdx ;;
  match r with
  | Err e => if negb (idx =? pos) then ret (Err e) else k
  | Ok node => ret (Ok node)
  end.

(** [p.tokIdx -= 1] *)
Definition stepBack : M unit := i <- getIdx ;; setIdx (i - 1).

Fixpoint blockLoop (fuel : nat) (callStmt : M (result Node))
    (nodes : list Node) : M (result (list Node)) :=
  match fuel with
  | O => outOfFuel
  | S n =>
      cur <- token ;;
      if negb (TokenType_eqb (kind cur) tkCloseBrace) then
        stmt <~ callStmt ;;
        blockLoop n callStmt (nodes ++ [stmt])
      else ret (Ok nodes)
  end.

Definition parseBlock_ (fuel : nat) (callStmt : M (result Node))
    : M (result Node) :=
  _ <~ expectType tkOpenBrace ;;
  nodes <~ blockLoop fuel callStmt [] ;;
  _ <~ expectType tkCloseBrace ;;
  ret (Ok (BlockNode nodes)).

Definition parseIf_ (fuel : nat) (callStmt : M (result Node))
    : M (result Node) :=
  _ <~ expect tkKeyword "if" ;;
  _ <~ expectType tkOpenParen ;;
  cond <~ parseExpression fuel ;;
  _ <~ expectType tkCloseParen ;;
  trueBody <~ callStmt ;;
  e <- accept tkKeyword "else" ;;
  match e with
  | Some _ =>
      els <~ callStmt ;;
      ret (Ok (IfNode cond trueBody true els))
  | None => ret (Ok (IfNode cond trueBody false NilNode))
  end.

Definition parseWhile_ (fuel : nat) (callStmt : M (result Node))
    : M (result Node) :=
  _ <~ expect tkKeyword "while" ;;
  _ <~ expectType tkOpenParen ;;
  cond <~ parseExpression fuel ;;
  _ <~ expectType tkCloseParen ;;
  body <~ callStmt ;;
  ret (Ok (WhileNode cond body)).

(** The statements under a [case] or [default] label, up to the next label
    or the closing brace, which is put back. *)
Fixpoint caseBody (fuel : nat) (callStmt : M (result Node))
    (stmts : list Node) : M (result (list Node)) :=
  match fuel with
  | O => outOfFuel
  | S n =>
      a <- accept tkKeyword "case" ;;
      match a with
      | Some _ => stepBack ;;; ret (Ok stmts)
      | None =>
          b <- accept tkKeyword "default" ;;
          match b with
          | Some _ => stepBack ;;; ret (Ok stmts)
          | None =>
              c <- acceptType tkCloseBrace ;;
              match c with
              | Some _ => stepBack ;;; ret (Ok stmts)
              | None =>
                  stmt <~ callStmt ;;
                  caseBody n callStmt (stmts ++ [stmt])
              end
          end
      end
  end.

Fixpoint switchLoop (fuel : nat) (callStmt : M (result Node))
    (cond : Node) (defaultCase : list Node) (cases : list CaseNode)
    : M (result Node) :=
  match fuel with
  | O => outOfFuel
  | S n =>
      cb <- acceptType tkCloseBrace ;;
      match cb with
      | Some _ => ret (Ok (SwitchNode cond defaultCase cases))
      | None =>
          a <- accept tkKeyword "case" ;;
          match a with
          | Some _ =>
              c <~ parseConstant ;;
              _ <~ expectType tkColon ;;
              stmts <~ caseBody n callStmt [] ;;
              switchLoop n callStmt cond defaultCase (cases ++ [mkCase c stmts])
          | None =>
              d <- accept tkKeyword "default" ;;
              match d with
              | Some _ =>
                  _ <~ expectType tkColon ;;
                  match defaultCase with
                  | _ :: _ => (* switchNode.DefaultCase != nil *)
                      cur <- token ;;
                      ret (Err (NewParseError cur "Multiple 'default' cases"))
                  | [] =>
                      stmts <~ caseBody n callStmt defaultCase ;;
                      switchLoop n callStmt cond stmts cases
                  end
              | None =>
                  cur <- token ;;
                  ret (Err (NewParseError cur "expected 'case' or 'default'"))
              end
          end
      end
  end.

Definition parseSwitch_ (fuel : nat) (callStmt : M (result Node))
    : M (result Node) :=
  _ <~ expect tkKeyword "switch" ;;
  _ <~ expectType tkOpenParen ;;
  cond <~ parseExpression fuel ;;
  _ <~ expectType tkCloseParen ;;
  _ <~ expectType tkOpenBrace ;;
  switchLoop fuel callStmt cond [] [].

(** The last alternative of [parseStatement]: an expression and [;]. *)
Definition exprStatement (fuel : nat) (pos : Z) : M (result Node) :=
  r <- parseExpression fuel ;;
  idx <- getIdx ;;
  match r with
  | Err e =>
      if negb (idx =? pos) then ret (Err e)
      else cur <- tokenAt pos ;;
           ret (Err (NewParseError cur "expected statement"))
  | Ok node =>
      _ <~ expectType tkSemicolon ;;
      ret (Ok (StatementNode node))
  end.

(** The alternatives of [parseStatement] from the identifier on. *)
Definition identStatement (fuel : nat) (pos : Z) : M (result Node) :=
  i <- acceptType tkIdent ;;
  match i with
  | Some tk =>
      c <- acceptType tkColon ;;
      match c with
      | Some _ => ret (Ok (LabelNode (value tk)))
      | None =>
          s <- acceptType tkSemicolon ;;
          match s with
          | Some _ => ret (Ok (StatementNode (IdentNode (value tk))))
          | None =>
              (* rewind *)
              setIdx pos ;;; exprStatement fuel pos
          end
      end
  | None => exprStatement fuel pos
  end.

(** The alternatives of [parseStatement] led by a token of their own. *)
Definition simpleStatement (fuel : nat) (pos : Z) : M (result Node) :=
  s <- acceptType tkSemicolon ;;
  match s with
  | Some _ => ret (Ok NullNode)
  | None =>
      b <- accept tkKeyword "break" ;;
      match b with
      | Some _ =>
          _ <~ expectType tkSemicolon ;;
          ret (Ok BreakNode)
      | None =>
          r <- accept tkKeyword "return" ;;
          match r with
          | Some _ =>
              s' <- acceptType tkSemicolon ;;
              match s' with
              | Some _ => ret (Ok (ReturnNode NullNode))
              | None =>
                  node <~ parseExpression fuel ;;
                  _ <~ expectType tkSemicolon ;;
                  ret (Ok (ReturnNode node))
              end
          | None =>
              g <- accept tkKeyword "goto" ;;
              match g with
              | Some _ =>
                  tk <~ expectType tkIdent ;;
                  _ <~ expectType tkSemicolon ;;
                  ret (Ok (GotoNode (value tk)))
              | None => identStatement fuel pos
              end
          end
      end
  end.

Fixpoint parseStatement (fuel : nat) : M (result Node) :=
  match fuel with
  | O => outOfFuel
  | S n =>
      pos <- getIdx ;;
      attempt pos (parseIf_ n (parseStatement n))
        (attempt pos (parseBlock_ n (parseStatement n))
           (attempt pos (parseVarDecl n)
              (attempt pos (parseExternVarDecl n)
                 (attempt pos (parseWhile_ n (parseStatement n))
                    (attempt pos (parseSwitch_ n (parseStatement n))
                       (simpleStatement n pos))))))
  end.


Definition parseIf (fuel : nat) : M (result Node) :=
  parseIf_ fuel (parseStatement fuel).

Definition parseWhile (fuel : nat) : M (result Node) :=
  parseWhile_ fuel (parseStatement fuel).

Definition parseSwitch (fuel : nat) : M (result Node) :=
  parseSwitch_ fuel (parseStatement fuel).

(** *** Top level *)

Definition parseFuncDeclaration (fuel : nat) : M (result Node) :=
  id <~ expectType tkIdent ;;
  _ <~ expectType tkOpenParen ;;
  params <~ parseVariableList fuel ;;
  _ <~ expectType tkCloseParen ;;
  stmt <~ parseStatement fuel ;;
  ret (Ok (FunctionNode (value id) params stmt)).

(** The second half of [parseTopLevel]: the function alternative. *)
Definition functionAlternative (fuel : nat) (pos : Z) : M (result Node) :=
  r <- parseFuncDeclaration fuel ;;
  idx <- getIdx ;;
  match r with
  | Ok node => ret (Ok node)
  | Err e =>
      if negb (idx =? pos) then ret (Err e)
      else cur <- token ;;
           ret (Err (NewParseError cur "expected top level decl"))
  end.

(** function declaration or external variable *)
Definition parseTopLevel (fuel : nat) : M (result Node) :=
  pos <- getIdx ;;
  r <- parseExternalVariableInit fuel ;;
  idx <- getIdx ;;
  match r with
  | Ok node => ret (Ok node)
  | Err e =>
      if idx =? pos + 1 then
        (* Rewind to previous position if only ident is encountered *)
        setIdx pos ;;; functionAlternative fuel pos
      else
        (* Otherwise, it's an actual syntax error *)
        ret (Err e)
  end.

(** The loop of [Parse]; the unit is returned with the error, as it stands. *)
Fixpoint parseLoop (fuel : nat) (unit : TranslationUnit)
    : M (TranslationUnit * option error) :=
  match fuel with
  | O => outOfFuel
  | S n =>
      e <- acceptType tkEof ;;
      match e with
      | Some _ => ret (unit, None)
      | None =>
          r <- parseTopLevel n ;;
          match r with
          | Err err => ret (unit, Some err)
          | Ok node =>
              match node with
              | FunctionNode _ _ _ =>
                  parseLoop n
                    (mkUnit (File unit) (Funcs unit ++ [node]) (Vars unit))
              | ExternVarInitNode _ _ | ExternVecInitNode _ _ _ =>
                  parseLoop n
                    (mkUnit (File unit) (Funcs unit) (Vars unit ++ [node]))
              | _ =>
                  cur <- token ;;
                  ret (unit,
                       Some (NewParseError cur "That's not a top level decl"))
              end
          end
      end
  end.

(** [Parse], with its deferred [recover]: a panic whose value is a
    [*LexError] becomes the result [(TranslationUnit{}, lexErr)]; any other
    panic is thrown again. *)
Definition Parse (fuel : nat) : M (TranslationUnit * option error) :=
  fun p =>
    match parseLoop fuel (mkUnit (name (lex p)) [] []) p with
    | Panic (ErrorPanic (LexErr lexErr)) p' =>
        Ret (emptyUnit, Some (LexErr lexErr)) p'
    | r => r
    end.

End Grammar.

(** [NewParser]: the buffer starts empty with the index at -1 and the first
    token is read at once; [Ret tt p] stands for the parser [p] returned. *)
Definition NewParser (nm : string) (input : list LexResult) : Res unit :=
  nextTokenOrPanic (mkParser (NewLexer nm input) [] (-1)).

(** [NewParser] followed by [Parse]. *)
Definition parseInput (prec : string -> Z) (fuel : nat) (nm : string)
    (input : list LexResult) : Res (TranslationUnit * option error) :=
  match NewParser nm input with
  | Ret _ p => Parse prec fuel p
  | Panic v p => Panic v p
  | OutOfFuel => OutOfFuel
  end.

(** Modelled from the spec: [OperatorPrecedence] is not in the parser file.
    The levels are those of the spec's expression precedence list, from
    [* / %] (binding tightest, the largest number) down to assignment; an
    unknown operator is given 0. *)
Definition specPrecedence (op : string) : Z :=
  if existsb (String.eqb op) ["*"; "/"; "%"] then 11
  else if existsb (String.eqb op) ["+"; "-"] then 10
  else if existsb (String.eqb op) ["<<"; ">>"] then 9
  else if existsb (String.eqb op) ["<"; "<="; ">"; ">="] then 8
  else if existsb (String.eqb op) ["=="; "!="] then 7
  else if (op =? "&")%string then 6
  else if (op =? "^")%string then 5
  else if (op =? "|")%string then 4
  else if (op =? "&&")%string then 3
  else if (op =? "||")%string then 2
  else if (String.prefix "=" op) then 1
  else 0.

(** ** Sample inputs, as the lexer delivers them *)

Definition ident (s : string) : Token := tok tkIdent s.
Definition number (s : string) : Token := tok tkNumber s.
Definition keyword (s : string) : Token := tok tkKeyword s.
Definition operator (s : string) : Token := tok tkOperator s.
Definition semicolon : Token := tok tkSemicolon ";".
Definition colon : Token := tok tkColon ":".
Definition comma : Token := tok tkComma ",".
Definition openParen : Token := tok tkOpenParen "(".
Definition closeParen : Token := tok tkCloseParen ")".
Definition openBrace : Token := tok tkOpenBrace "{".
Definition closeBrace : Token := tok tkCloseBrace "}".
Definition openBracket : Token := tok tkOpenBracket "[".
Definition closeBracket : Token := tok tkCloseBracket "]".
Definition eof : Token := tok tkEof "".

(** The parser [NewParser] returns on an input, when it returns one. *)
Definition parserOn (input : list LexResult) : Parser :=
  match NewParser "name" input with
  | Ret _ p => p
  | _ => mkParser (NewLexer "name" input) [] (-1)
  end.

(** ** Shapes of nodes *)

(** The part of a node a postfix is applied to. *)
Definition postfixHead (n : Node) : option Node :=
  match n with
  | ArrayAccessNode a _ => Some a
  | FunctionCallNode c _ => Some c
  | _ => None
  end.

(** The three nodes [parsePrimary] starts from. *)
Definition isPlainPrimary (n : Node) : bool :=
  match n with
  | ParenNode _ | IntegerNode _ | CharacterNode _ | StringNode _
  | IdentNode _ => true
  | _ => false
  end.

Definition isBinary (n : Node) : bool :=
  match n with
  | BinaryNode _ _ _ => true
  | _ => false
  end.

(** Every [switch] in the tree has constants for the conditions of its
    cases. *)
Fixpoint casesConstant (n : Node) : bool :=
  match n with
  | ArrayAccessNode a i => casesConstant a && casesConstant i
  | BinaryNode l _ r => casesConstant l && casesConstant r
  | BlockNode ns => forallb casesConstant ns
  | ExternVarInitNode _ v => casesConstant v
  | ExternVecInitNode _ _ vs => forallb casesConstant vs
  | FunctionNode _ _ b => casesConstant b
  | FunctionCallNode c args => casesConstant c && forallb casesConstant args
  | IfNode c b _ e => casesConstant c && casesConstant b && casesConstant e
  | ParenNode a | ReturnNode a | StatementNode a | UnaryNode _ a _ =>
      casesConstant a
  | SwitchNode c d cs =>
      casesConstant c && forallb casesConstant d
      && forallb (fun cn =>
                    match cn with
                    | mkCase cc st => IsConstant cc && forallb casesConstant st
                    end) cs
  | TernaryNode c t f => casesConstant c && casesConstant t && casesConstant f
  | WhileNode c b => casesConstant c && casesConstant b
  | _ => true
  end.

(** The successful results of a parsing function all satisfy [P]. *)
Definition builds {A} (P : A -> Prop) (m : M (result A)) : Prop :=
  forall (p p' : Parser) (a : A), m p = Ret (Ok a) p' -> P a.

Definition wellFormed (n : Node) : Prop := casesConstant n = true.

Definition caseWellFormed (cn : CaseNode) : bool :=
  match cn with
  | mkCase cc st => IsConstant cc && forallb casesConstant st
  end.

Definition allWellFormed (ns : list Node) : Prop :=
  forallb casesConstant ns = true.

(** ** The unit [Parse] has built when it stops *)

(** The three nodes [Parse] files in the unit. *)
Definition isTopLevelDecl (n : Node) : bool :=
  match n with
  | FunctionNode _ _ _ | ExternVarInitNode _ _ | ExternVecInitNode _ _ _ =>
      true
  | _ => false
  end.

Definition isFunction (n : Node) : bool :=
  match n with
  | FunctionNode _ _ _ => true
  | _ => false
  end.

(** One turn of the loop of [Parse] on a declaration: functions go to
    [Funcs], initializers to [Vars]. *)
Definition addDecl (unit : TranslationUnit) (node : Node) : TranslationUnit :=
  match node with
  | FunctionNode _ _ _ =>
      mkUnit (File unit) (Funcs unit ++ [node]) (Vars unit)
  | _ => mkUnit (File unit) (Funcs unit) (Vars unit ++ [node])
  end.

(** [parsedDecls prec fuel p nodes fuel' p']: from [p], with [fuel], the loop
    of [Parse] parses the top-level declarations [nodes] one after the other,
    none of them at [Eof], and stands at [p'] with [fuel'] left. *)
Inductive parsedDecls (prec : string -> Z)
    : nat -> Parser -> list Node -> nat -> Parser -> Prop :=
| parsedNone (fuel : nat) (p : Parser) : parsedDecls prec fuel p [] fuel p
| parsedOne (n : nat) (p p1 : Parser) (node : Node) (nodes : list Node)
    (fuel' : nat) (p' : Parser) :
    acceptType tkEof p = Ret None p ->
    parseTopLevel prec n p = Ret (Ok node) p1 ->
    parsedDecls prec n p1 nodes fuel' p' ->
    parsedDecls prec (S n) p (node :: nodes) fuel' p'.

(** Two declarations, the second one without its [;]: [v ; w 1]. *)
Definition secondDeclBroken : list LexResult :=
  lexed [ident "v"; semicolon; ident "w"; number "1"].

(** [switch (x) { case 1: break; default: return 0; }] *)
Definition switchWithDefault : list Token :=
  [keyword "switch"; openParen; ident "x"; closeParen; openBrace;
   keyword "case"; number "1"; colon; keyword "break"; semicolon;
   keyword "default"; colon; keyword "return"; number "0"; semicolon;
   closeBrace].

(** [main() { auto i; i = 0; while (i < 10) { i = i + 1; } return i; }] *)
Definition mainWithLoop : list Token :=
  [ident "main"; openParen; closeParen; openBrace;
   keyword "auto"; ident "i"; semicolon;
   ident "i"; operator "="; number "0"; semicolon;
   keyword "while"; openParen; ident "i"; operator "<"; number "10";
   closeParen; openBrace;
   ident "i"; operator "="; ident "i"; operator "+"; number "1"; semicolon;
   closeBrace;
   keyword "return"; ident "i"; semicolon;
   closeBrace].

(** [tab [3] 1, 'a', "hi";] *)
Definition vectorInit : list Token :=
  [ident "tab"; openBracket; number "3"; closeBracket;
   number "1"; comma; tok tkCharacter "a"; comma; tok tkString "hi";
   semicolon].

(** ** What is left to read, and what a run may do to the parser *)

Definition isEof (t : Token) : bool := TokenType_eqb (kind t) tkEof.

(** The tokens of a list that are not [Eof]. *)
Definition realTokens (ts : list Token) : nat :=
  List.length (filter (fun t => negb (isEof t)) ts).

(** What the parser has not read yet: the tokens of the buffer from the
    index on that are not [Eof], and what the lexer still holds. *)
Definition unread (p : Parser) : nat :=
  (realTokens (skipn (Z.to_nat (tokIdx p)) (tokens p))
   + List.length (pending (lex p)))%nat.

(** The lexer will deliver no lex error. *)
Definition errorFree (l : Lexer) : Prop :=
  Forall (fun r : LexResult => snd r = None) (pending l).

(** The index points into the buffer: [p.token()] does not panic. *)
Definition inRange (p : Parser) : Prop :=
  0 <= tokIdx p < Z.of_nat (List.length (tokens p)).

Definition sound (p : Parser) : Prop := inRange p /\ errorFree (lex p).

(** From [p] to [p'] the buffer has only been appended to and the lexer has
    only been read forward, a token at most for each result taken. *)
Definition extends (p p' : Parser) : Prop :=
  exists more used,
    tokens p' = tokens p ++ more
    /\ pending (lex p) = used ++ pending (lex p')
    /\ name (lex p') = name (lex p)
    /\ (realTokens more <= List.length used)%nat.

(** [p'] comes after [p]: the buffer extended, the index not behind, and
    sound when [p] was. *)
Definition after (p p' : Parser) : Prop :=
  extends p p' /\ tokIdx p <= tokIdx p' /\ (sound p -> sound p').

(** [runs p0 m p Q]: started at [p], the computation [m] does not run out of
    fuel; when it returns, the parser comes after [p0] and [Q] holds of the
    result; when it panics, the buffer has still only been extended and [p0]
    was not sound. *)
Definition runs (p0 : Parser) {A} (m : M A) (p : Parser)
    (Q : A -> Parser -> Prop) : Prop :=
  match m p with
  | Ret a p' => after p0 p' /\ Q a p'
  | Panic _ p' => extends p0 p' /\ ~ sound p0
  | OutOfFuel => False
  end.

(** A successful result has consumed something. *)
Definition progress {A} (p : Parser) (r : result A) (p' : Parser) : Prop :=
  match r with
  | Ok _ => tokIdx p < tokIdx p' /\ (unread p' < unread p)%nat
  | Err _ => True
  end.

Definition anyResult {A} (a : A) (p' : Parser) : Prop := True.

(** ** A parser in the middle of a token stream *)

(** The parser that has read the tokens [pre], stands on the first token of
    [ts], and has the others still in a lexer without errors; at the end of
    the stream it stands on [Eof]. *)
Definition streamOf (nm : string) (pre ts : list Token) : Parser :=
  mkParser (mkLexer nm (lexed (tl ts))) (pre ++ [hd eof ts])
    (Z.of_nat (List.length pre)).

(** Groups of tokens with a comma between them. *)
Definition commaList (groups : list (list Token)) : list Token :=
  match groups with
  | [] => []
  | g :: gs => g ++ flat_map (fun g' => comma :: g') gs
  end.

(** The node [parseConstant] makes of a token. *)
Definition constantOf (t : Token) : option Node :=
  match kind t with
  | tkNumber => option_map IntegerNode (Atoi (value t))
  | tkCharacter => Some (CharacterNode (value t))
  | tkString => Some (StringNode (value t))
  | _ => None
  end.

(** An item of an [auto] declaration as written, a name and the literal of
    its size when it is a vector; its tokens, and the [VarDecl] it stands
    for. *)
Definition AutoItem : Type := (string * option string)%type.

Definition itemTokens (it : AutoItem) : list Token :=
  match it with
  | (nm, None) => [ident nm]
  | (nm, Some lit) => [ident nm; openBracket; number lit; closeBracket]
  end.

Definition itemDecl (it : AutoItem) : option VarDecl :=
  match it with
  | (nm, None) => Some (mkVarDecl nm false 0)
  | (nm, Some lit) => option_map (mkVarDecl nm true) (Atoi lit)
  end.

(** ** The sorts of the tree *)

(** An expression tree: an expression of [IsExpr] or a string literal, with
    expression trees below. *)
Fixpoint exprTree (n : Node) : bool :=
  match n with
  | ArrayAccessNode a i => exprTree a && exprTree i
  | BinaryNode l _ r => exprTree l && exprTree r
  | FunctionCallNode c args => exprTree c && forallb exprTree args
  | ParenNode a | UnaryNode _ a _ => exprTree a
  | TernaryNode c t f => exprTree c && exprTree t && exprTree f
  | IdentNode _ | IntegerNode _ | CharacterNode _ | StringNode _ => true
  | _ => false
  end.

(** A statement tree: a statement of [IsStatement] that is no top-level
    declaration, or the null statement; conditions and operands are
    expression trees, bodies are statement trees, the conditions of cases
    are constants, and an [If] without [else] has no else body. *)
Fixpoint stmtTree (n : Node) : bool :=
  match n with
  | BlockNode ns => forallb stmtTree ns
  | BreakNode | GotoNode _ | LabelNode _ | NullNode
  | ExternVarDeclNode _ | VarDeclNode _ => true
  | IfNode c b hasElse e =>
      exprTree c && stmtTree b
      && (if hasElse then stmtTree e
          else match e with NilNode => true | _ => false end)
  | WhileNode c b => exprTree c && stmtTree b
  | ReturnNode a => exprTree a || match a with NullNode => true | _ => false end
  | StatementNode e => exprTree e
  | SwitchNode c d cs =>
      exprTree c && forallb stmtTree d
      && forallb (fun cn =>
                    match cn with
                    | mkCase cc st => IsConstant cc && forallb stmtTree st
                    end) cs
  | _ => false
  end.

Definition caseTree (cn : CaseNode) : bool :=
  match cn with
  | mkCase cc st => IsConstant cc && forallb stmtTree st
  end.

(** A top-level declaration: a function with a statement tree for its body,
    or an initializer with constants for its values. *)
Definition declTree (n : Node) : bool :=
  match n with
  | FunctionNode _ _ b => stmtTree b
  | ExternVarInitNode _ v => IsConstant v
  | ExternVecInitNode _ _ vs => forallb IsConstant vs
  | _ => false
  end.

(** ** The errors a function returns *)

Definition isSyntaxError (e : error) : Prop :=
  match e with
  | ParseError _ _ => True
  | LexErr _ => False
  end.

(** The errors [m] returns as a value are all syntax errors. *)
Definition syntaxErrors {A} (m : M (result A)) : Prop :=
  forall (p p' : Parser) (e : error), m p = Ret (Err e) p' -> isSyntaxError e.

(** Two declarations and a lex error: [v ; w ;] and a character the lexer
    does not know. *)
Definition lexErrorAfterDecl : list LexResult :=
  lexed [ident "v"; semicolon; ident "w"; semicolon] ++ [lexFailure "bad"].

(** ** Chains of binary operators *)

(** The operands and operators of a tree of binary nodes over identifiers,
    from left to right. *)
Fixpoint inorder (n : Node) : list string :=
  match n with
  | BinaryNode l o r => inorder l ++ o :: inorder r
  | IdentNode v => [v]
  | _ => []
  end.

(** [a o1 b1 o2 b2 ...] as tokens and as text. *)
Definition chainTokens (a : string) (rest : list (string * string))
    : list Token :=
  ident a :: flat_map (fun ob => [operator (fst ob); ident (snd ob)]) rest.

Definition chainText (a : string) (rest : list (string * string))
    : list string :=
  a :: flat_map (fun ob => [fst ob; snd ob]) rest.

(** A token after which an expression cannot go on. *)
Definition endsExpression (t : Token) : bool :=
  negb (existsb (TokenType_eqb (kind t))
          [tkOperator; tkOpenBracket; tkOpenParen; tkTernary]).

(** ** Programs as they are written *)

(** The operands the sentences below are written with: an identifier or a
    constant, as its token and as its node. *)
Inductive Atom : Type :=
| AIdent (x : string)
| ANumber (lit : string)
| AChar (c : string)
| AString (s : string).

Definition atomToken (a : Atom) : Token :=
  match a with
  | AIdent x => ident x
  | ANumber lit => number lit
  | AChar c => tok tkCharacter c
  | AString s => tok tkString s
  end.

Definition atomNode (a : Atom) : option Node :=
  match a with
  | AIdent x => Some (IdentNode x)
  | _ => constantOf (atomToken a)
  end.

(** Statements over such operands: [;], [break;], [goto l;], [l:],
    [return;], [return a;], [a;], [{ ... }], [while (a) s], [if (a) s],
    [if (a) s else s], [auto ...;], [extrn ...;] and
    [switch (a) { case c: ... default: ... }], the default last. *)
Inductive Stmt : Type :=
| SNull
| SBreak
| SGoto (label : string)
| SLabel (label : string)
| SReturn (a : option Atom)
| SExpr (a : Atom)
| SBlock (ss : list Stmt)
| SWhile (c : Atom) (body : Stmt)
| SIf (c : Atom) (body : Stmt) (els : option Stmt)
| SAuto (items : list AutoItem)
| SExtrn (names : list string)
| SSwitch (c : Atom) (cases : list (Atom * list Stmt))
    (dflt : option (list Stmt)).

Fixpoint stmtTokens (s : Stmt) : list Token :=
  match s with
  | SNull => [semicolon]
  | SBreak => [keyword "break"; semicolon]
  | SGoto l => [keyword "goto"; ident l; semicolon]
  | SLabel l => [ident l; colon]
  | SReturn None => [keyword "return"; semicolon]
  | SReturn (Some a) => [keyword "return"; atomToken a; semicolon]
  | SExpr a => [atomToken a; semicolon]
  | SBlock ss => openBrace :: flat_map stmtTokens ss ++ [closeBrace]
  | SWhile c b =>
      keyword "while" :: openParen :: atomToken c :: closeParen
      :: stmtTokens b
  | SIf c b None =>
      keyword "if" :: openParen :: atomToken c :: closeParen :: stmtTokens b
  | SIf c b (Some e) =>
      keyword "if" :: openParen :: atomToken c :: closeParen
      :: stmtTokens b ++ keyword "else" :: stmtTokens e
  | SAuto items =>
      keyword "auto" :: commaList (map itemTokens items) ++ [semicolon]
  | SExtrn names =>
      keyword "extrn" :: commaList (map (fun s => [ident s]) names)
      ++ [semicolon]
  | SSwitch c cases dflt =>
      keyword "switch" :: openParen :: atomToken c :: closeParen
      :: openBrace
      :: flat_map (fun kc =>
                     match kc with
                     | (k, ss) =>
                         keyword "case" :: atomToken k :: colon
                         :: flat_map stmtTokens ss
                     end) cases
      ++ match dflt with
         | Some ss => keyword "default" :: colon :: flat_map stmtTokens ss
         | None => []
         end
      ++ [closeBrace]
  end.

(** All of a list, when none is missing. *)
Fixpoint allSome {A} (l : list (option A)) : option (list A) :=
  match l with
  | [] => Some []
  | Some a :: r => option_map (cons a) (allSome r)
  | None :: _ => None
  end.

(** The tree a statement stands for; none when a number is not one that
    [strconv.Atoi] accepts, or a declaration declares nothing. *)
Fixpoint stmtNode (s : Stmt) : option Node :=
  match s with
  | SNull => Some NullNode
  | SBreak => Some BreakNode
  | SGoto l => Some (GotoNode l)
  | SLabel l => Some (LabelNode l)
  | SReturn None => Some (ReturnNode NullNode)
  | SReturn (Some a) => option_map ReturnNode (atomNode a)
  | SExpr a => option_map StatementNode (atomNode a)
  | SBlock ss => option_map BlockNode (allSome (map stmtNode ss))
  | SWhile c b =>
      match atomNode c, stmtNode b with
      | Some cn, Some bn => Some (WhileNode cn bn)
      | _, _ => None
      end
  | SIf c b None =>
      match atomNode c, stmtNode b with
      | Some cn, Some bn => Some (IfNode cn bn false NilNode)
      | _, _ => None
      end
  | SIf c b (Some e) =>
      match atomNode c, stmtNode b, stmtNode e with
      | Some cn, Some bn, Some en => Some (IfNode cn bn true en)
      | _, _, _ => None
      end
  | SAuto items =>
      match items with
      | [] => None
      | _ => option_map VarDeclNode (allSome (map itemDecl items))
      end
  | SExtrn names =>
      match names with
      | [] => None
      | _ => Some (ExternVarDeclNode names)
      end
  | SSwitch c cases dflt =>
      match atomNode c,
            allSome
              (map (fun kc =>
                      match kc with
                      | (k, ss) =>
                          match constantOf (atomToken k),
                                allSome (map stmtNode ss) with
                          | Some kn, Some ns => Some (mkCase kn ns)
                          | _, _ => None
                          end
                      end) cases),
            match dflt with
            | Some ss => allSome (map stmtNode ss)
            | None => Some []
            end with
      | Some cn, Some cs, Some dn => Some (SwitchNode cn dn cs)
      | _, _, _ => None
      end
  end.

(** A statement that ends in an [if] without [else]: an [else] after it
    would be taken for its own. *)
Fixpoint dangling (s : Stmt) : bool :=
  match s with
  | SWhile _ b => dangling b
  | SIf _ _ None => true
  | SIf _ _ (Some e) => dangling e
  | _ => false
  end.

(** No [if] with an [else] has a body that ends in an [if] without. *)
Fixpoint wellNested (s : Stmt) : bool :=
  match s with
  | SBlock ss => forallb wellNested ss
  | SWhile _ b => wellNested b
  | SIf _ b None => wellNested b
  | SIf _ b (Some e) => wellNested b && negb (dangling b) && wellNested e
  | SSwitch _ cases dflt =>
      forallb (fun kc =>
                 match kc with
                 | (_, ss) => forallb wellNested ss
                 end) cases
      && match dflt with
         | Some ss => forallb wellNested ss
         | None => true
         end
  | _ => true
  end.

Definition notElse (t : Token) : bool :=
  negb (TokenType_eqb (kind t) tkKeyword && (value t =? "else")%string).

(** [accept t str] takes the token. *)
Definition leads (t : TokenType) (str : string) (cur : Token) : bool :=
  TokenType_eqb (kind cur) t
  && ((str =? "")%string || (str =? value cur)%string).

(** The cases and the default of a [switch], as in [stmtTokens] and
    [stmtNode]. *)
Definition caseTokens (kc : Atom * list Stmt) : list Token :=
  match kc with
  | (k, ss) =>
      keyword "case" :: atomToken k :: colon :: flat_map stmtTokens ss
  end.

Definition dfltTokens (dflt : option (list Stmt)) : list Token :=
  match dflt with
  | Some ss => keyword "default" :: colon :: flat_map stmtTokens ss
  | None => []
  end.

Definition caseNodeOf (kc : Atom * list Stmt) : option CaseNode :=
  match kc with
  | (k, ss) =>
      match constantOf (atomToken k), allSome (map stmtNode ss) with
      | Some kn, Some ns => Some (mkCase kn ns)
      | _, _ => None
      end
  end.

Definition dfltNodes (dflt : option (list Stmt)) : option (list Node) :=
  match dflt with
  | Some ss => allSome (map stmtNode ss)
  | None => Some []
  end.

(** A token that ends the body of a case. *)
Definition endsCase (t : Token) : bool :=
  leads tkKeyword "case" t || leads tkKeyword "default" t
  || leads tkCloseBrace "" t.

(** Top-level declarations: [f (a, b) s], [x;], [x c;] and
    [x [n] c1, c2, ...;]. *)
Inductive Decl : Type :=
| DFunction (f : string) (params : list string) (body : Stmt)
| DScalar (x : string) (init : option Atom)
| DVector (x lit : string) (values : list Atom).

Definition declTokens (d : Decl) : list Token :=
  match d with
  | DFunction f ps b =>
      ident f :: openParen :: commaList (map (fun s => [ident s]) ps)
      ++ closeParen :: stmtTokens b
  | DScalar x None => [ident x; semicolon]
  | DScalar x (Some a) => [ident x; atomToken a; semicolon]
  | DVector x lit vs =>
      ident x :: openBracket :: number lit :: closeBracket
      :: commaList (map (fun a => [atomToken a]) vs) ++ [semicolon]
  end.

(** The tree a declaration stands for; a scalar without a value is zero,
    a value is a constant, and a vector has a size and a value at least. *)
Definition declNode (d : Decl) : option Node :=
  match d with
  | DFunction f ps b => option_map (FunctionNode f ps) (stmtNode b)
  | DScalar x None => Some (ExternVarInitNode x (IntegerNode 0))
  | DScalar x (Some a) =>
      option_map (ExternVarInitNode x) (constantOf (atomToken a))
  | DVector x lit vs =>
      match Atoi lit, vs,
            allSome (map (fun a => constantOf (atomToken a)) vs) with
      | Some size, _ :: _, Some nodes => Some (ExternVecInitNode x size nodes)
      | _, _, _ => None
      end
  end.

Definition declNested (d : Decl) : bool :=
  match d with
  | DFunction _ _ b => wellNested b
  | _ => true
  end.

Definition declDangling (d : Decl) : bool :=
  match d with
  | DFunction _ _ b => dangling b
  | _ => false
  end.

(** The parser that has looked one token beyond the one it stands on:
    what a rewind by one leaves. *)
Definition peeked (nm : string) (pre : list Token) (t : Token)
    (more : list Token) : Parser :=
  rewindTo (streamOf nm (pre ++ [t]) more) (Z.of_nat (List.length pre)).

(** A program of two declarations:
    [n 3; main(a) { auto i; while (i) a; if (a) return i; else ; }]. *)
Definition sampleProgram : list Decl :=
  [DScalar "n" (Some (ANumber "3"));
   DFunction "main" ["a"]
     (SBlock [SAuto [("i", None)];
              SWhile (AIdent "i") (SExpr (AIdent "a"));
              SIf (AIdent "a") (SReturn (Some (AIdent "i"))) (Some SNull)])].

(** * Properties *)

(** ** The token buffer *)

Lemma tokenAt_same (i : Z) (p q : Parser) (t : Token) :
  tokenAt i p = Ret t q -> q = p.
Proof.
  unfold tokenAt.
  destruct (_ && _); [destruct (nth_error _ _) |]; congruence.
Qed.

Lemma token_same (p q : Parser) (t : Token) : token p = Ret t q -> q = p.
Proof. unfold token, bind, getIdx. apply tokenAt_same. Qed.

Lemma TokenType_eqb_eq (a b : TokenType) : TokenType_eqb a b = true -> a = b.
Proof. destruct a, b; intros H; try reflexivity; discriminate. Qed.

Lemma TokenType_eqb_neq (a b : TokenType) :
  a <> b -> TokenType_eqb a b = false.
Proof. destruct a, b; intros H; try reflexivity; now elim H. Qed.

(** ** Running the monad, forwards and backwards *)

Lemma bind_Ret {A B} (m : M A) (k : A -> M B) (p q : Parser) (a : A) :
  m p = Ret a q -> bind m k p = k a q.
Proof. intros H. unfold bind. rewrite H. reflexivity. Qed.

Lemma bindOk_Err {A B} (m : M (result A)) (k : A -> M (result B))
    (p q : Parser) (e : error) :
  m p = Ret (Err e) q -> bindOk m k p = Ret (Err e) q.
Proof. intros H. unfold bindOk, bind. rewrite H. reflexivity. Qed.

Lemma bind_Ret_inv {A B} (m : M A) (k : A -> M B) (p p' : Parser) (b : B) :
  bind m k p = Ret b p' ->
  exists a q, m p = Ret a q /\ k a q = Ret b p'.
Proof.
  unfold bind. destruct (m p) as [a q | v q |]; try discriminate.
  intros H. exists a, q. split; [reflexivity | exact H].
Qed.

Lemma bindOk_Ok_inv {A B} (m : M (result A)) (k : A -> M (result B))
    (p p' : Parser) (b : B) :
  bindOk m k p = Ret (Ok b) p' ->
  exists a q, m p = Ret (Ok a) q /\ k a q = Ret (Ok b) p'.
Proof.
  unfold bindOk. intros H. apply bind_Ret_inv in H.
  destruct H as ([a | e] & q & Hm & Hk); [| discriminate].
  exists a, q. split; assumption.
Qed.

Lemma orElse_Ok_inv {A} (m k : M (result A)) (p p' : Parser) (a : A) :
  orElse m k p = Ret (Ok a) p' ->
  m p = Ret (Ok a) p'
  \/ exists e q, m p = Ret (Err e) q /\ k q = Ret (Ok a) p'.
Proof.
  unfold orElse. intros H. apply bind_Ret_inv in H.
  destruct H as ([a0 | e] & q & Hm & Hk).
  - left. unfold ret in Hk. congruence.
  - right. exists e, q. split; assumption.
Qed.

Lemma ret_inv {A} (a b : A) (p p' : Parser) :
  ret a p = Ret b p' -> a = b /\ p = p'.
Proof. unfold ret. intros H. split; congruence. Qed.

(** Takes a successful run apart, call by call. *)
Ltac invert_run H :=
  let a := fresh "a" in
  let q := fresh "q" in
  let Hm := fresh "Hm" in
  let Hk := fresh "Hk" in
  first
    [ apply bindOk_Ok_inv in H; destruct H as (a & q & Hm & Hk)
    | apply bind_Ret_inv in H; destruct H as (a & q & Hm & Hk) ].

Tactic Notation "invert_step" hyp(H) "as" ident(a) ident(q) ident(Hm) :=
  first
    [ apply bindOk_Ok_inv in H; destruct H as (a & q & Hm & H)
    | apply bind_Ret_inv in H; destruct H as (a & q & Hm & H) ].

(** Reads the node off a final [ret (Ok _)]. *)
Ltac invert_ret H :=
  apply ret_inv in H; destruct H as [H _]; injection H as <-.

Lemma attempt_skip (m k : M (result Node)) (p : Parser) :
  (exists e, m p = Ret (Err e) p) ->
  attempt (tokIdx p) m k p = k p.
Proof.
  intros [e H]. unfold attempt, bind, getIdx. rewrite H, Z.eqb_refl.
  reflexivity.
Qed.

Lemma attempt_Ok_inv (pos : Z) (m k : M (result Node)) (p p' : Parser)
    (n : Node) :
  attempt pos m k p = Ret (Ok n) p' ->
  m p = Ret (Ok n) p' \/ exists e q, m p = Ret (Err e) q /\ k q = Ret (Ok n) p'.
Proof.
  unfold attempt. intros H.
  invert_step H as r q0 Hm. invert_step H as idx q1 Hidx.
  apply ret_inv in Hidx. destruct Hidx as [_ <-].
  destruct r as [node | e].
  - left. apply ret_inv in H. destruct H as [Heq <-]. congruence.
  - right. destruct (negb (idx =? pos)); [discriminate |].
    exists e, q0. split; assumption.
Qed.

(** ** [accept] and [expect] *)

Lemma accept_none_same (t : TokenType) (str : string) (p p' : Parser) :
  accept t str p = Ret None p' -> p' = p.
Proof.
  unfold accept, bind.
  destruct (token p) as [cur q | v q |] eqn:Hc; try discriminate.
  apply token_same in Hc. subst q.
  destruct (TokenType_eqb (kind cur) t).
  - destruct ((str =? "")%string || (str =? value cur)%string).
    + destruct (nextTokenOrPanic p); discriminate.
    + unfold ret. congruence.
  - unfold ret. congruence.
Qed.

Lemma accept_mismatch (t : TokenType) (str : string) (p : Parser)
    (cur : Token) :
  token p = Ret cur p ->
  TokenType_eqb (kind cur) t = false ->
  accept t str p = Ret None p.
Proof.
  intros Hc Hk. unfold accept, bind. rewrite Hc, Hk. reflexivity.
Qed.

Lemma expect_after_accept_none (t : TokenType) (str : string) (p : Parser)
    (cur : Token) :
  token p = Ret cur p ->
  accept t str p = Ret None p ->
  exists msg, expect t str p = Ret (Err (NewParseError cur msg)) p.
Proof.
  intros Hc Ha. unfold expect, bind. rewrite Ha, Hc.
  destruct (str =? "")%string; eexists; reflexivity.
Qed.

Lemma accept_expect_agree_aux (t : TokenType) (str : string) (p : Parser)
    (tk : Token) (p' : Parser) :
  expect t str p = Ret (Ok tk) p' <-> accept t str p = Ret (Some tk) p'.
Proof.
  unfold expect, bind.
  destruct (accept t str p) as [[tk0 |] q | v q |] eqn:Ha.
  - unfold ret. split; congruence.
  - split; [| discriminate].
    destruct (token q) as [cur q' | v q' |]; [| discriminate ..].
    destruct (str =? "")%string; discriminate.
  - split; discriminate.
  - split; discriminate.
Qed.




Lemma accept_match (t : TokenType) (p p1 : Parser) (cur : Token) :
  token p = Ret cur p ->
  kind cur = t ->
  nextTokenOrPanic p = Ret tt p1 ->
  acceptType t p = Ret (Some cur) p1.
Proof.
  intros Hc Hk Hn. subst t. unfold acceptType, accept.
  rewrite (bind_Ret _ _ _ _ _ Hc).
  replace (TokenType_eqb (kind cur) (kind cur)) with true
    by (destruct (kind cur); reflexivity).
  change (("" =? "")%string || ("" =? value cur)%string) with true.
  cbv iota. rewrite (bind_Ret _ _ _ _ _ Hn). reflexivity.
Qed.

(** A production that starts by expecting another kind of token fails at
    once and leaves the parser as it was. *)
Lemma leading_expect_mismatch {A} (t : TokenType) (str : string)
    (k : Token -> M (result A)) (p : Parser) (cur : Token) :
  token p = Ret cur p ->
  TokenType_eqb (kind cur) t = false ->
  exists e, bindOk (expect t str) k p = Ret (Err e) p.
Proof.
  intros Hc Hk.
  destruct (expect_after_accept_none t str p cur Hc
              (accept_mismatch t str p cur Hc Hk)) as [msg He].
  eexists. apply bindOk_Err. exact He.
Qed.

(** C8: [accept] hands back a token exactly when [expect] hands back that
    token, with the same parser state after the call; and an [accept] that
    hands back nothing leaves the parser, its token index included, as it
    was. *)
Theorem accept_expect_agree (t : TokenType) (str : string) (p : Parser) :
  (forall (tk : Token) (p' : Parser),
      accept t str p = Ret (Some tk) p' <-> expect t str p = Ret (Ok tk) p')
  /\ (forall p' : Parser,
         accept t str p = Ret None p' -> p' = p /\ tokIdx p' = tokIdx p).
Proof.
  split.
  - intros tk p'. symmetry. apply accept_expect_agree_aux.
  - intros p' Ha. apply accept_none_same in Ha. subst p'. split; reflexivity.
Qed.

(** On the input [1 abc] of the test of [accept]: [expect] takes the number
    [accept] takes, and the parser after [accept(tkNumber, "2")], which hands
    back nothing, is the parser before it. *)
Lemma accept_expect_agree_witness :
  expect tkNumber "1" (parserOn (lexed [number "1"; ident "abc"]))
  = Ret (Ok (number "1"))
      (mkParser (mkLexer "name" []) [number "1"; ident "abc"] 1)
  /\ mkParser (mkLexer "name" (lexed [ident "abc"])) [number "1"] 0
     = parserOn (lexed [number "1"; ident "abc"]).
Proof.
  split.
  - apply (proj1 (accept_expect_agree tkNumber "1"
                    (parserOn (lexed [number "1"; ident "abc"])))).
    reflexivity.
  - refine (proj1 (proj2 (accept_expect_agree tkNumber "2"
                            (parserOn (lexed [number "1"; ident "abc"])))
                     (mkParser (mkLexer "name" (lexed [ident "abc"]))
                        [number "1"] 0) eq_refl)).
Defined.

(** ** Node classification *)

(** C10: [IsExpr] and [IsStatement] never both hold of a node: whenever
    [IsExpr] answers true, [IsStatement] answers false. *)
Theorem IsExpr_IsStatement_exclusive (n : Node) :
  IsExpr n && IsStatement n = false
  /\ (if IsExpr n then IsStatement n = false else True).
Proof.
  unfold IsStatement. destruct (IsExpr n); split; reflexivity || exact I.
Qed.

(** ** What the productions build *)

Lemma parseConstant_builds_constant (p p' : Parser) (n : Node) :
  parseConstant p = Ret (Ok n) p' -> IsConstant n = true.
Proof.
  unfold parseConstant. intros H. invert_run H.
  destruct a as [knd tk].
  destruct knd; try discriminate; try (invert_ret Hk; reflexivity).
  destruct (Atoi (value tk)).
  - invert_ret Hk. reflexivity.
  - invert_run Hk. discriminate.
Qed.

Lemma parseIdent_builds_ident (p p' : Parser) (n : Node) :
  parseIdent p = Ret (Ok n) p' -> exists v, n = IdentNode v.
Proof.
  unfold parseIdent. intros H. invert_run H. invert_ret Hk.
  eexists. reflexivity.
Qed.

Lemma parseParen_builds_paren (callExpr : M (result Node)) (p p' : Parser)
    (n : Node) :
  parseParen_ callExpr p = Ret (Ok n) p' -> exists inner, n = ParenNode inner.
Proof.
  unfold parseParen_. intros H.
  invert_run H. invert_run Hk. invert_run Hk0. invert_ret Hk.
  eexists. reflexivity.
Qed.

Lemma parsePrimary_shape (fuel : nat) (callExpr : M (result Node))
    (p p' : Parser) (n : Node) :
  parsePrimary_ fuel callExpr p = Ret (Ok n) p' ->
  exists a,
    isPlainPrimary a = true
    /\ (n = a \/ (exists i, n = ArrayAccessNode a i)
        \/ (exists args, n = FunctionCallNode a args)).
Proof.
  unfold parsePrimary_. intros H. invert_step H as a q0 Hfirst.
  exists a. split.
  { apply orElse_Ok_inv in Hfirst.
    destruct Hfirst as [Hm | (e1 & q1 & _ & Hm)].
    { apply parseParen_builds_paren in Hm. destruct Hm as [i ->]. reflexivity. }
    apply orElse_Ok_inv in Hm. destruct Hm as [Hm | (e2 & q2 & _ & Hm)].
    { apply parseConstant_builds_constant in Hm.
      destruct a; now try discriminate. }
    apply orElse_Ok_inv in Hm. destruct Hm as [Hm | (e3 & q3 & _ & Hm)].
    { apply parseIdent_builds_ident in Hm. destruct Hm as [v ->]. reflexivity. }
    invert_step Hm as cur q4 Hcur. discriminate. }
  invert_step H as ob q1 Hob. destruct ob as [tk |].
  - invert_step H as index q2 Hindex. invert_step H as cb q3 Hcb.
    invert_ret H. right. left. eexists. reflexivity.
  - invert_step H as op q2 Hop. destruct op as [tk |].
    + invert_step H as cur q3 Hcur. invert_step H as args q4 Hargs.
      invert_step H as cp q5 Hcp. invert_ret H.
      right. right. eexists. reflexivity.
    + invert_ret H. left. reflexivity.
Qed.

Lemma parseSubExpression_not_binary (fuel : nat) (callExpr : M (result Node))
    (p p' : Parser) (n : Node) :
  parseSubExpression_ fuel callExpr p = Ret (Ok n) p' -> isBinary n = false.
Proof.
  unfold parseSubExpression_. intros H.
  invert_step H as o q0 Ho. invert_step H as oper q1 Hoper.
  invert_step H as expr q2 Hexpr. invert_step H as cur q3 Hcur.
  assert (Hexpr1 : isBinary (if (oper =? "")%string then expr
                             else UnaryNode oper expr false) = false).
  { destruct (oper =? "")%string; [| reflexivity].
    apply parsePrimary_shape in Hexpr.
    destruct Hexpr as (a & Ha & [-> | [[i ->] | [args ->]]]);
      try reflexivity.
    destruct a; try discriminate; reflexivity. }
  destruct (TokenType_eqb (kind cur) tkOperator && isPostfixOp (value cur)).
  - invert_step H as r q4 Hnext. invert_ret H. reflexivity.
  - invert_ret H. exact Hexpr1.
Qed.

Lemma parseExternalVariableInit_builds_init (fuel : nat) (p p' : Parser)
    (n : Node) :
  parseExternalVariableInit fuel p = Ret (Ok n) p' ->
  isTopLevelDecl n = true /\ forall a b c, n <> FunctionNode a b c.
Proof.
  unfold parseExternalVariableInit. intros H.
  invert_run H. invert_run Hk. destruct a0 as [tk |].
  - invert_run Hk0. invert_run Hk. destruct (Atoi (value a0)).
    + invert_run Hk0. invert_run Hk. invert_ret Hk0.
      split; [reflexivity | discriminate].
    + invert_run Hk0. discriminate.
  - invert_run Hk0. destruct a0 as [c | e].
    + invert_run Hk. invert_ret Hk0. split; [reflexivity | discriminate].
    + invert_run Hk. invert_ret Hk0. split; [reflexivity | discriminate].
Qed.

Lemma parseFuncDeclaration_builds_function (prec : string -> Z) (fuel : nat)
    (p p' : Parser) (n : Node) :
  parseFuncDeclaration prec fuel p = Ret (Ok n) p' ->
  exists a b c, n = FunctionNode a b c.
Proof.
  unfold parseFuncDeclaration. intros H.
  invert_run H. invert_run Hk. invert_run Hk0. invert_run Hk. invert_run Hk0.
  invert_ret Hk. eexists _, _, _. reflexivity.
Qed.

Lemma parseTopLevel_builds_decl (prec : string -> Z) (fuel : nat)
    (p p' : Parser) (n : Node) :
  parseTopLevel prec fuel p = Ret (Ok n) p' -> isTopLevelDecl n = true.
Proof.
  unfold parseTopLevel. intros H.
  invert_step H as pos q0 Hpos. invert_step H as r q1 Hinit.
  invert_step H as idx q2 Hidx. destruct r as [node | e].
  - invert_ret H. apply parseExternalVariableInit_builds_init in Hinit.
    apply Hinit.
  - destruct (idx =? pos + 1); [| discriminate].
    invert_step H as u q3 Hset. unfold functionAlternative in H.
    invert_step H as r q4 Hfun. invert_step H as idx' q5 Hidx'.
    destruct r as [node | e'].
    + invert_ret H.
      apply parseFuncDeclaration_builds_function in Hfun.
      destruct Hfun as (x & y & z & ->). reflexivity.
    + destruct (negb (idx' =? pos)); [discriminate |].
      invert_step H as cur q6 Hcur. discriminate.
Qed.

(** ** Top-level declarations *)




(** ** The result of [Parse] on a syntax error *)

(** The loop of [Parse] stops at the first error with the unit as the
    declarations before have left it. *)
Lemma parseLoop_syntax_error (prec : string -> Z) (fuel : nat)
    (unit u : TranslationUnit) (p p' : Parser) (e : error) :
  parseLoop prec fuel unit p = Ret (u, Some e) p' ->
  exists nodes n pm,
    parsedDecls prec fuel p nodes (S n) pm
    /\ acceptType tkEof pm = Ret None pm
    /\ parseTopLevel prec n pm = Ret (Err e) p'
    /\ u = fold_left addDecl nodes unit.
Proof.
  revert unit p.
  induction fuel as [| fuel IH]; intros unit p H; [discriminate |].
  simpl in H. invert_step H as eofTok q0 Heof. destruct eofTok as [tk |].
  { apply ret_inv in H. destruct H as [H _]. discriminate. }
  pose proof (accept_none_same tkEof "" p q0 Heof) as ->.
  invert_step H as r q1 Htop. destruct r as [node | err].
  - pose proof (parseTopLevel_builds_decl _ _ _ _ _ Htop) as Hdecl.
    assert (Hnext : parseLoop prec fuel (addDecl unit node) q1
                    = Ret (u, Some e) p')
      by (destruct node; try discriminate; exact H).
    apply IH in Hnext.
    destruct Hnext as (nodes & n & pm & Hdecls & Heof' & Herr & Hu).
    exists (node :: nodes), n, pm. repeat split; try assumption.
    econstructor; eassumption.
  - apply ret_inv in H. destruct H as [Heq ->].
    injection Heq as -> ->.
    exists [], fuel, p. repeat split; try assumption. constructor.
Qed.

Lemma fold_addDecl (nodes : list Node) (unit : TranslationUnit) :
  fold_left addDecl nodes unit
  = mkUnit (File unit)
      (Funcs unit ++ filter isFunction nodes)
      (Vars unit ++ filter (fun n => negb (isFunction n)) nodes).
Proof.
  revert unit. induction nodes as [| node nodes IH]; intros unit; simpl.
  - rewrite !app_nil_r. destruct unit; reflexivity.
  - rewrite IH.
    destruct node; simpl; rewrite <- ?app_assoc; reflexivity.
Qed.

(** C2: [Parse] does not return the empty unit with a syntax error.  Its
    [return unit, err] hands out the unit it has been appending to, where
    the deferred [recover] of the same function returns [TranslationUnit{}]
    with a lex error.  When [Parse] returns a syntax error, the unit that
    comes with it holds the file name and, in their order, the declarations
    parsed before the failing one (functions in [Funcs], initializers in
    [Vars]): it has no functions and no globals only when the first
    declaration is the failing one, and is not empty as soon as one
    declaration has been parsed before.  The other half holds: the error
    is that of the first [parseTopLevel] that fails, and the parser is left
    where that call stopped, so nothing is parsed after it. *)
Theorem Parse_syntax_error_returns_unit_so_far
    (prec : string -> Z) (fuel : nat) (p p' : Parser) (u : TranslationUnit)
    (tk : Token) (msg : Message) :
  Parse prec fuel p = Ret (u, Some (ParseError tk msg)) p' ->
  exists nodes n pm,
    parsedDecls prec fuel p nodes (S n) pm
    /\ acceptType tkEof pm = Ret None pm
    /\ parseTopLevel prec n pm = Ret (Err (ParseError tk msg)) p'
    /\ u = mkUnit (name (lex p)) (filter isFunction nodes)
             (filter (fun n => negb (isFunction n)) nodes)
    /\ (nodes = [] -> Funcs u = [] /\ Vars u = [])
    /\ (nodes <> [] -> Funcs u <> [] \/ Vars u <> []).
Proof.
  unfold Parse. intros H.
  destruct (parseLoop prec fuel (mkUnit (name (lex p)) [] []) p)
    as [[u0 e0] q | v q |] eqn:Hloop; try discriminate.
  - injection H as -> -> ->.
    apply parseLoop_syntax_error in Hloop.
    destruct Hloop as (nodes & n & pm & Hdecls & Heof & Herr & Hu).
    exists nodes, n, pm. rewrite fold_addDecl in Hu. simpl in Hu.
    do 4 (split; [assumption |]). subst u. split.
    + intros ->. split; reflexivity.
    + intros Hne. destruct nodes as [| node nodes]; [congruence |].
      cbn [Funcs Vars filter].
      destruct (isFunction node); [left | right]; discriminate.
  - destruct v as [[etok emsg | lexErr] | rmsg]; discriminate.
Qed.

Lemma Parse_syntax_error_returns_unit_so_far_witness :
  exists nodes n pm,
    parsedDecls specPrecedence 3 (parserOn secondDeclBroken) nodes (S n) pm
    /\ parseTopLevel specPrecedence n pm
       = Ret (Err (ParseError eof (Expected tkSemicolon)))
           (mkParser (mkLexer "name" [])
              [ident "v"; semicolon; ident "w"; number "1"; eof] 4)
    /\ mkUnit "name" [] [ExternVarInitNode "v" (IntegerNode 0)]
       = mkUnit "name" (filter isFunction nodes)
           (filter (fun n => negb (isFunction n)) nodes).
Proof.
  destruct (Parse_syntax_error_returns_unit_so_far specPrecedence 3
              (parserOn secondDeclBroken)
              (mkParser (mkLexer "name" [])
                 [ident "v"; semicolon; ident "w"; number "1"; eof] 4)
              (mkUnit "name" [] [ExternVarInitNode "v" (IntegerNode 0)])
              eof (Expected tkSemicolon) eq_refl)
    as (nodes & n & pm & Hdecls & _ & Herr & Hu & _).
  exists nodes, n, pm. repeat split; assumption.
Defined.

(** C2 on [v ; w 1]: the syntax error of the second declaration comes
    with a unit that holds the first one. *)
Lemma Parse_syntax_error_unit_not_empty :
  parseInput specPrecedence 3 "name" secondDeclBroken
  = Ret (mkUnit "name" [] [ExternVarInitNode "v" (IntegerNode 0)],
         Some (ParseError eof (Expected tkSemicolon)))
      (mkParser (mkLexer "name" [])
         [ident "v"; semicolon; ident "w"; number "1"; eof] 4)
  /\ Vars (mkUnit "name" [] [ExternVarInitNode "v" (IntegerNode 0)]) <> [].
Proof.
  split; [reflexivity | discriminate].
Qed.

(** ** Binary operators *)

Lemma resolve_same_level (prec : string -> Z) (a b c : Node)
    (op1 op2 : string) :
  prec op1 = prec op2 ->
  resolve prec a op1 (BinaryNode b op2 c)
  = BinaryNode a op1 (BinaryNode b op2 c).
Proof.
  intros H. unfold resolve. rewrite H.
  rewrite Z.gtb_ltb, Z.ltb_irrefl. reflexivity.
Qed.

(** A binary node whose left operand is binary comes out of the rotation
    only, and the rotation asks for a strictly greater precedence on the
    left. *)
Lemma left_nesting_needs_greater_precedence (prec : string -> Z) (fuel : nat)
    (p p' : Parser) (a b c : Node) (op1 op2 : string) :
  parseExpression prec fuel p
  = Ret (Ok (BinaryNode (BinaryNode a op1 b) op2 c)) p' ->
  prec op1 > prec op2.
Proof.
  destruct fuel as [| n]; [discriminate |]. simpl. intros H.
  invert_step H as node q0 Hnode.
  apply parseSubExpression_not_binary in Hnode.
  invert_step H as o q1 Ho. invert_step H as node1 q2 Hnode1.
  invert_step H as t q3 Ht.
  assert (Hres : node1 = BinaryNode (BinaryNode a op1 b) op2 c).
  { destruct t as [tk |].
    - invert_step H as tb q4 Htb. invert_step H as cl q5 Hcl.
      invert_step H as fb q6 Hfb.
      apply ret_inv in H. destruct H as [H _]. discriminate.
    - apply ret_inv in H. destruct H as [H _]. injection H as ->.
      reflexivity. }
  clear H. subst node1. destruct o as [tk |].
  - invert_step Hnode1 as rhs q4 Hrhs. apply ret_inv in Hnode1.
    destruct Hnode1 as [Heq _]. injection Heq as Heq.
    unfold resolve in Heq.
    destruct rhs; try (injection Heq as -> _ _; discriminate).
    destruct (prec (value tk) >? prec Oper) eqn:Hgt.
    + injection Heq as _ <- _ <- _. apply Z.gtb_gt. exact Hgt.
    + injection Heq as -> _ _. discriminate.
  - apply ret_inv in Hnode1. destruct Hnode1 as [Heq _].
    injection Heq as ->. discriminate.
Qed.

(** C3, what the code does: two binary operators of one precedence level
    are never rotated, so the second one stays in the right operand.  The
    input [a - b - c] is parsed to [Binary(a, -, Binary(b, -, c))], whatever
    the precedence table is; and on no input does [parseExpression] return a
    binary node with a binary left operand, unless the operator on the left
    has the strictly greater precedence. *)
Theorem same_level_operators_nest_right (prec : string -> Z) (fuel : nat) :
  (forall (a b c : Node) (op1 op2 : string),
      prec op1 = prec op2 ->
      resolve prec a op1 (BinaryNode b op2 c)
      = BinaryNode a op1 (BinaryNode b op2 c))
  /\ (exists p',
         parseExpression prec (3 + fuel)
           (parserOn (lexed [ident "a"; operator "-"; ident "b";
                             operator "-"; ident "c"; semicolon]))
         = Ret (Ok (BinaryNode (IdentNode "a") "-"
                      (BinaryNode (IdentNode "b") "-" (IdentNode "c")))) p'
         /\ tokIdx p' = 5)
  /\ (forall (p p' : Parser) (a b c : Node) (op1 op2 : string),
         parseExpression prec fuel p
         = Ret (Ok (BinaryNode (BinaryNode a op1 b) op2 c)) p' ->
         prec op1 > prec op2).
Proof.
  split; [| split].
  - intros a b c op1 op2. apply resolve_same_level.
  - cbv -[resolve]. simpl (resolve _ _ _ (IdentNode _)).
    rewrite resolve_same_level by reflexivity.
    eexists. split; reflexivity.
  - intros p p' a b c op1 op2.
    apply left_nesting_needs_greater_precedence.
Qed.

(** [a * b + c] under the precedence levels of the specification: the one
    left-nested tree comes with the greater precedence on the left. *)
Lemma same_level_operators_nest_right_witness :
  parseExpression specPrecedence 3
    (parserOn (lexed [ident "a"; operator "*"; ident "b"; operator "+";
                      ident "c"; semicolon]))
  = Ret (Ok (BinaryNode (BinaryNode (IdentNode "a") "*" (IdentNode "b")) "+"
               (IdentNode "c")))
      (mkParser (mkLexer "name" [])
         [ident "a"; operator "*"; ident "b"; operator "+"; ident "c";
          semicolon] 5)
  /\ specPrecedence "*" > specPrecedence "+".
Proof.
  split; [reflexivity |].
  exact (proj2 (proj2 (same_level_operators_nest_right specPrecedence 3))
           (parserOn (lexed [ident "a"; operator "*"; ident "b";
                             operator "+"; ident "c"; semicolon]))
           _ _ _ _ _ _ eq_refl).
Defined.

(** ** Postfix chains *)

(** C4, what the code does: [parsePrimary] puts at most one postfix on a
    primary.  On every input the node under an array access or a call is a
    parenthesis, a constant or an identifier; on [a[1][2]], [f(x)(y)] and
    [a[i](x)] it returns after the first postfix, with the second one still
    to be read, and the statement [a[1][2];] is a syntax error. *)
Theorem postfix_chain_stops_after_one (prec : string -> Z) (fuel : nat) :
  (forall (p p' : Parser) (n : Node),
      parsePrimary prec fuel p = Ret (Ok n) p' ->
      match postfixHead n with
      | Some h => isPlainPrimary h = true
      | None => True
      end)
  /\ (exists p',
         parsePrimary prec (2 + fuel)
           (parserOn (lexed [ident "a"; openBracket; number "1"; closeBracket;
                             openBracket; number "2"; closeBracket]))
         = Ret (Ok (ArrayAccessNode (IdentNode "a") (IntegerNode 1))) p'
         /\ tokIdx p' = 4 /\ token p' = Ret openBracket p')
  /\ (exists p',
         parsePrimary prec (2 + fuel)
           (parserOn (lexed [ident "f"; openParen; ident "x"; closeParen;
                             openParen; ident "y"; closeParen]))
         = Ret (Ok (FunctionCallNode (IdentNode "f") [IdentNode "x"])) p'
         /\ tokIdx p' = 4 /\ token p' = Ret openParen p')
  /\ (exists p',
         parsePrimary prec (2 + fuel)
           (parserOn (lexed [ident "a"; openBracket; ident "i"; closeBracket;
                             openParen; ident "x"; closeParen]))
         = Ret (Ok (ArrayAccessNode (IdentNode "a") (IdentNode "i"))) p'
         /\ tokIdx p' = 4 /\ token p' = Ret openParen p')
  /\ (exists p',
         parseStatement prec (4 + fuel)
           (parserOn (lexed [ident "a"; openBracket; number "1"; closeBracket;
                             openBracket; number "2"; closeBracket;
                             semicolon]))
         = Ret (Err (NewParseError openBracket (Expected tkSemicolon))) p').
Proof.
  split; [| repeat split].
  - intros p p' n H. apply parsePrimary_shape in H.
    destruct H as (a & Ha & [-> | [[i ->] | [args ->]]]);
      simpl; try exact Ha.
    destruct a; try discriminate; exact I.
  - eexists. repeat split; reflexivity.
  - eexists. repeat split; reflexivity.
  - eexists. repeat split; reflexivity.
  - eexists. reflexivity.
Qed.

(** [a[1]]: the node under the array access is the identifier. *)
Lemma postfix_chain_stops_after_one_witness :
  match postfixHead (ArrayAccessNode (IdentNode "a") (IntegerNode 1)) with
  | Some h => isPlainPrimary h = true
  | None => True
  end.
Proof.
  exact (proj1 (postfix_chain_stops_after_one specPrecedence 2)
           (parserOn (lexed [ident "a"; openBracket; number "1";
                             closeBracket; semicolon]))
           (mkParser (mkLexer "name" [])
              [ident "a"; openBracket; number "1"; closeBracket; semicolon]
              4)
           (ArrayAccessNode (IdentNode "a") (IntegerNode 1)) eq_refl).
Defined.

(** ** Statements that start with an identifier *)

(** On a token that is no keyword and no opening brace, [parseStatement]
    comes to its alternatives from the lone [;] on with the parser
    untouched. *)
Lemma parseStatement_falls_to_simple (prec : string -> Z) (n : nat)
    (p : Parser) (cur : Token) :
  token p = Ret cur p ->
  TokenType_eqb (kind cur) tkKeyword = false ->
  TokenType_eqb (kind cur) tkOpenBrace = false ->
  parseStatement prec (S n) p = simpleStatement prec n (tokIdx p) p.
Proof.
  intros Hc Hkw Hbr. simpl.
  unfold bind at 1. unfold getIdx at 1.
  rewrite attempt_skip
    by (unfold parseIf_; eapply leading_expect_mismatch; eassumption).
  rewrite attempt_skip
    by (unfold parseBlock_, expectType; eapply leading_expect_mismatch;
        eassumption).
  rewrite attempt_skip
    by (unfold parseVarDecl; eapply leading_expect_mismatch; eassumption).
  rewrite attempt_skip
    by (unfold parseExternVarDecl; eapply leading_expect_mismatch;
        eassumption).
  rewrite attempt_skip
    by (unfold parseWhile_; eapply leading_expect_mismatch; eassumption).
  rewrite attempt_skip
    by (unfold parseSwitch_; eapply leading_expect_mismatch; eassumption).
  reflexivity.
Qed.




(** ** Case conditions, in the whole tree *)

Lemma allWellFormed_snoc (ns : list Node) (n : Node) :
  allWellFormed ns -> wellFormed n -> allWellFormed (ns ++ [n]).
Proof.
  unfold allWellFormed, wellFormed. intros H1 H2.
  rewrite forallb_app, H1. simpl. rewrite H2. reflexivity.
Qed.

Lemma constant_wellFormed (n : Node) : IsConstant n = true -> wellFormed n.
Proof. destruct n; try discriminate; reflexivity. Qed.

Lemma parseConstant_wellFormed : builds wellFormed parseConstant.
Proof.
  intros p p' n H. apply constant_wellFormed.
  eapply parseConstant_builds_constant. exact H.
Qed.

Section ExpressionsWellFormed.

Variable prec : string -> Z.
Variable callExpr : M (result Node).
Hypothesis callExpr_wellFormed : builds wellFormed callExpr.

Lemma parseArgs_wellFormed (fuel : nat) (args : list Node) :
  allWellFormed args -> builds allWellFormed (parseArgs fuel callExpr args).
Proof.
  revert args. induction fuel as [| fuel IH]; intros args Hargs p p' l H;
    [discriminate |].
  simpl in H. invert_step H as arg q0 Harg. invert_step H as c q1 Hc.
  apply callExpr_wellFormed in Harg.
  destruct c as [tk |].
  - eapply IH; [| exact H]. apply allWellFormed_snoc; assumption.
  - invert_ret H. apply allWellFormed_snoc; assumption.
Qed.

Lemma parsePrimary_wellFormed (fuel : nat) :
  builds wellFormed (parsePrimary_ fuel callExpr).
Proof.
  intros p p' n H. unfold parsePrimary_ in H.
  invert_step H as a q0 Hfirst.
  assert (Ha : wellFormed a).
  { apply orElse_Ok_inv in Hfirst.
    destruct Hfirst as [Hm | (e1 & q1 & _ & Hm)].
    { unfold parseParen_ in Hm. invert_step Hm as o q2 Ho.
      invert_step Hm as inner q3 Hinner. invert_step Hm as c q4 Hc.
      invert_ret Hm. apply callExpr_wellFormed in Hinner. exact Hinner. }
    apply orElse_Ok_inv in Hm. destruct Hm as [Hm | (e2 & q2 & _ & Hm)].
    { eapply parseConstant_wellFormed. exact Hm. }
    apply orElse_Ok_inv in Hm. destruct Hm as [Hm | (e3 & q3 & _ & Hm)].
    { apply parseIdent_builds_ident in Hm. destruct Hm as [v ->]. reflexivity. }
    invert_step Hm as cur q4 Hcur. discriminate. }
  invert_step H as ob q1 Hob. destruct ob as [tk |].
  - invert_step H as index q2 Hindex. invert_step H as cb q3 Hcb.
    invert_ret H. apply callExpr_wellFormed in Hindex.
    unfold wellFormed in *. simpl. rewrite Ha, Hindex. reflexivity.
  - invert_step H as op q2 Hop. destruct op as [tk |].
    + invert_step H as cur q3 Hcur. invert_step H as args q4 Hargs.
      invert_step H as cp q5 Hcp. invert_ret H.
      assert (Hall : allWellFormed args).
      { destruct (negb (TokenType_eqb (kind cur) tkCloseParen)).
        - eapply parseArgs_wellFormed; [| exact Hargs]. reflexivity.
        - apply ret_inv in Hargs. destruct Hargs as [Heq _].
          injection Heq as <-. reflexivity. }
      unfold wellFormed, allWellFormed in *. simpl. rewrite Ha, Hall.
      reflexivity.
    + invert_ret H. exact Ha.
Qed.

Lemma parseSubExpression_wellFormed (fuel : nat) :
  builds wellFormed (parseSubExpression_ fuel callExpr).
Proof.
  intros p p' n H. unfold parseSubExpression_ in H.
  invert_step H as o q0 Ho. invert_step H as oper q1 Hoper.
  invert_step H as expr q2 Hexpr. invert_step H as cur q3 Hcur.
  apply parsePrimary_wellFormed in Hexpr.
  assert (Hexpr1 : wellFormed (if (oper =? "")%string then expr
                               else UnaryNode oper expr false))
    by (destruct (oper =? "")%string; exact Hexpr).
  destruct (TokenType_eqb (kind cur) tkOperator && isPostfixOp (value cur)).
  - invert_step H as r q4 Hnext. invert_ret H. exact Hexpr1.
  - invert_ret H. exact Hexpr1.
Qed.

Lemma resolve_wellFormed (node rhs : Node) (oper : string) :
  wellFormed node -> wellFormed rhs -> wellFormed (resolve prec node oper rhs).
Proof.
  unfold wellFormed, resolve. intros Hn Hr.
  destruct rhs; simpl in *; rewrite ?Hn, ?Hr; try reflexivity.
  apply andb_prop in Hr. destruct Hr as [Hl Hrr].
  destruct (prec oper >? prec Oper); simpl; rewrite Hn, Hl, Hrr; reflexivity.
Qed.

End ExpressionsWellFormed.

Lemma parseExpression_wellFormed (prec : string -> Z) (fuel : nat) :
  builds wellFormed (parseExpression prec fuel).
Proof.
  induction fuel as [| fuel IH]; intros p p' n H; [discriminate |].
  simpl in H. invert_step H as node q0 Hnode.
  apply (parseSubExpression_wellFormed _ IH) in Hnode.
  invert_step H as o q1 Ho. invert_step H as node1 q2 Hnode1.
  assert (H1 : wellFormed node1).
  { destruct o as [tk |].
    - invert_step Hnode1 as rhs q3 Hrhs. invert_ret Hnode1.
      apply IH in Hrhs. apply resolve_wellFormed; assumption.
    - invert_ret Hnode1. exact Hnode. }
  invert_step H as t q3 Ht. destruct t as [tk |].
  - invert_step H as tb q4 Htb. invert_step H as cl q5 Hcl.
    invert_step H as fb q6 Hfb. invert_ret H.
    apply IH in Htb. apply IH in Hfb.
    unfold wellFormed in *. simpl. rewrite H1, Htb, Hfb. reflexivity.
  - invert_ret H. exact H1.
Qed.

Section StatementsWellFormed.

Variable prec : string -> Z.
Variable callStmt : M (result Node).
Hypothesis callStmt_wellFormed : builds wellFormed callStmt.

Lemma blockLoop_wellFormed (fuel : nat) (nodes : list Node) :
  allWellFormed nodes -> builds allWellFormed (blockLoop fuel callStmt nodes).
Proof.
  revert nodes. induction fuel as [| fuel IH]; intros nodes Hnodes p p' l H;
    [discriminate |].
  simpl in H. invert_step H as cur q0 Hcur.
  destruct (negb (TokenType_eqb (kind cur) tkCloseBrace)).
  - invert_step H as stmt q1 Hstmt. apply callStmt_wellFormed in Hstmt.
    eapply IH; [| exact H]. apply allWellFormed_snoc; assumption.
  - invert_ret H. exact Hnodes.
Qed.

Lemma parseBlock_wellFormed (fuel : nat) :
  builds wellFormed (parseBlock_ fuel callStmt).
Proof.
  intros p p' n H. unfold parseBlock_ in H.
  invert_step H as ob q0 Hob. invert_step H as nodes q1 Hnodes.
  invert_step H as cb q2 Hcb. invert_ret H.
  exact (blockLoop_wellFormed fuel [] eq_refl _ _ _ Hnodes).
Qed.

Lemma parseIf_wellFormed (fuel : nat) :
  builds wellFormed (parseIf_ prec fuel callStmt).
Proof.
  intros p p' n H. unfold parseIf_ in H.
  invert_step H as kw q0 Hkw. invert_step H as op q1 Hop.
  invert_step H as cond q2 Hcond. invert_step H as cp q3 Hcp.
  invert_step H as body q4 Hbody. invert_step H as e q5 He.
  apply parseExpression_wellFormed in Hcond.
  apply callStmt_wellFormed in Hbody.
  destruct e as [tk |].
  - invert_step H as els q6 Hels. invert_ret H.
    apply callStmt_wellFormed in Hels.
    unfold wellFormed in *. simpl. rewrite Hcond, Hbody, Hels. reflexivity.
  - invert_ret H.
    unfold wellFormed in *. simpl. rewrite Hcond, Hbody. reflexivity.
Qed.

Lemma parseWhile_wellFormed (fuel : nat) :
  builds wellFormed (parseWhile_ prec fuel callStmt).
Proof.
  intros p p' n H. unfold parseWhile_ in H.
  invert_step H as kw q0 Hkw. invert_step H as op q1 Hop.
  invert_step H as cond q2 Hcond. invert_step H as cp q3 Hcp.
  invert_step H as body q4 Hbody. invert_ret H.
  apply parseExpression_wellFormed in Hcond.
  apply callStmt_wellFormed in Hbody.
  unfold wellFormed in *. simpl. rewrite Hcond, Hbody. reflexivity.
Qed.

Lemma caseBody_wellFormed (fuel : nat) (stmts : list Node) :
  allWellFormed stmts -> builds allWellFormed (caseBody fuel callStmt stmts).
Proof.
  revert stmts. induction fuel as [| fuel IH]; intros stmts Hstmts p p' l H;
    [discriminate |].
  simpl in H. invert_step H as a q0 Ha. destruct a as [tk |].
  { invert_step H as u q1 Hu. invert_ret H. exact Hstmts. }
  invert_step H as b q1 Hb. destruct b as [tk |].
  { invert_step H as u q2 Hu. invert_ret H. exact Hstmts. }
  invert_step H as c q2 Hc. destruct c as [tk |].
  { invert_step H as u q3 Hu. invert_ret H. exact Hstmts. }
  invert_step H as stmt q3 Hstmt. apply callStmt_wellFormed in Hstmt.
  eapply IH; [| exact H]. apply allWellFormed_snoc; assumption.
Qed.

Lemma switchLoop_wellFormed (fuel : nat) (cond : Node) (dflt : list Node)
    (cases : list CaseNode) :
  wellFormed cond -> allWellFormed dflt ->
  forallb caseWellFormed cases = true ->
  builds wellFormed (switchLoop fuel callStmt cond dflt cases).
Proof.
  revert dflt cases.
  induction fuel as [| fuel IH]; intros dflt cases Hcond Hdflt Hcases p p' n H;
    [discriminate |].
  simpl in H. invert_step H as cb q0 Hcb. destruct cb as [tk |].
  { invert_ret H. unfold wellFormed, allWellFormed in *. simpl.
    rewrite Hcond, Hdflt. exact Hcases. }
  invert_step H as a q1 Ha. destruct a as [tk |].
  { invert_step H as c q2 Hc. invert_step H as cl q3 Hcl.
    invert_step H as stmts q4 Hstmts.
    apply parseConstant_builds_constant in Hc.
    apply caseBody_wellFormed in Hstmts; [| reflexivity].
    eapply IH; [exact Hcond | exact Hdflt | | exact H].
    rewrite forallb_app, Hcases. simpl.
    unfold allWellFormed in Hstmts. rewrite Hc, Hstmts. reflexivity. }
  invert_step H as d q2 Hd. destruct d as [tk |].
  - invert_step H as cl q3 Hcl. destruct dflt as [| d0 dflt].
    + invert_step H as stmts q4 Hstmts.
      apply caseBody_wellFormed in Hstmts; [| reflexivity].
      eapply IH; [exact Hcond | exact Hstmts | exact Hcases | exact H].
    + invert_step H as cur q4 Hcur. discriminate.
  - invert_step H as cur q3 Hcur. discriminate.
Qed.

Lemma parseSwitch_wellFormed (fuel : nat) :
  builds wellFormed (parseSwitch_ prec fuel callStmt).
Proof.
  intros p p' n H. unfold parseSwitch_ in H.
  invert_step H as kw q0 Hkw. invert_step H as op q1 Hop.
  invert_step H as cond q2 Hcond. invert_step H as cp q3 Hcp.
  invert_step H as ob q4 Hob.
  apply parseExpression_wellFormed in Hcond.
  exact (switchLoop_wellFormed fuel cond [] [] Hcond eq_refl eq_refl _ _ _ H).
Qed.

End StatementsWellFormed.

Lemma parseVarDecl_wellFormed (fuel : nat) :
  builds wellFormed (parseVarDecl fuel).
Proof.
  intros p p' n H. unfold parseVarDecl in H.
  invert_step H as kw q0 Hkw. invert_step H as vars q1 Hvars.
  invert_step H as sc q2 Hsc.
  destruct (Z.of_nat (List.length vars) <=? 0).
  - invert_step H as cur q3 Hcur. discriminate.
  - invert_ret H. reflexivity.
Qed.

Lemma parseExternVarDecl_wellFormed (fuel : nat) :
  builds wellFormed (parseExternVarDecl fuel).
Proof.
  intros p p' n H. unfold parseExternVarDecl in H.
  invert_step H as kw q0 Hkw. invert_step H as names q1 Hnames.
  invert_step H as sc q2 Hsc.
  destruct (Z.of_nat (List.length names) <=? 0).
  - invert_step H as cur q3 Hcur. discriminate.
  - invert_ret H. reflexivity.
Qed.

Lemma exprStatement_wellFormed (prec : string -> Z) (fuel : nat) (pos : Z) :
  builds wellFormed (exprStatement prec fuel pos).
Proof.
  intros p p' n H. unfold exprStatement in H.
  invert_step H as r q0 Hr. invert_step H as idx q1 Hidx.
  destruct r as [node | e].
  - invert_step H as sc q2 Hsc. invert_ret H.
    apply parseExpression_wellFormed in Hr. exact Hr.
  - destruct (negb (idx =? pos)); [discriminate |].
    invert_step H as cur q2 Hcur. discriminate.
Qed.

Lemma identStatement_wellFormed (prec : string -> Z) (fuel : nat) (pos : Z) :
  builds wellFormed (identStatement prec fuel pos).
Proof.
  intros p p' n H. unfold identStatement in H.
  invert_step H as i q0 Hi. destruct i as [tk |].
  - invert_step H as c q1 Hc. destruct c as [ctk |].
    + invert_ret H. reflexivity.
    + invert_step H as s q2 Hs. destruct s as [stk |].
      * invert_ret H. reflexivity.
      * invert_step H as u q3 Hu.
        eapply exprStatement_wellFormed. exact H.
  - eapply exprStatement_wellFormed. exact H.
Qed.

Lemma simpleStatement_wellFormed (prec : string -> Z) (fuel : nat) (pos : Z) :
  builds wellFormed (simpleStatement prec fuel pos).
Proof.
  intros p p' n H. unfold simpleStatement in H.
  invert_step H as s q0 Hs. destruct s as [tk |].
  { invert_ret H. reflexivity. }
  invert_step H as b q1 Hb. destruct b as [tk |].
  { invert_step H as sc q2 Hsc. invert_ret H. reflexivity. }
  invert_step H as r q2 Hr. destruct r as [tk |].
  { invert_step H as s' q3 Hs'. destruct s' as [tk' |].
    - invert_ret H. reflexivity.
    - invert_step H as node q4 Hnode. invert_step H as sc q5 Hsc.
      invert_ret H. apply parseExpression_wellFormed in Hnode. exact Hnode. }
  invert_step H as g q3 Hg. destruct g as [tk |].
  { invert_step H as id q4 Hid. invert_step H as sc q5 Hsc.
    invert_ret H. reflexivity. }
  eapply identStatement_wellFormed. exact H.
Qed.

Lemma parseStatement_wellFormed (prec : string -> Z) (fuel : nat) :
  builds wellFormed (parseStatement prec fuel).
Proof.
  induction fuel as [| fuel IH]; intros p p' n H; [discriminate |].
  simpl in H. invert_step H as pos q0 Hpos.
  apply attempt_Ok_inv in H. destruct H as [H | (e1 & q1 & _ & H)].
  { eapply parseIf_wellFormed; eassumption. }
  apply attempt_Ok_inv in H. destruct H as [H | (e2 & q2 & _ & H)].
  { eapply parseBlock_wellFormed; eassumption. }
  apply attempt_Ok_inv in H. destruct H as [H | (e3 & q3 & _ & H)].
  { eapply parseVarDecl_wellFormed; eassumption. }
  apply attempt_Ok_inv in H. destruct H as [H | (e4 & q4 & _ & H)].
  { eapply parseExternVarDecl_wellFormed; eassumption. }
  apply attempt_Ok_inv in H. destruct H as [H | (e5 & q5 & _ & H)].
  { eapply parseWhile_wellFormed; eassumption. }
  apply attempt_Ok_inv in H. destruct H as [H | (e6 & q6 & _ & H)].
  { eapply parseSwitch_wellFormed; eassumption. }
  eapply simpleStatement_wellFormed. exact H.
Qed.

Lemma vecValuesLoop_wellFormed (fuel : nat) (values : list Node) :
  allWellFormed values -> builds allWellFormed (vecValuesLoop fuel values).
Proof.
  revert values. induction fuel as [| fuel IH]; intros values Hv p p' l H;
    [discriminate |].
  simpl in H. invert_step H as constant q0 Hconstant.
  apply parseConstant_wellFormed in Hconstant.
  invert_step H as c q1 Hc. destruct c as [tk |].
  - eapply IH; [| exact H]. apply allWellFormed_snoc; assumption.
  - invert_ret H. apply allWellFormed_snoc; assumption.
Qed.

Lemma parseExternalVariableInit_wellFormed (fuel : nat) :
  builds wellFormed (parseExternalVariableInit fuel).
Proof.
  intros p p' n H. unfold parseExternalVariableInit in H.
  invert_step H as id q0 Hid. invert_step H as ob q1 Hob.
  destruct ob as [tk |].
  - invert_step H as size q2 Hsize. invert_step H as cb q3 Hcb.
    destruct (Atoi (value size)).
    + invert_step H as values q4 Hvalues. invert_step H as sc q5 Hsc.
      invert_ret H.
      exact (vecValuesLoop_wellFormed fuel [] eq_refl _ _ _ Hvalues).
    + invert_step H as cur q4 Hcur. discriminate.
  - invert_step H as c q2 Hc. destruct c as [constant | e].
    + invert_step H as sc q3 Hsc. invert_ret H.
      exact (parseConstant_wellFormed _ _ _ Hc).
    + invert_step H as sc q3 Hsc. invert_ret H. reflexivity.
Qed.

Lemma parseTopLevel_wellFormed (prec : string -> Z) (fuel : nat) :
  builds wellFormed (parseTopLevel prec fuel).
Proof.
  intros p p' n H. unfold parseTopLevel in H.
  invert_step H as pos q0 Hpos. invert_step H as r q1 Hinit.
  invert_step H as idx q2 Hidx. destruct r as [node | e].
  - invert_ret H. eapply parseExternalVariableInit_wellFormed. exact Hinit.
  - destruct (idx =? pos + 1); [| discriminate].
    invert_step H as u q3 Hset. unfold functionAlternative in H.
    invert_step H as r q4 Hfun. invert_step H as idx' q5 Hidx'.
    destruct r as [node | e'].
    + invert_ret H. unfold parseFuncDeclaration in Hfun.
      invert_step Hfun as id q6 Hid. invert_step Hfun as op q7 Hop.
      invert_step Hfun as params q8 Hparams. invert_step Hfun as cp q9 Hcp.
      invert_step Hfun as stmt q10 Hstmt. invert_ret Hfun.
      exact (parseStatement_wellFormed _ _ _ _ _ Hstmt).
    + destruct (negb (idx' =? pos)); [discriminate |].
      invert_step H as cur q6 Hcur. discriminate.
Qed.

Lemma parsedDecls_wellFormed (prec : string -> Z) (fuel fuel' : nat)
    (p p' : Parser) (nodes : list Node) :
  parsedDecls prec fuel p nodes fuel' p' -> Forall wellFormed nodes.
Proof.
  induction 1 as [| n p p1 node nodes fuel' p' Heof Htop _ IH];
    constructor; [| exact IH].
  eapply parseTopLevel_wellFormed. exact Htop.
Qed.

Lemma parseLoop_success (prec : string -> Z) (fuel : nat)
    (unit u : TranslationUnit) (p p' : Parser) :
  parseLoop prec fuel unit p = Ret (u, None) p' ->
  exists nodes fuel' pm,
    parsedDecls prec fuel p nodes fuel' pm
    /\ u = fold_left addDecl nodes unit.
Proof.
  revert unit p.
  induction fuel as [| fuel IH]; intros unit p H; [discriminate |].
  simpl in H. invert_step H as eofTok q0 Heof. destruct eofTok as [tk |].
  { apply ret_inv in H. destruct H as [Heq _]. injection Heq as ->.
    exists [], (S fuel), p. split; [constructor | reflexivity]. }
  pose proof (accept_none_same tkEof "" p q0 Heof) as ->.
  invert_step H as r q1 Htop. destruct r as [node | err].
  - pose proof (parseTopLevel_builds_decl _ _ _ _ _ Htop) as Hdecl.
    assert (Hnext : parseLoop prec fuel (addDecl unit node) q1
                    = Ret (u, None) p')
      by (destruct node; try discriminate; exact H).
    apply IH in Hnext. destruct Hnext as (nodes & fuel' & pm & Hdecls & Hu).
    exists (node :: nodes), fuel', pm. split; [| exact Hu].
    econstructor; eassumption.
  - apply ret_inv in H. destruct H as [Heq _]. discriminate.
Qed.

(** Every [switch] of a unit [Parse] returns without an error, however deep
    in a function body, has constants for the conditions of its cases. *)
Lemma Parse_cases_constant (prec : string -> Z) (fuel : nat) (p p' : Parser)
    (u : TranslationUnit) :
  Parse prec fuel p = Ret (u, None) p' ->
  Forall wellFormed (Funcs u) /\ Forall wellFormed (Vars u).
Proof.
  unfold Parse. intros H.
  destruct (parseLoop prec fuel (mkUnit (name (lex p)) [] []) p)
    as [[u0 e0] q | v q |] eqn:Hloop; try discriminate.
  - injection H as -> -> ->. apply parseLoop_success in Hloop.
    destruct Hloop as (nodes & fuel' & pm & Hdecls & ->).
    apply parsedDecls_wellFormed in Hdecls.
    rewrite fold_addDecl. simpl.
    split; apply Forall_forall; intros n Hin; apply filter_In in Hin;
      destruct Hin as [Hin _];
      exact (proj1 (Forall_forall _ _) Hdecls n Hin).
  - destruct v as [[etok emsg | lexErr] | rmsg]; discriminate.
Qed.

(** ** Switch statements *)

Lemma switchLoop_cases_constant (fuel : nat) (callStmt : M (result Node))
    (cond : Node) (dflt : list Node) (cases : list CaseNode)
    (p p' : Parser) (n : Node) :
  Forall (fun c => IsConstant (caseCond c) = true) cases ->
  switchLoop fuel callStmt cond dflt cases p = Ret (Ok n) p' ->
  exists dflt' cases',
    n = SwitchNode cond dflt' cases'
    /\ Forall (fun c => IsConstant (caseCond c) = true) cases'.
Proof.
  revert dflt cases p.
  induction fuel as [| fuel IH]; intros dflt cases p Hall H; [discriminate |].
  simpl in H. invert_run H. destruct a as [tk |].
  - invert_ret Hk. exists dflt, cases. split; [reflexivity | exact Hall].
  - invert_run Hk. destruct a as [tk |].
    + invert_run Hk0. invert_run Hk. invert_run Hk0.
      apply IH in Hk; [exact Hk |].
      apply Forall_app. split; [exact Hall |].
      constructor; [| constructor].
      simpl. eapply parseConstant_builds_constant. exact Hm1.
    + invert_run Hk0. destruct a as [tk |].
      * invert_run Hk. destruct dflt as [| d dflt].
        -- invert_run Hk0. apply IH in Hk; assumption.
        -- invert_run Hk0. discriminate.
      * invert_run Hk. discriminate.
Qed.

(** Every case of the node a successful [parseSwitch] returns has a constant
    for its condition. *)
Lemma parseSwitch_cases_constant (prec : string -> Z) (fuel : nat)
    (p p' : Parser) (n : Node) :
  parseSwitch prec fuel p = Ret (Ok n) p' ->
  exists cond dflt cases,
    n = SwitchNode cond dflt cases
    /\ Forall (fun c => IsConstant (caseCond c) = true) cases.
Proof.
  unfold parseSwitch, parseSwitch_. intros H.
  invert_run H. invert_run Hk. invert_run Hk0. invert_run Hk. invert_run Hk0.
  apply switchLoop_cases_constant in Hk; [| constructor].
  destruct Hk as (dflt & cases & -> & Hall).
  exists a1, dflt, cases. split; [reflexivity | exact Hall].
Qed.

(** C7, what the code does: a [default] label with no statement under it
    leaves [DefaultCase] nil, so the next [default] label is taken for the
    first one: [f() switch (x) { default: default: break; }] parses without
    an error.  With a statement under the first label the second one is the
    syntax error.  The invariant on the cases holds: their conditions are
    constants, in the node [parseSwitch] returns and in every [switch] of a
    unit [Parse] returns. *)
Theorem second_default_after_empty_default_accepted
    (prec : string -> Z) (fuel : nat) :
  (exists p',
      parseInput prec (8 + fuel) "name"
        (lexed [ident "f"; openParen; closeParen;
                keyword "switch"; openParen; ident "x"; closeParen; openBrace;
                keyword "default"; colon;
                keyword "default"; colon; keyword "break"; semicolon;
                closeBrace])
      = Ret (mkUnit "name"
               [FunctionNode "f" []
                  (SwitchNode (IdentNode "x") [BreakNode] [])] [],
             None) p')
  /\ (exists p',
         parseInput prec (8 + fuel) "name"
           (lexed [ident "f"; openParen; closeParen;
                   keyword "switch"; openParen; ident "x"; closeParen;
                   openBrace;
                   keyword "default"; colon; semicolon;
                   keyword "default"; colon; keyword "break"; semicolon;
                   closeBrace])
         = Ret (mkUnit "name" [] [],
                Some (NewParseError (keyword "break")
                        "Multiple 'default' cases")) p')
  /\ (forall (p p' : Parser) (cond : Node) (dflt : list Node)
        (cases : list CaseNode),
         parseSwitch prec fuel p = Ret (Ok (SwitchNode cond dflt cases)) p' ->
         Forall (fun c => IsConstant (caseCond c) = true) cases)
  /\ (forall (p p' : Parser) (u : TranslationUnit),
         Parse prec fuel p = Ret (u, None) p' ->
         Forall wellFormed (Funcs u) /\ Forall wellFormed (Vars u)).
Proof.
  split; [| split; [| split]].
  - eexists. vm_compute. reflexivity.
  - eexists. vm_compute. reflexivity.
  - intros p p' cond dflt cases H.
    apply parseSwitch_cases_constant in H.
    destruct H as (c & d & cs & Heq & Hall).
    injection Heq as -> -> ->. exact Hall.
  - intros p p' u. apply Parse_cases_constant.
Qed.

(** [switch (x) { case 1: break; default: return 0; }]: one case, with the
    constant [1] for its condition. *)
Lemma second_default_after_empty_default_accepted_witness :
  Forall (fun c => IsConstant (caseCond c) = true)
    [mkCase (IntegerNode 1) [BreakNode]].
Proof.
  exact (proj1 (proj2 (proj2 (second_default_after_empty_default_accepted
                                specPrecedence 6)))
           (parserOn (lexed switchWithDefault))
           (mkParser (mkLexer "name" []) (switchWithDefault ++ [eof]) 16)
           (IdentNode "x") [ReturnNode (IntegerNode 0)]
           [mkCase (IntegerNode 1) [BreakNode]] eq_refl).
Defined.

(** ** Lex errors *)

(** C9, what the code does: [NewParser] reads the first token, and panics
    with its lex error when it has one.  [Parse] turns a panic that carries a
    lex error into the result [(TranslationUnit{}, lexErr)], so a lex error
    met by [accept] comes back that way ([v ; ?]).  But a lex error on the
    token after a constant is dropped by [expectOneOf]: the index is left
    past the buffer, the next look at the current token is a run-time panic,
    and [Parse] lets that one through ([v 1 ?]). *)
Theorem lex_error_after_constant_escapes
    (prec : string -> Z) (fuel : nat) (nm : string) :
  (forall (t : Token) (rest : list LexResult),
      NewParser nm ((t, None) :: rest)
      = Ret tt (mkParser (mkLexer nm rest) [t] 0))
  /\ (forall (t : Token) (e : LexError) (rest : list LexResult),
         NewParser nm ((t, Some e) :: rest)
         = Panic (ErrorPanic (LexErr e)) (mkParser (mkLexer nm rest) [] 0))
  /\ (forall (p q : Parser) (e : LexError),
         parseLoop prec fuel (mkUnit (name (lex p)) [] []) p
         = Panic (ErrorPanic (LexErr e)) q ->
         Parse prec fuel p = Ret (emptyUnit, Some (LexErr e)) q)
  /\ (forall (p q : Parser) (msg : string),
         parseLoop prec fuel (mkUnit (name (lex p)) [] []) p
         = Panic (RuntimePanic msg) q ->
         Parse prec fuel p = Panic (RuntimePanic msg) q)
  /\ (forall msg : string,
         parseInput prec (2 + fuel) nm
           (lexed [ident "v"; semicolon] ++ [lexFailure msg])
         = Ret (emptyUnit,
                Some (LexErr (mkLexError (tok tkError msg) msg)))
             (mkParser (mkLexer nm []) [ident "v"; semicolon] 2))
  /\ (forall msg : string,
         parseInput prec (2 + fuel) nm
           (lexed [ident "v"; number "1"] ++ [lexFailure msg])
         = Panic (RuntimePanic "index out of range")
             (mkParser (mkLexer nm []) [ident "v"; number "1"] 2)).
Proof.
  split; [| split; [| split; [| split; [| split]]]].
  - intros t rest. reflexivity.
  - intros t e rest. reflexivity.
  - intros p q e H. unfold Parse. rewrite H. reflexivity.
  - intros p q msg H. unfold Parse. rewrite H. reflexivity.
  - intros msg. reflexivity.
  - intros msg. reflexivity.
Qed.

Lemma lex_error_after_constant_escapes_witness :
  Parse specPrecedence 2
    (parserOn (lexed [ident "v"; semicolon] ++ [lexFailure "bad"]))
  = Ret (emptyUnit, Some (LexErr (mkLexError (tok tkError "bad") "bad")))
      (mkParser (mkLexer "name" []) [ident "v"; semicolon] 2)
  /\ Parse specPrecedence 2
       (parserOn (lexed [ident "v"; number "1"] ++ [lexFailure "bad"]))
     = Panic (RuntimePanic "index out of range")
         (mkParser (mkLexer "name" []) [ident "v"; number "1"] 2).
Proof.
  split.
  - exact (proj1 (proj2 (proj2 (lex_error_after_constant_escapes
                                  specPrecedence 2 "name")))
             (parserOn (lexed [ident "v"; semicolon] ++ [lexFailure "bad"]))
             _ _ eq_refl).
  - exact (proj1 (proj2 (proj2 (proj2 (lex_error_after_constant_escapes
                                         specPrecedence 2 "name"))))
             (parserOn (lexed [ident "v"; number "1"] ++ [lexFailure "bad"]))
             _ _ eq_refl).
Defined.

(** ** Invariants, boundaries and scenarios of the specification *)

(** In every unit [Parse] returns without an error, the conditions of the
    cases of every [switch] are constants. *)
Theorem switch_conditions_constant_in_units
    (prec : string -> Z) (fuel : nat) (p p' : Parser) (u : TranslationUnit) :
  Parse prec fuel p = Ret (u, None) p' ->
  Forall wellFormed (Funcs u) /\ Forall wellFormed (Vars u).
Proof. apply Parse_cases_constant. Qed.

Lemma switch_conditions_constant_in_units_witness :
  Forall wellFormed
    [FunctionNode "f" []
       (SwitchNode (IdentNode "x") [ReturnNode (IntegerNode 0)]
          [mkCase (IntegerNode 1) [BreakNode]])]
  /\ Forall wellFormed [].
Proof.
  exact (switch_conditions_constant_in_units specPrecedence 8
           (parserOn (lexed ([ident "f"; openParen; closeParen]
                             ++ switchWithDefault)))
           (mkParser (mkLexer "name" [])
              ([ident "f"; openParen; closeParen] ++ switchWithDefault
               ++ [eof; eof]) 20)
           (mkUnit "name"
              [FunctionNode "f" []
                 (SwitchNode (IdentNode "x") [ReturnNode (IntegerNode 0)]
                    [mkCase (IntegerNode 1) [BreakNode]])] [])
           eq_refl).
Defined.

(** Empty input parses to a unit with no functions and no globals. *)
Theorem empty_input_empty_unit (prec : string -> Z) (fuel : nat)
    (nm : string) :
  parseInput prec (S fuel) nm []
  = Ret (mkUnit nm [] [], None) (mkParser (mkLexer nm []) [eof; eof] 1).
Proof. reflexivity. Qed.

Lemma variableListLoop_not_empty (fuel : nat) (id : Token)
    (vars : list string) :
  builds (fun names => names <> []) (variableListLoop fuel id vars).
Proof.
  revert id vars. induction fuel as [| fuel IH]; intros id vars p p' l H;
    [discriminate |].
  simpl in H. invert_step H as c q0 Hc. destruct c as [tk |].
  - invert_step H as id' q1 Hid'. eapply IH. exact H.
  - invert_ret H. destruct vars; discriminate.
Qed.

Lemma varDeclLoop_not_empty (fuel : nat) (vars : list VarDecl) :
  builds (fun l => l <> []) (varDeclLoop fuel vars).
Proof.
  revert vars. induction fuel as [| fuel IH]; intros vars p p' l H;
    [discriminate |].
  simpl in H. invert_step H as id q0 Hid. invert_step H as ob q1 Hob.
  invert_step H as vars' q2 Hvars'. invert_step H as c q3 Hc.
  destruct c as [tk |].
  - eapply IH. exact H.
  - invert_ret H. destruct ob as [tk |].
    + invert_step Hvars' as num q4 Hnum. destruct (Atoi (value num)).
      * invert_step Hvars' as cb q5 Hcb. invert_ret Hvars'.
        destruct vars; discriminate.
      * invert_step Hvars' as cur q5 Hcur. discriminate.
    + invert_ret Hvars'. destruct vars; discriminate.
Qed.

Lemma vecValuesLoop_not_empty (fuel : nat) (values : list Node) :
  builds (fun l => l <> []) (vecValuesLoop fuel values).
Proof.
  revert values. induction fuel as [| fuel IH]; intros values p p' l H;
    [discriminate |].
  simpl in H. invert_step H as constant q0 Hconstant.
  invert_step H as c q1 Hc. destruct c as [tk |].
  - eapply IH. exact H.
  - invert_ret H. destruct values; discriminate.
Qed.

(** An [auto] declaration, an [extrn] declaration and a vector initializer
    that parse hold at least one entry; [extrn ;] and [auto ;] are syntax
    errors. *)
Theorem declarations_hold_an_entry (fuel : nat) :
  (forall p p' vars,
      parseVarDecl fuel p = Ret (Ok (VarDeclNode vars)) p' -> vars <> [])
  /\ (forall p p' names,
         parseExternVarDecl fuel p = Ret (Ok (ExternVarDeclNode names)) p' ->
         names <> [])
  /\ (forall p p' nm size values,
         parseExternalVariableInit fuel p
         = Ret (Ok (ExternVecInitNode nm size values)) p' ->
         values <> [])
  /\ parseExternVarDecl fuel (parserOn (lexed [keyword "extrn"; semicolon]))
     = Ret (Err (NewParseError eof
                   "expected at least 1 variable in extrn declaration"))
         (mkParser (mkLexer "name" []) [keyword "extrn"; semicolon; eof] 2)
  /\ parseVarDecl (S fuel) (parserOn (lexed [keyword "auto"; semicolon]))
     = Ret (Err (NewParseError semicolon (Expected tkIdent)))
         (mkParser (mkLexer "name" []) [keyword "auto"; semicolon] 1).
Proof.
  split; [| split; [| split; [| split]]].
  - intros p p' vars H. unfold parseVarDecl in H.
    invert_step H as kw q0 Hkw. invert_step H as l q1 Hl.
    invert_step H as sc q2 Hsc. apply varDeclLoop_not_empty in Hl.
    destruct (Z.of_nat (List.length l) <=? 0).
    + invert_step H as cur q3 Hcur. discriminate.
    + apply ret_inv in H. destruct H as [Heq _]. injection Heq as <-.
      exact Hl.
  - intros p p' names H. unfold parseExternVarDecl in H.
    invert_step H as kw q0 Hkw. invert_step H as l q1 Hl.
    invert_step H as sc q2 Hsc.
    destruct (Z.of_nat (List.length l) <=? 0) eqn:Hlen.
    + invert_step H as cur q3 Hcur. discriminate.
    + apply ret_inv in H. destruct H as [Heq _]. injection Heq as <-.
      intros ->. discriminate Hlen.
  - intros p p' nm size values H. unfold parseExternalVariableInit in H.
    invert_step H as id q0 Hid. invert_step H as ob q1 Hob.
    destruct ob as [tk |].
    + invert_step H as sz q2 Hsz. invert_step H as cb q3 Hcb.
      destruct (Atoi (value sz)).
      * invert_step H as l q4 Hl. invert_step H as sc q5 Hsc.
        apply vecValuesLoop_not_empty in Hl.
        apply ret_inv in H. destruct H as [Heq _]. injection Heq as _ _ <-.
        exact Hl.
      * invert_step H as cur q4 Hcur. discriminate.
    + invert_step H as c q2 Hc.
      destruct c as [constant | e]; invert_step H as sc q3 Hsc;
        apply ret_inv in H; destruct H as [Heq _]; discriminate.
  - reflexivity.
  - reflexivity.
Qed.

(** A lone [;] is the [Null] statement: [{ ; }] is the block [[Null]]. *)
Theorem lone_semicolon_is_null
    (prec : string -> Z) (n : nat) (p p1 : Parser) (cur : Token) :
  token p = Ret cur p ->
  kind cur = tkSemicolon ->
  nextTokenOrPanic p = Ret tt p1 ->
  parseStatement prec (S n) p = Ret (Ok NullNode) p1.
Proof.
  intros Hc Hkind Hnext.
  rewrite (parseStatement_falls_to_simple prec n p cur Hc)
    by (rewrite Hkind; reflexivity).
  unfold simpleStatement.
  rewrite (bind_Ret _ _ _ _ _ (accept_match _ _ _ _ Hc Hkind Hnext)).
  reflexivity.
Qed.

Lemma lone_semicolon_is_null_witness :
  parseStatement specPrecedence 1 (parserOn (lexed [semicolon; closeBrace]))
  = Ret (Ok NullNode)
      (mkParser (mkLexer "name" []) [semicolon; closeBrace] 1).
Proof.
  exact (lone_semicolon_is_null specPrecedence 0
           (parserOn (lexed [semicolon; closeBrace])) _ semicolon
           eq_refl eq_refl eq_refl).
Defined.

(** The vector initializer [tab [3] 1, 'a', "hi";]. *)
Theorem vector_initializer_scenario (prec : string -> Z) (fuel : nat) :
  parseInput prec (4 + fuel) "name" (lexed vectorInit)
  = Ret (mkUnit "name" []
           [ExternVecInitNode "tab" 3
              [IntegerNode 1; CharacterNode "a"; StringNode "hi"]],
         None)
      (mkParser (mkLexer "name" []) (vectorInit ++ [eof; eof]) 11).
Proof. vm_compute. reflexivity. Qed.

(** [switch (x) { case 1: break; default: return 0; }]: one case and the
    default. *)
Theorem switch_with_default_scenario (prec : string -> Z) (fuel : nat) :
  parseStatement prec (7 + fuel) (parserOn (lexed switchWithDefault))
  = Ret (Ok (SwitchNode (IdentNode "x") [ReturnNode (IntegerNode 0)]
               [mkCase (IntegerNode 1) [BreakNode]]))
      (mkParser (mkLexer "name" []) (switchWithDefault ++ [eof]) 16).
Proof. vm_compute. reflexivity. Qed.

(** The function with control flow, for every precedence table that does
    not put [=] above [+]. *)
Theorem function_with_loop_scenario (prec : string -> Z) (fuel : nat) :
  (prec "=" >? prec "+") = false ->
  parseInput prec (8 + fuel) "name" (lexed mainWithLoop)
  = Ret (mkUnit "name"
           [FunctionNode "main" []
              (BlockNode
                 [VarDeclNode [mkVarDecl "i" false 0];
                  StatementNode
                    (BinaryNode (IdentNode "i") "=" (IntegerNode 0));
                  WhileNode
                    (BinaryNode (IdentNode "i") "<" (IntegerNode 10))
                    (BlockNode
                       [StatementNode
                          (BinaryNode (IdentNode "i") "="
                             (BinaryNode (IdentNode "i") "+"
                                (IntegerNode 1)))]);
                  ReturnNode (IdentNode "i")])] [],
         None)
      (mkParser (mkLexer "name" []) (mainWithLoop ++ [eof; eof]) 30).
Proof.
  intros Hprec. cbv -[resolve Z.gtb]. unfold resolve. rewrite Hprec.
  reflexivity.
Qed.

Lemma function_with_loop_scenario_witness :
  exists p',
    parseInput specPrecedence 8 "name" (lexed mainWithLoop)
    = Ret (mkUnit "name"
             [FunctionNode "main" []
                (BlockNode
                   [VarDeclNode [mkVarDecl "i" false 0];
                    StatementNode
                      (BinaryNode (IdentNode "i") "=" (IntegerNode 0));
                    WhileNode
                      (BinaryNode (IdentNode "i") "<" (IntegerNode 10))
                      (BlockNode
                         [StatementNode
                            (BinaryNode (IdentNode "i") "="
                               (BinaryNode (IdentNode "i") "+"
                                  (IntegerNode 1)))]);
                    ReturnNode (IdentNode "i")])] [],
           None) p'.
Proof.
  eexists. exact (function_with_loop_scenario specPrecedence 0 eq_refl).
Defined.

(** ** Bookkeeping of the buffer *)

Lemma realTokens_app (l l' : list Token) :
  realTokens (l ++ l') = (realTokens l + realTokens l')%nat.
Proof. unfold realTokens. rewrite filter_app, length_app. reflexivity. Qed.

Lemma realTokens_skipn_le (n : nat) (l : list Token) :
  (realTokens (skipn n l) <= realTokens l)%nat.
Proof.
  revert l. induction n as [| n IH]; intros l; [simpl; lia |].
  destruct l as [| t l]; [simpl; lia |].
  simpl skipn. specialize (IH l). unfold realTokens in *. simpl.
  destruct (negb (isEof t)); simpl; lia.
Qed.

Lemma realTokens_skipn_mono (i i' : nat) (l : list Token) :
  (i <= i')%nat -> (realTokens (skipn i' l) <= realTokens (skipn i l))%nat.
Proof.
  intros H. replace i' with ((i' - i) + i)%nat by lia.
  rewrite <- skipn_skipn. apply realTokens_skipn_le.
Qed.

Lemma skipn_current (n : nat) (l : list Token) (t : Token) :
  nth_error l n = Some t -> skipn n l = t :: skipn (S n) l.
Proof.
  revert l. induction n as [| n IH]; intros [| x l] H; try discriminate.
  - injection H as ->. reflexivity.
  - simpl in H. simpl. apply IH. exact H.
Qed.

Lemma extends_refl (p : Parser) : extends p p.
Proof.
  exists [], []. rewrite app_nil_r. simpl. repeat split; reflexivity || lia.
Qed.

Lemma extends_same (p p' : Parser) :
  tokens p' = tokens p -> lex p' = lex p -> extends p p'.
Proof.
  intros Ht Hl. exists [], []. rewrite Ht, Hl, app_nil_r. simpl.
  repeat split; reflexivity || lia.
Qed.

Lemma extends_trans (p q r : Parser) :
  extends p q -> extends q r -> extends p r.
Proof.
  intros (m1 & u1 & Ht1 & Hp1 & Hn1 & Hc1) (m2 & u2 & Ht2 & Hp2 & Hn2 & Hc2).
  exists (m1 ++ m2), (u1 ++ u2).
  rewrite Ht2, Ht1, Hp1, Hp2, Hn2, Hn1, !app_assoc, realTokens_app, length_app.
  repeat split; reflexivity || lia.
Qed.

Lemma after_refl (p : Parser) : after p p.
Proof. split; [apply extends_refl | split; [lia | tauto]]. Qed.

Lemma after_trans (p q r : Parser) : after p q -> after q r -> after p r.
Proof.
  intros (He1 & Hi1 & Hs1) (He2 & Hi2 & Hs2).
  split; [eapply extends_trans; eassumption | split; [lia | tauto]].
Qed.

(** Nothing comes back: what is left to read never grows. *)
Lemma after_unread (p p' : Parser) : after p p' -> (unread p' <= unread p)%nat.
Proof.
  intros ((more & used & Ht & Hp & _ & Hc) & Hi & _). unfold unread.
  rewrite Ht, Hp, length_app, skipn_app, realTokens_app.
  assert (H1 : (realTokens (skipn (Z.to_nat (tokIdx p')) (tokens p))
                <= realTokens (skipn (Z.to_nat (tokIdx p)) (tokens p)))%nat)
    by (apply realTokens_skipn_mono; lia).
  pose proof (realTokens_skipn_le
                (Z.to_nat (tokIdx p') - List.length (tokens p)) more) as H2.
  lia.
Qed.

Lemma after_rewind (p0 p : Parser) (i : Z) :
  after p0 p -> tokIdx p0 <= i <= tokIdx p -> after p0 (rewindTo p i).
Proof.
  intros (He & Hi & Hs) Hrange. split; [exact He |]. split; [simpl; lia |].
  intros H0. specialize (Hs H0). destruct H0 as [[H0 _] _].
  destruct Hs as [[_ Hlen] Herr]. split; [| exact Herr].
  unfold inRange. simpl. lia.
Qed.

(** ** The primitives, step by step *)

Lemma tokenAt_Ret (i : Z) (p q : Parser) (t : Token) :
  tokenAt i p = Ret t q ->
  0 <= i < Z.of_nat (List.length (tokens p))
  /\ nth_error (tokens p) (Z.to_nat i) = Some t.
Proof.
  unfold tokenAt.
  destruct ((0 <=? i) && (i <? Z.of_nat (List.length (tokens p)))) eqn:Hb;
    [| discriminate].
  apply andb_prop in Hb. destruct Hb as [H1 H2].
  apply Z.leb_le in H1. apply Z.ltb_lt in H2.
  destruct (nth_error (tokens p) (Z.to_nat i)); [| discriminate].
  intros H. injection H as -> _. split; [lia | reflexivity].
Qed.

Lemma tokenAt_inRange (i : Z) (p : Parser) :
  0 <= i < Z.of_nat (List.length (tokens p)) ->
  exists t, tokenAt i p = Ret t p.
Proof.
  intros H. unfold tokenAt.
  replace ((0 <=? i) && (i <? Z.of_nat (List.length (tokens p)))) with true
    by (symmetry; apply andb_true_intro; split;
        [apply Z.leb_le | apply Z.ltb_lt]; lia).
  destruct (nth_error (tokens p) (Z.to_nat i)) as [t |] eqn:Hn.
  - exists t. reflexivity.
  - apply nth_error_None in Hn. lia.
Qed.

Lemma tokenAt_outcome (i : Z) (p : Parser) :
  match tokenAt i p with
  | Ret t p' => p' = p /\ 0 <= i < Z.of_nat (List.length (tokens p))
  | Panic _ p' => p' = p /\ ~ 0 <= i < Z.of_nat (List.length (tokens p))
  | OutOfFuel => False
  end.
Proof.
  destruct (tokenAt i p) as [t q | v q |] eqn:H.
  - pose proof (tokenAt_same _ _ _ _ H) as ->.
    apply tokenAt_Ret in H. tauto.
  - split.
    + unfold tokenAt in H.
      destruct (_ && _); [destruct (nth_error _ _) |]; congruence.
    + intros Hr. destruct (tokenAt_inRange i p Hr) as [t Ht]. congruence.
  - unfold tokenAt in H.
    destruct (_ && _); [destruct (nth_error _ _) |]; discriminate.
Qed.

Lemma token_outcome (p : Parser) :
  match token p with
  | Ret t p' => p' = p /\ inRange p
  | Panic _ p' => p' = p /\ ~ inRange p
  | OutOfFuel => False
  end.
Proof. exact (tokenAt_outcome (tokIdx p) p). Qed.

(** [nextToken] on a parser that has a current token returns, one token
    on; taking a token that is no [Eof] leaves less to read. *)
Lemma nextToken_consumes (p : Parser) (cur : Token) :
  token p = Ret cur p ->
  exists r p',
    nextToken p = Ret r p'
    /\ after p p'
    /\ tokIdx p' = tokIdx p + 1
    /\ (isEof cur = false -> (unread p' < unread p)%nat)
    /\ (errorFree (lex p) -> exists t, r = Ok t).
Proof.
  intros Hc. apply tokenAt_Ret in Hc. destruct Hc as [Hrange Hnth].
  assert (Hreal : isEof cur = false ->
                  realTokens (skipn (Z.to_nat (tokIdx p)) (tokens p))
                  = S (realTokens (skipn (S (Z.to_nat (tokIdx p)))
                                     (tokens p)))).
  { intros Heof. rewrite (skipn_current _ _ _ Hnth). unfold realTokens.
    simpl. rewrite Heof. reflexivity. }
  unfold nextToken.
  destruct (tokIdx p + 1 <? Z.of_nat (List.length (tokens p))) eqn:Hlt.
  - apply Z.ltb_lt in Hlt.
    destruct (tokenAt_inRange (tokIdx p + 1)
                (mkParser (lex p) (tokens p) (tokIdx p + 1)))
      as [t Ht]; [simpl; lia |].
    unfold bind. rewrite Ht. eexists _, _. split; [reflexivity |].
    split; [split; [| split] | split; [| split]].
    + apply extends_same; reflexivity.
    + simpl. lia.
    + intros [_ He]. split; [unfold inRange; simpl; lia | exact He].
    + reflexivity.
    + intros Heof. specialize (Hreal Heof).
      unfold unread. cbn [tokIdx tokens lex].
      replace (Z.to_nat (tokIdx p + 1)) with (S (Z.to_nat (tokIdx p)))
        by lia.
      lia.
    + intros _. eexists. reflexivity.
  - apply Z.ltb_ge in Hlt.
    assert (Hlen : Z.to_nat (tokIdx p + 1) = List.length (tokens p)) by lia.
    assert (Hskip : forall more,
               skipn (Z.to_nat (tokIdx p + 1)) (tokens p ++ more) = more).
    { intros more. rewrite Hlen, skipn_app, skipn_all, Nat.sub_diag.
      reflexivity. }
    assert (Hlast : realTokens (skipn (S (Z.to_nat (tokIdx p))) (tokens p))
                    = 0%nat).
    { replace (S (Z.to_nat (tokIdx p))) with (List.length (tokens p))
        by lia.
      rewrite skipn_all. reflexivity. }
    unfold NextToken. destruct (pending (lex p)) as [| [t oe] rest] eqn:Hp.
    + eexists _, _. split; [reflexivity |].
      split; [split; [| split] | split; [| split]].
      * exists [tok tkEof ""], []. simpl. rewrite Hp.
        repeat split; reflexivity || (unfold realTokens; simpl; lia).
      * simpl. lia.
      * intros [_ He]. split; [| exact He].
        unfold inRange. simpl. rewrite length_app. simpl. lia.
      * reflexivity.
      * intros Heof. specialize (Hreal Heof).
        unfold unread. cbn [tokIdx tokens lex pending].
        rewrite Hskip, Hp, Hreal.
        change (realTokens [tok tkEof ""]) with 0%nat. simpl. lia.
      * intros _. eexists. reflexivity.
    + assert (Hbad : forall e, oe = Some e -> ~ errorFree (lex p)).
      { intros e -> He. unfold errorFree in He. rewrite Hp in He.
        inversion He as [| x l Hx Hl]. discriminate. }
      destruct oe as [e |].
      * eexists _, _. split; [reflexivity |].
        split; [split; [| split] | split; [| split]].
        -- exists [], [(t, Some e)]. simpl. rewrite Hp, app_nil_r.
           repeat split; reflexivity || (unfold realTokens; simpl; lia).
        -- simpl. lia.
        -- intros [_ He]. elim (Hbad e eq_refl He).
        -- reflexivity.
        -- intros Heof. specialize (Hreal Heof).
           unfold unread. cbn [tokIdx tokens lex pending].
           rewrite Hp, Hreal. rewrite <- (app_nil_r (tokens p)) at 1.
           rewrite Hskip. change (realTokens []) with 0%nat. simpl. lia.
        -- intros He. elim (Hbad e eq_refl He).
      * eexists _, _. split; [reflexivity |].
        split; [split; [| split] | split; [| split]].
        -- exists [t], [(t, None)]. simpl. rewrite Hp.
           repeat split; try reflexivity.
           unfold realTokens. simpl. destruct (negb (isEof t)); simpl; lia.
        -- simpl. lia.
        -- intros [_ He]. split.
           ++ unfold inRange. simpl. rewrite length_app. simpl. lia.
           ++ unfold errorFree in *. simpl. rewrite Hp in He.
              inversion He. assumption.
        -- reflexivity.
        -- intros Heof. specialize (Hreal Heof).
           unfold unread. cbn [tokIdx tokens lex pending].
           rewrite Hskip, Hp, Hreal.
           assert (realTokens [t] <= 1)%nat
             by (unfold realTokens; simpl;
                 destruct (negb (isEof t)); simpl; lia).
           simpl. lia.
        -- intros _. eexists. reflexivity.
Qed.

(** ** Reasoning on runs *)

Lemma runs_ret {A} (p0 p : Parser) (a : A) (Q : A -> Parser -> Prop) :
  after p0 p -> Q a p -> runs p0 (ret a) p Q.
Proof. intros Ha Hq. split; assumption. Qed.

Lemma runs_weaken {A} (p0 p : Parser) (m : M A)
    (Q Q' : A -> Parser -> Prop) :
  runs p0 m p Q ->
  (forall a p', after p0 p' -> Q a p' -> Q' a p') ->
  runs p0 m p Q'.
Proof.
  unfold runs. destruct (m p) as [a p' | v p' |]; [| tauto ..].
  intros [Ha Hq] H. split; [exact Ha | apply H; assumption].
Qed.

(** A run from [p], seen from an earlier [p0]. *)
Lemma runs_frame {A} (p0 p : Parser) (m : M A) (Q : A -> Parser -> Prop) :
  after p0 p ->
  runs p m p Q ->
  runs p0 m p (fun a p' => after p p' /\ Q a p').
Proof.
  unfold runs. intros H0. destruct (m p) as [a p' | v p' |]; [| | tauto].
  - intros [Ha Hq]. split; [eapply after_trans; eassumption | tauto].
  - intros [He Hs]. destruct H0 as (He0 & _ & Hs0).
    split; [eapply extends_trans; eassumption | tauto].
Qed.

Lemma runs_then {A B} (p0 p : Parser) (m : M A) (k : A -> M B)
    (Qm : A -> Parser -> Prop) (Q : B -> Parser -> Prop) :
  after p0 p ->
  runs p m p Qm ->
  (forall a p1, after p0 p1 -> after p p1 -> Qm a p1 -> runs p0 (k a) p1 Q) ->
  runs p0 (bind m k) p Q.
Proof.
  intros H0 Hm Hk. apply (runs_frame p0 p m Qm H0) in Hm.
  unfold runs, bind in *. destruct (m p) as [a p1 | v p1 |]; [| tauto ..].
  destruct Hm as (Ha0 & Ha & Hq). exact (Hk a p1 Ha0 Ha Hq).
Qed.

Lemma runs_thenOk {A B} (p0 p : Parser) (m : M (result A))
    (k : A -> M (result B)) (Qm : result A -> Parser -> Prop)
    (Q : result B -> Parser -> Prop) :
  after p0 p ->
  runs p m p Qm ->
  (forall e p1, after p0 p1 -> after p p1 -> Qm (Err e) p1 -> Q (Err e) p1) ->
  (forall a p1, after p0 p1 -> after p p1 -> Qm (Ok a) p1 ->
                runs p0 (k a) p1 Q) ->
  runs p0 (bindOk m k) p Q.
Proof.
  intros H0 Hm He Hk. unfold bindOk.
  apply (runs_then p0 p m _ Qm Q H0 Hm).
  intros [a | e] p1 Ha0 Ha Hq.
  - exact (Hk a p1 Ha0 Ha Hq).
  - apply runs_ret; [exact Ha0 | exact (He e p1 Ha0 Ha Hq)].
Qed.

(** ** The primitives as runs *)

Lemma token_runs (p : Parser) :
  runs p token p (fun cur p' => p' = p /\ token p = Ret cur p).
Proof.
  unfold runs. pose proof (token_outcome p) as H.
  destruct (token p) as [cur p' | v p' |] eqn:Ht; [| | exact H].
  - destruct H as [-> _]. split; [apply after_refl | tauto].
  - destruct H as [-> Hr]. split; [apply extends_refl |].
    intros [Hin _]. exact (Hr Hin).
Qed.

Lemma getIdx_runs (p : Parser) :
  runs p getIdx p (fun i p' => p' = p /\ i = tokIdx p).
Proof. split; [apply after_refl | tauto]. Qed.

Lemma nextTokenOrPanic_runs (p : Parser) (cur : Token) :
  token p = Ret cur p ->
  runs p nextTokenOrPanic p
    (fun _ p' => tokIdx p' = tokIdx p + 1
                 /\ (isEof cur = false -> (unread p' < unread p)%nat)).
Proof.
  intros Hc.
  destruct (nextToken_consumes p cur Hc) as (r & p' & Hn & Ha & Hi & Hu & Hok).
  unfold runs, nextTokenOrPanic, bind. rewrite Hn. destruct r as [t | e].
  - split; [exact Ha | tauto].
  - split; [apply Ha |]. intros [_ He]. destruct (Hok He) as [t Ht].
    discriminate.
Qed.

Lemma accept_runs (t : TokenType) (str : string) (p : Parser) :
  runs p (accept t str) p
    (fun r p' =>
       match r with
       | None => p' = p
       | Some cur =>
           token p = Ret cur p /\ kind cur = t
           /\ tokIdx p' = tokIdx p + 1
           /\ (t <> tkEof -> (unread p' < unread p)%nat)
       end).
Proof.
  unfold accept. apply (runs_then p p token _ _ _ (after_refl p) (token_runs p)).
  intros cur p1 _ _ [-> Hc].
  destruct (TokenType_eqb (kind cur) t) eqn:Hk;
    [| apply runs_ret; [apply after_refl | reflexivity]].
  apply TokenType_eqb_eq in Hk.
  destruct ((str =? "")%string || (str =? value cur)%string);
    [| apply runs_ret; [apply after_refl | reflexivity]].
  apply (runs_then p p nextTokenOrPanic _ _ _ (after_refl p)
           (nextTokenOrPanic_runs p cur Hc)).
  intros [] p1 Ha _ [Hi Hu]. apply runs_ret; [exact Ha |].
  repeat split; try assumption.
  intros Hne. apply Hu. unfold isEof. apply TokenType_eqb_neq. congruence.
Qed.

Lemma expect_runs (t : TokenType) (str : string) (p : Parser) :
  t <> tkEof ->
  runs p (expect t str) p
    (fun r p' =>
       match r with
       | Ok cur => token p = Ret cur p /\ kind cur = t /\ progress p r p'
       | Err _ => p' = p
       end).
Proof.
  intros Hne. unfold expect.
  apply (runs_then p p (accept t str) _ _ _ (after_refl p)
           (accept_runs t str p)).
  intros [cur |] p1 Ha _ H.
  - destruct H as (Hc & Hk & Hi & Hu). apply runs_ret; [exact Ha |].
    repeat split; try assumption; [lia | exact (Hu Hne)].
  - subst p1.
    apply (runs_then p p token _ _ _ (after_refl p) (token_runs p)).
    intros cur p1 _ _ [-> Hc].
    destruct (str =? "")%string; apply runs_ret;
      (apply after_refl || reflexivity).
Qed.

Lemma expectOneOf_runs (ts : list TokenType) (p : Parser) :
  ~ In tkEof ts ->
  runs p (expectOneOf ts) p
    (fun r p' =>
       match r with
       | Ok (ty, cur) => In ty ts /\ kind cur = ty /\ progress p r p'
       | Err _ => p' = p
       end).
Proof.
  intros Hne. unfold expectOneOf.
  apply (runs_then p p token _ _ _ (after_refl p) (token_runs p)).
  intros cur p1 _ _ [-> Hc].
  destruct (find (fun ty => TokenType_eqb (kind cur) ty) ts) as [ty |] eqn:Hf.
  - apply find_some in Hf. destruct Hf as [Hin Hk].
    apply TokenType_eqb_eq in Hk.
    destruct (nextToken_consumes p cur Hc)
      as (r & p' & Hn & Ha & Hi & Hu & _).
    unfold runs, bind. rewrite Hn. split; [exact Ha |].
    repeat split; try assumption; [lia |].
    apply Hu. unfold isEof. apply TokenType_eqb_neq. congruence.
  - apply (runs_then p p token _ _ _ (after_refl p) (token_runs p)).
    intros cur' p1 _ _ [-> _]. apply runs_ret; [apply after_refl | reflexivity].
Qed.

Lemma runs_orElse {A} (p0 p : Parser) (m k : M (result A))
    (Qm Q : result A -> Parser -> Prop) :
  after p0 p ->
  runs p m p Qm ->
  (forall a p1, after p0 p1 -> after p p1 -> Qm (Ok a) p1 -> Q (Ok a) p1) ->
  (forall p1, after p0 p1 -> after p p1 -> runs p0 k p1 Q) ->
  runs p0 (orElse m k) p Q.
Proof.
  intros H0 Hm Hok Hk. unfold orElse.
  apply (runs_then p0 p m _ Qm Q H0 Hm).
  intros [a | e] p1 Ha0 Ha Hq.
  - apply runs_ret; [exact Ha0 | exact (Hok a p1 Ha0 Ha Hq)].
  - exact (Hk p1 Ha0 Ha).
Qed.

Lemma nextToken_runs (p : Parser) (cur : Token) :
  token p = Ret cur p ->
  runs p nextToken p
    (fun _ p' => tokIdx p' = tokIdx p + 1
                 /\ (isEof cur = false -> (unread p' < unread p)%nat)).
Proof.
  intros Hc.
  destruct (nextToken_consumes p cur Hc) as (r & p' & Hn & Ha & Hi & Hu & _).
  unfold runs. rewrite Hn. split; [exact Ha | tauto].
Qed.

(** Collects what the facts [after a b] at hand say in numbers. *)
Ltac after_facts :=
  repeat match goal with
    | H : after ?a ?b |- _ =>
        lazymatch goal with
        | _ : (unread b <= unread a)%nat |- _ => fail
        | _ => pose proof (after_unread a b H);
               pose proof (proj1 (proj2 H))
        end
    end.

Ltac run_arith :=
  unfold progress, anyResult in *; after_facts;
  repeat match goal with
    | H : _ /\ _ |- _ => destruct H
    end;
  try exact I; try (split; lia); try lia.

(** ** Expressions run to an end *)

Lemma parseConstant_runs (p : Parser) :
  runs p parseConstant p (progress p).
Proof.
  unfold parseConstant.
  apply (runs_thenOk p p _ _ _ _ (after_refl p)
           (expectOneOf_runs [tkNumber; tkCharacter; tkString] p
              ltac:(simpl; intuition discriminate))).
  - intros; exact I.
  - intros [ty cur] p1 Ha _ (Hin & Hk & Hp).
    simpl in Hin.
    destruct Hin as [<- | [<- | [<- | []]]];
      try (apply runs_ret; [exact Ha | exact Hp]).
    destruct (Atoi (value cur)).
    + apply runs_ret; [exact Ha | exact Hp].
    + apply (runs_then p p1 token _ _ _ Ha (token_runs p1)).
      intros c p2 Ha2 _ _. apply runs_ret; [exact Ha2 | exact I].
Qed.

Lemma parseIdent_runs (p : Parser) : runs p parseIdent p (progress p).
Proof.
  unfold parseIdent.
  apply (runs_thenOk p p _ _ _ _ (after_refl p)
           (expect_runs tkIdent "" p ltac:(discriminate))).
  - intros; exact I.
  - intros tk p1 Ha _ (_ & _ & Hp). apply runs_ret; [exact Ha | exact Hp].
Qed.

Section ExpressionRuns.

Variable n : nat.
Variable callExpr : M (result Node).
Hypothesis callExpr_runs :
  forall p, (unread p < n)%nat -> runs p callExpr p (progress p).

Lemma parseParen_runs (p : Parser) :
  (unread p <= n)%nat -> runs p (parseParen_ callExpr) p (progress p).
Proof.
  intros Hn. unfold parseParen_.
  apply (runs_thenOk p p _ _ _ _ (after_refl p)
           (expect_runs tkOpenParen "" p ltac:(discriminate))).
  { intros; exact I. }
  intros tk p1 Ha1 _ (_ & _ & Hp1).
  apply (runs_thenOk p p1 _ _ _ _ Ha1
           (callExpr_runs p1 ltac:(run_arith))).
  { intros; exact I. }
  intros inner p2 Ha2 Ha12 Hp2.
  apply (runs_thenOk p p2 _ _ _ _ Ha2
           (expect_runs tkCloseParen "" p2 ltac:(discriminate))).
  { intros; exact I. }
  intros tk' p3 Ha3 Ha23 (_ & _ & Hp3).
  apply runs_ret; [exact Ha3 | run_arith].
Qed.

Lemma parseArgs_runs (fuel : nat) (args : list Node) (p0 p : Parser) :
  after p0 p ->
  (unread p < fuel)%nat -> (unread p < n)%nat ->
  runs p0 (parseArgs fuel callExpr args) p anyResult.
Proof.
  revert args p. induction fuel as [| fuel IH]; intros args p Ha Hf Hn;
    [lia |].
  simpl.
  apply (runs_thenOk p0 p _ _ _ _ Ha (callExpr_runs p Hn)).
  { intros; exact I. }
  intros arg p1 Ha1 Hap1 Hp1.
  apply (runs_then p0 p1 _ _ _ _ Ha1 (accept_runs tkComma "" p1)).
  intros [tk |] p2 Ha2 Ha12 H.
  - apply IH; [exact Ha2 | run_arith ..].
  - apply runs_ret; [exact Ha2 | exact I].
Qed.

Lemma parsePrimary_runs (p : Parser) :
  (unread p <= n)%nat -> runs p (parsePrimary_ n callExpr) p (progress p).
Proof.
  intros Hn. unfold parsePrimary_.
  apply (runs_thenOk p p _ _ (progress p) _ (after_refl p)).
  { apply (runs_orElse p p _ _ _ _ (after_refl p) (parseParen_runs p Hn)).
    { intros a p1 _ _ H. exact H. }
    intros p1 Ha1 _.
    apply (runs_orElse p p1 _ _ _ _ Ha1 (parseConstant_runs p1)).
    { intros a p2 Ha2 Ha12 H. run_arith. }
    intros p2 Ha2 _.
    apply (runs_orElse p p2 _ _ _ _ Ha2 (parseIdent_runs p2)).
    { intros a p3 Ha3 Ha23 H. run_arith. }
    intros p3 Ha3 _.
    apply (runs_then p p3 token _ _ _ Ha3 (token_runs p3)).
    intros c p4 Ha4 _ _. apply runs_ret; [exact Ha4 | exact I]. }
  { intros; exact I. }
  intros node p1 Ha1 _ Hp1.
  apply (runs_then p p1 _ _ _ _ Ha1 (accept_runs tkOpenBracket "" p1)).
  intros [tk |] p2 Ha2 Ha12 H.
  - destruct H as (_ & _ & _ & Hu). specialize (Hu ltac:(discriminate)).
    apply (runs_thenOk p p2 _ _ _ _ Ha2
             (callExpr_runs p2 ltac:(run_arith))).
    { intros; exact I. }
    intros index p3 Ha3 Ha23 Hp3.
    apply (runs_thenOk p p3 _ _ _ _ Ha3
             (expect_runs tkCloseBracket "" p3 ltac:(discriminate))).
    { intros; exact I. }
    intros tk' p4 Ha4 Ha34 _. apply runs_ret; [exact Ha4 | run_arith].
  - subst p2.
    apply (runs_then p p1 _ _ _ _ Ha1 (accept_runs tkOpenParen "" p1)).
    intros [tk |] p2 Ha2' Ha12' H.
    + destruct H as (_ & _ & _ & Hu). specialize (Hu ltac:(discriminate)).
      apply (runs_then p p2 token _ _ _ Ha2' (token_runs p2)).
      intros cur p3 Ha3 _ [-> _].
      apply (runs_thenOk p p2 _ _ anyResult _ Ha2').
      { destruct (negb (TokenType_eqb (kind cur) tkCloseParen)).
        - apply parseArgs_runs; [apply after_refl | run_arith ..].
        - apply runs_ret; [apply after_refl | exact I]. }
      { intros; exact I. }
      intros args p4 Ha4 Ha24 _.
      apply (runs_thenOk p p4 _ _ _ _ Ha4
               (expect_runs tkCloseParen "" p4 ltac:(discriminate))).
      { intros; exact I. }
      intros tk' p5 Ha5 Ha45 _. apply runs_ret; [exact Ha5 | run_arith].
    + subst p2. apply runs_ret; [exact Ha1 | exact Hp1].
Qed.

Lemma parseSubExpression_runs (p : Parser) :
  (unread p <= n)%nat ->
  runs p (parseSubExpression_ n callExpr) p (progress p).
Proof.
  intros Hn. unfold parseSubExpression_.
  apply (runs_then p p _ _ _ _ (after_refl p) (accept_runs tkOperator "" p)).
  intros o p1 Ha1 _ Ho.
  apply (runs_thenOk p p1 _ _ anyResult _ Ha1).
  { destruct o as [tk |].
    - destruct (isPrefixOp (value tk)).
      + apply runs_ret; [apply after_refl | exact I].
      + apply (runs_then p1 p1 token _ _ _ (after_refl p1) (token_runs p1)).
        intros c p2 Ha2 _ _. apply runs_ret; [exact Ha2 | exact I].
    - apply runs_ret; [apply after_refl | exact I]. }
  { intros; exact I. }
  intros oper p2 Ha2 Ha12 _.
  apply (runs_thenOk p p2 _ _ _ _ Ha2
           (parsePrimary_runs p2 ltac:(run_arith))).
  { intros; exact I. }
  intros expr p3 Ha3 Ha23 Hp3.
  apply (runs_then p p3 token _ _ _ Ha3 (token_runs p3)).
  intros cur p4 Ha4 _ [-> Hc].
  destruct (TokenType_eqb (kind cur) tkOperator && isPostfixOp (value cur)).
  - apply (runs_then p p3 _ _ _ _ Ha3 (nextToken_runs p3 cur Hc)).
    intros r p5 Ha5 Ha35 _. apply runs_ret; [exact Ha5 | run_arith].
  - apply runs_ret; [exact Ha3 | run_arith].
Qed.

End ExpressionRuns.

(** [parseExpression] comes to an end with fuel beyond what is left to
    read. *)
Lemma parseExpression_runs (prec : string -> Z) (n : nat) (p : Parser) :
  (unread p < n)%nat -> runs p (parseExpression prec n) p (progress p).
Proof.
  revert p. induction n as [| n IH]; intros p Hn; [lia |].
  simpl.
  apply (runs_thenOk p p _ _ _ _ (after_refl p)
           (parseSubExpression_runs n _ IH p ltac:(lia))).
  { intros; exact I. }
  intros node p1 Ha1 _ Hp1.
  apply (runs_then p p1 _ _ _ _ Ha1 (accept_runs tkOperator "" p1)).
  intros o p2 Ha2 Ha12 Ho.
  apply (runs_thenOk p p2 _ _ anyResult _ Ha2).
  { destruct o as [tk |].
    - destruct Ho as (_ & _ & _ & Hu). specialize (Hu ltac:(discriminate)).
      apply (runs_thenOk p2 p2 _ _ _ _ (after_refl p2)
               (IH p2 ltac:(run_arith))).
      { intros; exact I. }
      intros rhs p3 Ha3 _ _. apply runs_ret; [exact Ha3 | exact I].
    - apply runs_ret; [apply after_refl | exact I]. }
  { intros; exact I. }
  intros node1 p3 Ha3 Ha23 _.
  assert (Hlt : (unread p3 < unread p)%nat) by (destruct o; run_arith).
  apply (runs_then p p3 _ _ _ _ Ha3 (accept_runs tkTernary "" p3)).
  intros t p4 Ha4 Ha34 Ht. destruct t as [tk |].
  - apply (runs_thenOk p p4 _ _ _ _ Ha4 (IH p4 ltac:(run_arith))).
    { intros; exact I. }
    intros tb p5 Ha5 Ha45 _.
    apply (runs_thenOk p p5 _ _ _ _ Ha5
             (expect_runs tkColon "" p5 ltac:(discriminate))).
    { intros; exact I. }
    intros cl p6 Ha6 Ha56 _.
    apply (runs_thenOk p p6 _ _ _ _ Ha6 (IH p6 ltac:(run_arith))).
    { intros; exact I. }
    intros fb p7 Ha7 Ha67 _. apply runs_ret; [exact Ha7 | run_arith].
  - subst p4. apply runs_ret; [exact Ha3 | run_arith].
Qed.

(** ** Sequencing where the index may step back *)

Lemma runs_bind {A B} (p0 p : Parser) (m : M A) (k : A -> M B)
    (Qm : A -> Parser -> Prop) (Q : B -> Parser -> Prop) :
  runs p0 m p Qm ->
  (forall a p1, after p0 p1 -> Qm a p1 -> runs p0 (k a) p1 Q) ->
  runs p0 (bind m k) p Q.
Proof.
  intros Hm Hk. unfold runs, bind in *.
  destruct (m p) as [a p1 | v p1 |]; [| tauto ..].
  destruct Hm as [Ha Hq]. exact (Hk a p1 Ha Hq).
Qed.

Lemma setIdx_runs (p0 p : Parser) (i : Z) :
  after p0 p -> tokIdx p0 <= i <= tokIdx p ->
  runs p0 (setIdx i) p (fun _ p' => p' = rewindTo p i).
Proof.
  intros Ha Hi. split; [exact (after_rewind p0 p i Ha Hi) | reflexivity].
Qed.

Lemma stepBack_runs (p0 p : Parser) :
  after p0 p -> tokIdx p0 < tokIdx p ->
  runs p0 stepBack p (fun _ p' => p' = rewindTo p (tokIdx p - 1)).
Proof.
  intros Ha Hi.
  split; [apply (after_rewind p0 p _ Ha); lia | reflexivity].
Qed.

(** The token at the index of an earlier parser is still in the buffer. *)
Lemma tokenAt_runs (p0 p : Parser) :
  after p0 p -> runs p0 (tokenAt (tokIdx p0)) p (fun _ p' => p' = p).
Proof.
  intros Ha. unfold runs.
  pose proof (tokenAt_outcome (tokIdx p0) p) as H.
  destruct (tokenAt (tokIdx p0) p) as [t q | v q |]; [| | exact H].
  - destruct H as [-> _]. split; [exact Ha | reflexivity].
  - destruct H as [-> Hr]. split; [apply Ha |].
    intros [[Hlo Hhi] _]. apply Hr.
    destruct Ha as ((more & used & Ht & _) & _). rewrite Ht, length_app.
    lia.
Qed.

(** A run that makes progress from [p] makes progress from any parser
    [p] came after. *)
Lemma runs_progress_from {A} (p0 p : Parser) (m : M (result A)) :
  after p0 p -> runs p m p (progress p) -> runs p0 m p (progress p0).
Proof.
  intros Ha Hm. apply (runs_frame p0 p m _ Ha) in Hm.
  apply (runs_weaken _ _ _ _ _ Hm).
  intros [a | e] p' Ha' [Hpp' Hp]; [| exact I]. run_arith.
Qed.

(** Whatever runs from a parser that has made progress has made progress. *)
Lemma runs_progress_after {A} (p0 p : Parser) (m : M (result A))
    (Q : result A -> Parser -> Prop) :
  after p0 p -> tokIdx p0 < tokIdx p -> (unread p < unread p0)%nat ->
  runs p m p Q -> runs p0 m p (progress p0).
Proof.
  intros Ha Hi Hu Hm. apply (runs_frame p0 p m _ Ha) in Hm.
  apply (runs_weaken _ _ _ _ _ Hm).
  intros [a | e] p' Ha' [Hpp' _]; [| exact I]. run_arith.
Qed.

(** ** Declarations run to an end *)

Lemma variableListLoop_runs (fuel : nat) (id : Token) (vars : list string)
    (p0 p : Parser) :
  after p0 p -> (unread p < fuel)%nat ->
  runs p0 (variableListLoop fuel id vars) p anyResult.
Proof.
  revert id vars p. induction fuel as [| fuel IH]; intros id vars p Ha Hf;
    [lia |].
  simpl.
  apply (runs_then p0 p _ _ _ _ Ha (accept_runs tkComma "" p)).
  intros [tk |] p1 Ha1 Hap1 H.
  - destruct H as (_ & _ & _ & Hu). specialize (Hu ltac:(discriminate)).
    apply (runs_thenOk p0 p1 _ _ _ _ Ha1
             (expect_runs tkIdent "" p1 ltac:(discriminate))).
    { intros; exact I. }
    intros id' p2 Ha2 Ha12 _. apply IH; [exact Ha2 | run_arith].
  - apply runs_ret; [exact Ha1 | exact I].
Qed.

Lemma parseVariableList_runs (fuel : nat) (p0 p : Parser) :
  after p0 p -> (unread p <= fuel)%nat ->
  runs p0 (parseVariableList fuel) p anyResult.
Proof.
  intros Ha Hf. unfold parseVariableList.
  apply (runs_then p0 p _ _ _ _ Ha (accept_runs tkIdent "" p)).
  intros [id |] p1 Ha1 Hap1 H.
  - destruct H as (_ & _ & _ & Hu). specialize (Hu ltac:(discriminate)).
    apply variableListLoop_runs; [exact Ha1 | lia].
  - apply runs_ret; [exact Ha1 | exact I].
Qed.

Lemma parseExternVarDecl_runs (fuel : nat) (p : Parser) :
  (unread p <= fuel)%nat ->
  runs p (parseExternVarDecl fuel) p (progress p).
Proof.
  intros Hf. unfold parseExternVarDecl.
  apply (runs_thenOk p p _ _ _ _ (after_refl p)
           (expect_runs tkKeyword "extrn" p ltac:(discriminate))).
  { intros; exact I. }
  intros kw p1 Ha1 _ (_ & _ & Hp1).
  apply (runs_thenOk p p1 _ _ anyResult _ Ha1).
  { apply parseVariableList_runs; [apply after_refl | run_arith]. }
  { intros; exact I. }
  intros names p2 Ha2 Ha12 _.
  apply (runs_thenOk p p2 _ _ _ _ Ha2
           (expect_runs tkSemicolon "" p2 ltac:(discriminate))).
  { intros; exact I. }
  intros sc p3 Ha3 Ha23 _.
  destruct (Z.of_nat (List.length names) <=? 0).
  - apply (runs_then p p3 token _ _ _ Ha3 (token_runs p3)).
    intros c p4 Ha4 _ _. apply runs_ret; [exact Ha4 | exact I].
  - apply runs_ret; [exact Ha3 | run_arith].
Qed.

Lemma varDeclLoop_runs (fuel : nat) (vars : list VarDecl) (p0 p : Parser) :
  after p0 p -> (unread p < fuel)%nat ->
  runs p0 (varDeclLoop fuel vars) p anyResult.
Proof.
  revert vars p. induction fuel as [| fuel IH]; intros vars p Ha Hf; [lia |].
  simpl.
  apply (runs_thenOk p0 p _ _ _ _ Ha
           (expect_runs tkIdent "" p ltac:(discriminate))).
  { intros; exact I. }
  intros id p1 Ha1 Hap1 (_ & _ & Hp1).
  apply (runs_then p0 p1 _ _ _ _ Ha1 (accept_runs tkOpenBracket "" p1)).
  intros ob p2 Ha2 Ha12 _.
  apply (runs_thenOk p0 p2 _ _ anyResult _ Ha2).
  { destruct ob as [tk |].
    - apply (runs_thenOk p2 p2 _ _ _ _ (after_refl p2)
               (expect_runs tkNumber "" p2 ltac:(discriminate))).
      { intros; exact I. }
      intros num p3 Ha3 _ _.
      destruct (Atoi (value num)).
      + apply (runs_thenOk p2 p3 _ _ _ _ Ha3
                 (expect_runs tkCloseBracket "" p3 ltac:(discriminate))).
        { intros; exact I. }
        intros cb p4 Ha4 _ _. apply runs_ret; [exact Ha4 | exact I].
      + apply (runs_then p2 p3 token _ _ _ Ha3 (token_runs p3)).
        intros c p4 Ha4 _ _. apply runs_ret; [exact Ha4 | exact I].
    - apply runs_ret; [apply after_refl | exact I]. }
  { intros; exact I. }
  intros vars' p3 Ha3 Ha23 _.
  apply (runs_then p0 p3 _ _ _ _ Ha3 (accept_runs tkComma "" p3)).
  intros [tk |] p4 Ha4 Ha34 _.
  - apply IH; [exact Ha4 | run_arith].
  - apply runs_ret; [exact Ha4 | exact I].
Qed.

Lemma parseVarDecl_runs (fuel : nat) (p : Parser) :
  (unread p <= fuel)%nat -> runs p (parseVarDecl fuel) p (progress p).
Proof.
  intros Hf. unfold parseVarDecl.
  apply (runs_thenOk p p _ _ _ _ (after_refl p)
           (expect_runs tkKeyword "auto" p ltac:(discriminate))).
  { intros; exact I. }
  intros kw p1 Ha1 _ (_ & _ & Hp1).
  apply (runs_thenOk p p1 _ _ anyResult _ Ha1).
  { apply varDeclLoop_runs; [apply after_refl | run_arith]. }
  { intros; exact I. }
  intros vars p2 Ha2 Ha12 _.
  apply (runs_thenOk p p2 _ _ _ _ Ha2
           (expect_runs tkSemicolon "" p2 ltac:(discriminate))).
  { intros; exact I. }
  intros sc p3 Ha3 Ha23 _.
  destruct (Z.of_nat (List.length vars) <=? 0).
  - apply (runs_then p p3 token _ _ _ Ha3 (token_runs p3)).
    intros c p4 Ha4 _ _. apply runs_ret; [exact Ha4 | exact I].
  - apply runs_ret; [exact Ha3 | run_arith].
Qed.

Lemma vecValuesLoop_runs (fuel : nat) (values : list Node) (p0 p : Parser) :
  after p0 p -> (unread p < fuel)%nat ->
  runs p0 (vecValuesLoop fuel values) p anyResult.
Proof.
  revert values p. induction fuel as [| fuel IH]; intros values p Ha Hf;
    [lia |].
  simpl.
  apply (runs_thenOk p0 p _ _ _ _ Ha (parseConstant_runs p)).
  { intros; exact I. }
  intros c p1 Ha1 Hap1 Hp1.
  apply (runs_then p0 p1 _ _ _ _ Ha1 (accept_runs tkComma "" p1)).
  intros [tk |] p2 Ha2 Ha12 _.
  - apply IH; [exact Ha2 | run_arith].
  - apply runs_ret; [exact Ha2 | exact I].
Qed.

Lemma parseExternalVariableInit_runs (fuel : nat) (p : Parser) :
  (unread p <= fuel)%nat ->
  runs p (parseExternalVariableInit fuel) p (progress p).
Proof.
  intros Hf. unfold parseExternalVariableInit.
  apply (runs_thenOk p p _ _ _ _ (after_refl p)
           (expect_runs tkIdent "" p ltac:(discriminate))).
  { intros; exact I. }
  intros id p1 Ha1 _ (_ & _ & Hp1).
  apply (runs_then p p1 _ _ _ _ Ha1 (accept_runs tkOpenBracket "" p1)).
  intros [tk |] p2 Ha2 Ha12 _.
  - apply (runs_thenOk p p2 _ _ _ _ Ha2
             (expect_runs tkNumber "" p2 ltac:(discriminate))).
    { intros; exact I. }
    intros size p3 Ha3 Ha23 _.
    apply (runs_thenOk p p3 _ _ _ _ Ha3
             (expect_runs tkCloseBracket "" p3 ltac:(discriminate))).
    { intros; exact I. }
    intros cb p4 Ha4 Ha34 _.
    destruct (Atoi (value size)).
    + apply (runs_thenOk p p4 _ _ anyResult _ Ha4).
      { apply vecValuesLoop_runs; [apply after_refl | run_arith]. }
      { intros; exact I. }
      intros values p5 Ha5 Ha45 _.
      apply (runs_thenOk p p5 _ _ _ _ Ha5
               (expect_runs tkSemicolon "" p5 ltac:(discriminate))).
      { intros; exact I. }
      intros sc p6 Ha6 Ha56 _. apply runs_ret; [exact Ha6 | run_arith].
    + apply (runs_then p p4 token _ _ _ Ha4 (token_runs p4)).
      intros c p5 Ha5 _ _. apply runs_ret; [exact Ha5 | exact I].
  - apply (runs_then p p2 _ _ _ _ Ha2 (parseConstant_runs p2)).
    intros [c | e] p3 Ha3 Ha23 _;
      (apply (runs_thenOk p p3 _ _ _ _ Ha3
                (expect_runs tkSemicolon "" p3 ltac:(discriminate)));
       [ intros; exact I
       | intros sc p4 Ha4 Ha34 _; apply runs_ret; [exact Ha4 | run_arith] ]).
Qed.

(** ** Statements run to an end *)

Lemma attempt_runs (p : Parser) (m k : M (result Node)) :
  runs p m p (progress p) ->
  (forall p1, after p p1 -> tokIdx p1 = tokIdx p ->
              runs p1 k p1 (progress p1)) ->
  runs p (attempt (tokIdx p) m k) p (progress p).
Proof.
  intros Hm Hk. unfold attempt.
  apply (runs_then p p _ _ _ _ (after_refl p) Hm).
  intros r p1 Ha1 _ Hp1.
  apply (runs_then p p1 _ _ _ _ Ha1 (getIdx_runs p1)).
  intros idx p2 _ _ [-> ->].
  destruct r as [node | e].
  - apply runs_ret; [exact Ha1 | exact Hp1].
  - destruct (tokIdx p1 =? tokIdx p) eqn:Hi; simpl.
    + apply Z.eqb_eq in Hi.
      exact (runs_progress_from p p1 k Ha1 (Hk p1 Ha1 Hi)).
    + apply runs_ret; [exact Ha1 | exact I].
Qed.

Section StatementRuns.

Variable prec : string -> Z.
Variable n : nat.
Variable callStmt : M (result Node).
Hypothesis callStmt_runs :
  forall p, (unread p + 2 <= n)%nat -> runs p callStmt p (progress p).

Lemma blockLoop_runs (fuel : nat) (nodes : list Node) (p0 p : Parser) :
  after p0 p -> (unread p < fuel)%nat -> (unread p + 2 <= n)%nat ->
  runs p0 (blockLoop fuel callStmt nodes) p anyResult.
Proof.
  revert nodes p. induction fuel as [| fuel IH]; intros nodes p Ha Hf Hn;
    [lia |].
  simpl.
  apply (runs_then p0 p token _ _ _ Ha (token_runs p)).
  intros cur p1 _ _ [-> _].
  destruct (negb (TokenType_eqb (kind cur) tkCloseBrace)).
  - apply (runs_thenOk p0 p _ _ _ _ Ha (callStmt_runs p Hn)).
    { intros; exact I. }
    intros stmt p1 Ha1 Hap1 Hp1. apply IH; [exact Ha1 | run_arith ..].
  - apply runs_ret; [exact Ha | exact I].
Qed.

Lemma parseBlock_runs (p : Parser) :
  (unread p + 1 <= n)%nat ->
  runs p (parseBlock_ n callStmt) p (progress p).
Proof.
  intros Hn. unfold parseBlock_.
  apply (runs_thenOk p p _ _ _ _ (after_refl p)
           (expect_runs tkOpenBrace "" p ltac:(discriminate))).
  { intros; exact I. }
  intros ob p1 Ha1 _ (_ & _ & Hp1).
  apply (runs_thenOk p p1 _ _ anyResult _ Ha1).
  { apply blockLoop_runs; [apply after_refl | run_arith ..]. }
  { intros; exact I. }
  intros nodes p2 Ha2 Ha12 _.
  apply (runs_thenOk p p2 _ _ _ _ Ha2
           (expect_runs tkCloseBrace "" p2 ltac:(discriminate))).
  { intros; exact I. }
  intros cb p3 Ha3 Ha23 _. apply runs_ret; [exact Ha3 | run_arith].
Qed.

Lemma parseIf_runs (p : Parser) :
  (unread p + 1 <= n)%nat ->
  runs p (parseIf_ prec n callStmt) p (progress p).
Proof.
  intros Hn. unfold parseIf_.
  apply (runs_thenOk p p _ _ _ _ (after_refl p)
           (expect_runs tkKeyword "if" p ltac:(discriminate))).
  { intros; exact I. }
  intros kw p1 Ha1 _ (_ & _ & Hp1).
  apply (runs_thenOk p p1 _ _ _ _ Ha1
           (expect_runs tkOpenParen "" p1 ltac:(discriminate))).
  { intros; exact I. }
  intros op p2 Ha2 Ha12 _.
  apply (runs_thenOk p p2 _ _ _ _ Ha2
           (parseExpression_runs prec n p2 ltac:(run_arith))).
  { intros; exact I. }
  intros cond p3 Ha3 Ha23 _.
  apply (runs_thenOk p p3 _ _ _ _ Ha3
           (expect_runs tkCloseParen "" p3 ltac:(discriminate))).
  { intros; exact I. }
  intros cp p4 Ha4 Ha34 _.
  apply (runs_thenOk p p4 _ _ _ _ Ha4 (callStmt_runs p4 ltac:(run_arith))).
  { intros; exact I. }
  intros trueBody p5 Ha5 Ha45 _.
  apply (runs_then p p5 _ _ _ _ Ha5 (accept_runs tkKeyword "else" p5)).
  intros [tk |] p6 Ha6 Ha56 _.
  - apply (runs_thenOk p p6 _ _ _ _ Ha6
             (callStmt_runs p6 ltac:(run_arith))).
    { intros; exact I. }
    intros els p7 Ha7 Ha67 _. apply runs_ret; [exact Ha7 | run_arith].
  - apply runs_ret; [exact Ha6 | run_arith].
Qed.

Lemma parseWhile_runs (p : Parser) :
  (unread p + 1 <= n)%nat ->
  runs p (parseWhile_ prec n callStmt) p (progress p).
Proof.
  intros Hn. unfold parseWhile_.
  apply (runs_thenOk p p _ _ _ _ (after_refl p)
           (expect_runs tkKeyword "while" p ltac:(discriminate))).
  { intros; exact I. }
  intros kw p1 Ha1 _ (_ & _ & Hp1).
  apply (runs_thenOk p p1 _ _ _ _ Ha1
           (expect_runs tkOpenParen "" p1 ltac:(discriminate))).
  { intros; exact I. }
  intros op p2 Ha2 Ha12 _.
  apply (runs_thenOk p p2 _ _ _ _ Ha2
           (parseExpression_runs prec n p2 ltac:(run_arith))).
  { intros; exact I. }
  intros cond p3 Ha3 Ha23 _.
  apply (runs_thenOk p p3 _ _ _ _ Ha3
           (expect_runs tkCloseParen "" p3 ltac:(discriminate))).
  { intros; exact I. }
  intros cp p4 Ha4 Ha34 _.
  apply (runs_thenOk p p4 _ _ _ _ Ha4 (callStmt_runs p4 ltac:(run_arith))).
  { intros; exact I. }
  intros body p5 Ha5 Ha45 _. apply runs_ret; [exact Ha5 | run_arith].
Qed.

(** A label or brace that ends a case body is put back. *)
Lemma putBack_runs {A} (p0 p p1 : Parser) (a : A) (tk : Token)
    (t : TokenType) :
  after p0 p -> after p0 p1 ->
  token p = Ret tk p /\ kind tk = t /\ tokIdx p1 = tokIdx p + 1
  /\ (t <> tkEof -> (unread p1 < unread p)%nat) ->
  runs p0 (stepBack ;;; ret a) p1 anyResult.
Proof.
  intros Ha Ha1 (_ & _ & Hi & _).
  assert (H0 : tokIdx p0 <= tokIdx p) by apply Ha.
  apply (runs_bind p0 p1 _ _ _ _ (stepBack_runs p0 p1 Ha1 ltac:(lia))).
  intros [] p2 Ha2 _. apply runs_ret; [exact Ha2 | exact I].
Qed.

Lemma caseBody_runs (fuel : nat) (stmts : list Node) (p0 p : Parser) :
  after p0 p -> (unread p < fuel)%nat -> (unread p + 2 <= n)%nat ->
  runs p0 (caseBody fuel callStmt stmts) p anyResult.
Proof.
  revert stmts p. induction fuel as [| fuel IH]; intros stmts p Ha Hf Hn;
    [lia |].
  simpl.
  apply (runs_then p0 p _ _ _ _ Ha (accept_runs tkKeyword "case" p)).
  intros [tk |] p1 Ha1 Hap1 H; [exact (putBack_runs p0 p p1 _ tk _ Ha Ha1 H) |].
  subst p1. clear Ha1 Hap1.
  apply (runs_then p0 p _ _ _ _ Ha (accept_runs tkKeyword "default" p)).
  intros [tk |] p1 Ha1 Hap1 H; [exact (putBack_runs p0 p p1 _ tk _ Ha Ha1 H) |].
  subst p1. clear Ha1 Hap1.
  apply (runs_then p0 p _ _ _ _ Ha (accept_runs tkCloseBrace "" p)).
  intros [tk |] p1 Ha1 Hap1 H; [exact (putBack_runs p0 p p1 _ tk _ Ha Ha1 H) |].
  subst p1. clear Ha1 Hap1.
  apply (runs_thenOk p0 p _ _ _ _ Ha (callStmt_runs p Hn)).
  { intros; exact I. }
  intros stmt p1 Ha1' Hap1' Hp1. apply IH; [exact Ha1' | run_arith ..].
Qed.

Lemma switchLoop_runs (fuel : nat) (cond : Node) (defaultCase : list Node)
    (cases : list CaseNode) (p0 p : Parser) :
  after p0 p -> (unread p < fuel)%nat -> (unread p + 2 <= n)%nat ->
  runs p0 (switchLoop fuel callStmt cond defaultCase cases) p anyResult.
Proof.
  revert defaultCase cases p.
  induction fuel as [| fuel IH]; intros defaultCase cases p Ha Hf Hn; [lia |].
  simpl.
  apply (runs_then p0 p _ _ _ _ Ha (accept_runs tkCloseBrace "" p)).
  intros [tk |] p1 Ha1 Hap1 H; [apply runs_ret; [exact Ha1 | exact I] |].
  subst p1.
  apply (runs_then p0 p _ _ _ _ Ha (accept_runs tkKeyword "case" p)).
  intros [tk |] p1 Ha1' Hap1' H.
  - destruct H as (_ & _ & _ & Hu). specialize (Hu ltac:(discriminate)).
    apply (runs_thenOk p0 p1 _ _ _ _ Ha1' (parseConstant_runs p1)).
    { intros; exact I. }
    intros c p2 Ha2 Ha12 _.
    apply (runs_thenOk p0 p2 _ _ _ _ Ha2
             (expect_runs tkColon "" p2 ltac:(discriminate))).
    { intros; exact I. }
    intros cl p3 Ha3 Ha23 _.
    apply (runs_thenOk p0 p3 _ _ anyResult _ Ha3).
    { apply caseBody_runs; [apply after_refl | run_arith ..]. }
    { intros; exact I. }
    intros stmts p4 Ha4 Ha34 _. apply IH; [exact Ha4 | run_arith ..].
  - subst p1.
    apply (runs_then p0 p _ _ _ _ Ha (accept_runs tkKeyword "default" p)).
    intros [tk |] p1 Ha1'' Hap1'' H.
    + destruct H as (_ & _ & _ & Hu). specialize (Hu ltac:(discriminate)).
      apply (runs_thenOk p0 p1 _ _ _ _ Ha1''
               (expect_runs tkColon "" p1 ltac:(discriminate))).
      { intros; exact I. }
      intros cl p2 Ha2 Ha12 _.
      destruct defaultCase as [| d ds].
      * apply (runs_thenOk p0 p2 _ _ anyResult _ Ha2).
        { apply caseBody_runs; [apply after_refl | run_arith ..]. }
        { intros; exact I. }
        intros stmts p3 Ha3 Ha23 _. apply IH; [exact Ha3 | run_arith ..].
      * apply (runs_then p0 p2 token _ _ _ Ha2 (token_runs p2)).
        intros c p3 Ha3 _ _. apply runs_ret; [exact Ha3 | exact I].
    + subst p1.
      apply (runs_then p0 p token _ _ _ Ha (token_runs p)).
      intros c p3 Ha3 _ _. apply runs_ret; [exact Ha3 | exact I].
Qed.

Lemma parseSwitch_runs (p : Parser) :
  (unread p + 1 <= n)%nat ->
  runs p (parseSwitch_ prec n callStmt) p (progress p).
Proof.
  intros Hn. unfold parseSwitch_.
  apply (runs_thenOk p p _ _ _ _ (after_refl p)
           (expect_runs tkKeyword "switch" p ltac:(discriminate))).
  { intros; exact I. }
  intros kw p1 Ha1 _ (_ & _ & Hp1).
  apply (runs_thenOk p p1 _ _ _ _ Ha1
           (expect_runs tkOpenParen "" p1 ltac:(discriminate))).
  { intros; exact I. }
  intros op p2 Ha2 Ha12 _.
  apply (runs_thenOk p p2 _ _ _ _ Ha2
           (parseExpression_runs prec n p2 ltac:(run_arith))).
  { intros; exact I. }
  intros cond p3 Ha3 Ha23 _.
  apply (runs_thenOk p p3 _ _ _ _ Ha3
           (expect_runs tkCloseParen "" p3 ltac:(discriminate))).
  { intros; exact I. }
  intros cp p4 Ha4 Ha34 _.
  apply (runs_thenOk p p4 _ _ _ _ Ha4
           (expect_runs tkOpenBrace "" p4 ltac:(discriminate))).
  { intros; exact I. }
  intros ob p5 Ha5 Ha45 (_ & _ & Hp5).
  apply (runs_progress_after p p5 _ anyResult Ha5);
    [run_arith | run_arith |].
  apply switchLoop_runs; [apply after_refl | run_arith ..].
Qed.

End StatementRuns.

Lemma exprStatement_runs (prec : string -> Z) (n : nat) (p : Parser) :
  (unread p < n)%nat ->
  runs p (exprStatement prec n (tokIdx p)) p (progress p).
Proof.
  intros Hn. unfold exprStatement.
  apply (runs_then p p _ _ _ _ (after_refl p)
           (parseExpression_runs prec n p Hn)).
  intros r p1 Ha1 _ Hp1.
  apply (runs_then p p1 _ _ _ _ Ha1 (getIdx_runs p1)).
  intros idx p2 _ _ [-> ->].
  destruct r as [node | e].
  - apply (runs_thenOk p p1 _ _ _ _ Ha1
             (expect_runs tkSemicolon "" p1 ltac:(discriminate))).
    { intros; exact I. }
    intros sc p2 Ha2 Ha12 _. apply runs_ret; [exact Ha2 | run_arith].
  - destruct (negb (tokIdx p1 =? tokIdx p)).
    + apply runs_ret; [exact Ha1 | exact I].
    + apply (runs_bind p p1 _ _ _ _ (tokenAt_runs p p1 Ha1)).
      intros cur p2 Ha2 _. apply runs_ret; [exact Ha2 | exact I].
Qed.

Lemma identStatement_runs (prec : string -> Z) (n : nat) (p : Parser) :
  (unread p < n)%nat ->
  runs p (identStatement prec n (tokIdx p)) p (progress p).
Proof.
  intros Hn. unfold identStatement.
  apply (runs_then p p _ _ _ _ (after_refl p) (accept_runs tkIdent "" p)).
  intros [tk |] p1 Ha1 _ H.
  - destruct H as (_ & _ & Hi & Hu). specialize (Hu ltac:(discriminate)).
    apply (runs_then p p1 _ _ _ _ Ha1 (accept_runs tkColon "" p1)).
    intros [cl |] p2 Ha2 Ha12 H2; [apply runs_ret; [exact Ha2 | run_arith] |].
    subst p2.
    apply (runs_then p p1 _ _ _ _ Ha1 (accept_runs tkSemicolon "" p1)).
    intros [sc |] p2 Ha2' Ha12' H2;
      [apply runs_ret; [exact Ha2' | run_arith] |].
    subst p2.
    apply (runs_bind p p1 _ _ _ _
             (setIdx_runs p p1 (tokIdx p) Ha1 ltac:(lia))).
    intros [] q Haq ->.
    change (tokIdx p) with (tokIdx (rewindTo p1 (tokIdx p))) at 1.
    apply (runs_progress_from p _ _ Haq).
    apply exprStatement_runs. run_arith.
  - subst p1. apply exprStatement_runs. exact Hn.
Qed.

Lemma simpleStatement_runs (prec : string -> Z) (n : nat) (p : Parser) :
  (unread p < n)%nat ->
  runs p (simpleStatement prec n (tokIdx p)) p (progress p).
Proof.
  intros Hn. unfold simpleStatement.
  apply (runs_then p p _ _ _ _ (after_refl p) (accept_runs tkSemicolon "" p)).
  intros [tk |] p1 Ha1 _ H.
  { destruct H as (_ & _ & Hi & Hu). specialize (Hu ltac:(discriminate)).
    apply runs_ret; [exact Ha1 | run_arith]. }
  subst p1. clear Ha1.
  apply (runs_then p p _ _ _ _ (after_refl p)
           (accept_runs tkKeyword "break" p)).
  intros [tk |] p1 Ha1 _ H.
  { destruct H as (_ & _ & Hi & Hu). specialize (Hu ltac:(discriminate)).
    apply (runs_thenOk p p1 _ _ _ _ Ha1
             (expect_runs tkSemicolon "" p1 ltac:(discriminate))).
    { intros; exact I. }
    intros sc p2 Ha2 Ha12 _. apply runs_ret; [exact Ha2 | run_arith]. }
  subst p1. clear Ha1.
  apply (runs_then p p _ _ _ _ (after_refl p)
           (accept_runs tkKeyword "return" p)).
  intros [tk |] p1 Ha1 _ H.
  { destruct H as (_ & _ & Hi & Hu). specialize (Hu ltac:(discriminate)).
    apply (runs_then p p1 _ _ _ _ Ha1 (accept_runs tkSemicolon "" p1)).
    intros [sc |] p2 Ha2 Ha12 H2; [apply runs_ret; [exact Ha2 | run_arith] |].
    subst p2.
    apply (runs_thenOk p p1 _ _ _ _ Ha1
             (parseExpression_runs prec n p1 ltac:(run_arith))).
    { intros; exact I. }
    intros node p2 Ha2' Ha12' _.
    apply (runs_thenOk p p2 _ _ _ _ Ha2'
             (expect_runs tkSemicolon "" p2 ltac:(discriminate))).
    { intros; exact I. }
    intros sc p3 Ha3 Ha23 _. apply runs_ret; [exact Ha3 | run_arith]. }
  subst p1. clear Ha1.
  apply (runs_then p p _ _ _ _ (after_refl p)
           (accept_runs tkKeyword "goto" p)).
  intros [tk |] p1 Ha1 _ H.
  { destruct H as (_ & _ & Hi & Hu). specialize (Hu ltac:(discriminate)).
    apply (runs_thenOk p p1 _ _ _ _ Ha1
             (expect_runs tkIdent "" p1 ltac:(discriminate))).
    { intros; exact I. }
    intros lbl p2 Ha2 Ha12 _.
    apply (runs_thenOk p p2 _ _ _ _ Ha2
             (expect_runs tkSemicolon "" p2 ltac:(discriminate))).
    { intros; exact I. }
    intros sc p3 Ha3 Ha23 _. apply runs_ret; [exact Ha3 | run_arith]. }
  subst p1. apply identStatement_runs. exact Hn.
Qed.

(** [parseStatement] comes to an end with fuel two beyond what is left to
    read, and a statement it returns has consumed a token. *)
Lemma parseStatement_runs (prec : string -> Z) (fuel : nat) (p : Parser) :
  (unread p + 2 <= fuel)%nat ->
  runs p (parseStatement prec fuel) p (progress p).
Proof.
  revert p. induction fuel as [| n IH]; intros p Hf; [lia |].
  simpl.
  apply (runs_then p p _ _ _ _ (after_refl p) (getIdx_runs p)).
  intros pos p0 _ _ [-> ->].
  apply attempt_runs;
    [apply (parseIf_runs prec n _ IH); lia |].
  intros p1 Ha1 <-. pose proof (after_unread _ _ Ha1).
  apply attempt_runs;
    [apply (parseBlock_runs n _ IH); lia |].
  intros p2 Ha2 <-. pose proof (after_unread _ _ Ha2).
  apply attempt_runs; [apply parseVarDecl_runs; lia |].
  intros p3 Ha3 <-. pose proof (after_unread _ _ Ha3).
  apply attempt_runs; [apply parseExternVarDecl_runs; lia |].
  intros p4 Ha4 <-. pose proof (after_unread _ _ Ha4).
  apply attempt_runs;
    [apply (parseWhile_runs prec n _ IH); lia |].
  intros p5 Ha5 <-. pose proof (after_unread _ _ Ha5).
  apply attempt_runs;
    [apply (parseSwitch_runs prec n _ IH); lia |].
  intros p6 Ha6 <-. pose proof (after_unread _ _ Ha6).
  apply simpleStatement_runs. lia.
Qed.

(** ** The top level runs to an end *)

Lemma parseFuncDeclaration_runs (prec : string -> Z) (fuel : nat)
    (p : Parser) :
  (unread p <= fuel)%nat ->
  runs p (parseFuncDeclaration prec fuel) p (progress p).
Proof.
  intros Hf. unfold parseFuncDeclaration.
  apply (runs_thenOk p p _ _ _ _ (after_refl p)
           (expect_runs tkIdent "" p ltac:(discriminate))).
  { intros; exact I. }
  intros id p1 Ha1 _ (_ & _ & Hp1).
  apply (runs_thenOk p p1 _ _ _ _ Ha1
           (expect_runs tkOpenParen "" p1 ltac:(discriminate))).
  { intros; exact I. }
  intros op p2 Ha2 Ha12 (_ & _ & Hp2).
  apply (runs_thenOk p p2 _ _ anyResult _ Ha2).
  { apply parseVariableList_runs; [apply after_refl | run_arith]. }
  { intros; exact I. }
  intros params p3 Ha3 Ha23 _.
  apply (runs_thenOk p p3 _ _ _ _ Ha3
           (expect_runs tkCloseParen "" p3 ltac:(discriminate))).
  { intros; exact I. }
  intros cp p4 Ha4 Ha34 (_ & _ & Hp4).
  apply (runs_thenOk p p4 _ _ _ _ Ha4
           (parseStatement_runs prec fuel p4 ltac:(run_arith))).
  { intros; exact I. }
  intros stmt p5 Ha5 Ha45 _. apply runs_ret; [exact Ha5 | run_arith].
Qed.

Lemma functionAlternative_runs (prec : string -> Z) (fuel : nat)
    (p : Parser) :
  (unread p <= fuel)%nat ->
  runs p (functionAlternative prec fuel (tokIdx p)) p (progress p).
Proof.
  intros Hf. unfold functionAlternative.
  apply (runs_then p p _ _ _ _ (after_refl p)
           (parseFuncDeclaration_runs prec fuel p Hf)).
  intros r p1 Ha1 _ Hp1.
  apply (runs_then p p1 _ _ _ _ Ha1 (getIdx_runs p1)).
  intros idx p2 _ _ [-> ->].
  destruct r as [node | e].
  - apply runs_ret; [exact Ha1 | exact Hp1].
  - destruct (negb (tokIdx p1 =? tokIdx p)).
    + apply runs_ret; [exact Ha1 | exact I].
    + apply (runs_then p p1 token _ _ _ Ha1 (token_runs p1)).
      intros c p2 Ha2 _ _. apply runs_ret; [exact Ha2 | exact I].
Qed.

(** [parseTopLevel] comes to an end with fuel for what is left to read, and
    a declaration it returns has consumed a token. *)
Lemma parseTopLevel_runs (prec : string -> Z) (fuel : nat) (p : Parser) :
  (unread p <= fuel)%nat ->
  runs p (parseTopLevel prec fuel) p (progress p).
Proof.
  intros Hf. unfold parseTopLevel.
  apply (runs_then p p _ _ _ _ (after_refl p) (getIdx_runs p)).
  intros pos p0 _ _ [-> ->].
  apply (runs_then p p _ _ _ _ (after_refl p)
           (parseExternalVariableInit_runs fuel p Hf)).
  intros r p1 Ha1 _ Hp1.
  apply (runs_then p p1 _ _ _ _ Ha1 (getIdx_runs p1)).
  intros idx p2 _ _ [-> ->].
  destruct r as [node | e].
  - apply runs_ret; [exact Ha1 | exact Hp1].
  - destruct (tokIdx p1 =? tokIdx p + 1) eqn:Hi.
    + apply Z.eqb_eq in Hi.
      apply (runs_bind p p1 _ _ _ _
               (setIdx_runs p p1 (tokIdx p) Ha1 ltac:(lia))).
      intros [] q Haq ->.
      change (tokIdx p) with (tokIdx (rewindTo p1 (tokIdx p))) at 1.
      apply (runs_progress_from p _ _ Haq).
      apply functionAlternative_runs. run_arith.
    + apply runs_ret; [exact Ha1 | exact I].
Qed.

Lemma parseLoop_runs (prec : string -> Z) (fuel : nat)
    (unit : TranslationUnit) (p0 p : Parser) :
  after p0 p -> (unread p < fuel)%nat ->
  runs p0 (parseLoop prec fuel unit) p anyResult.
Proof.
  revert unit p. induction fuel as [| n IH]; intros unit p Ha Hf; [lia |].
  simpl.
  apply (runs_then p0 p _ _ _ _ Ha (accept_runs tkEof "" p)).
  intros [tk |] p1 Ha1 Hap1 H; [apply runs_ret; [exact Ha1 | exact I] |].
  subst p1.
  apply (runs_then p0 p _ _ _ _ Ha
           (parseTopLevel_runs prec n p ltac:(lia))).
  intros [node | e] p2 Ha2 Ha12 Hp2;
    [| apply runs_ret; [exact Ha2 | exact I]].
  assert (Hnext : forall u, runs p0 (parseLoop prec n u) p2 anyResult).
  { intros u. apply IH; [exact Ha2 | run_arith]. }
  assert (Hbad : forall msg : Message,
             runs p0 (cur <- token ;;
                      ret (unit, Some (NewParseError cur msg))) p2 anyResult).
  { intros msg. apply (runs_then p0 p2 token _ _ _ Ha2 (token_runs p2)).
    intros c p3 Ha3 _ _. apply runs_ret; [exact Ha3 | exact I]. }
  destruct node; first [apply Hnext | apply Hbad].
Qed.

(** ** What the runs say of a parser with a current token *)

Lemma runs_sound {A} (p : Parser) (m : M (result A)) :
  sound p -> runs p m p (progress p) ->
  exists r p',
    m p = Ret r p'
    /\ extends p p' /\ tokIdx p <= tokIdx p' /\ sound p'
    /\ (forall a, r = Ok a ->
                  tokIdx p < tokIdx p' /\ (unread p' < unread p)%nat).
Proof.
  intros Hs Hr. unfold runs in Hr.
  destruct (m p) as [r p' | v p' |]; [| tauto ..].
  destruct Hr as [(He & Hi & Hs') Hp]. exists r, p'.
  split; [reflexivity |]. split; [exact He |]. split; [exact Hi |].
  split; [exact (Hs' Hs) |]. intros a ->. exact Hp.
Qed.

Lemma NewParser_outcome (nm : string) (input : list LexResult) :
  match NewParser nm input with
  | Ret _ p =>
      inRange p /\ (unread p <= List.length input)%nat
      /\ (errorFree (NewLexer nm input) -> errorFree (lex p))
  | Panic _ _ => ~ errorFree (NewLexer nm input)
  | OutOfFuel => False
  end.
Proof.
  unfold NewParser, nextTokenOrPanic, nextToken, bind, ret, panic, NextToken.
  destruct input as [| [t [e |]] rest]; cbn.
  - split; [unfold inRange; cbn; lia |]. split; [reflexivity | tauto].
  - intros H. unfold errorFree in H. cbn in H. inversion H. discriminate.
  - split; [unfold inRange; cbn; lia |]. split.
    + unfold unread, realTokens. cbn.
      destruct (negb (isEof t)); cbn; lia.
    + unfold errorFree. cbn. intros H. inversion H. assumption.
Qed.

(** With fuel beyond the length of the input, NewParser followed by
    Parse always comes to an end, whatever the lexer delivers; and it ends
    in a panic only when the lexer has delivered a lex error: on an input
    without lex errors Parse returns, a unit or a unit and an error. *)
Theorem parseInput_ends (prec : string -> Z) (nm : string)
    (input : list LexResult) (extra : nat) :
  let outcome := parseInput prec (S (List.length input) + extra) nm input in
  outcome <> OutOfFuel
  /\ (errorFree (NewLexer nm input) ->
      exists unit err p', outcome = Ret (unit, err) p').
Proof.
  cbv zeta. unfold parseInput.
  pose proof (NewParser_outcome nm input) as Hnew.
  destruct (NewParser nm input) as [[] p | v p |];
    [| split; [discriminate | tauto] | contradiction].
  destruct Hnew as (Hin & Hu & He).
  pose proof (parseLoop_runs prec (S (List.length input) + extra)
                (mkUnit (name (lex p)) [] []) p p (after_refl p)
                ltac:(lia)) as Hrun.
  unfold runs in Hrun. unfold Parse.
  destruct (parseLoop prec _ _ p) as [[u e] p' | v p' |];
    [| | contradiction].
  - split; [discriminate |]. intros _. exists u, e, p'. reflexivity.
  - destruct Hrun as [_ Hns]. split.
    + destruct v as [[e | e] | msg]; discriminate.
    + intros Hfree. exfalso. apply Hns. split; [exact Hin | exact (He Hfree)].
Qed.

(** On a parser with a current token and a lexer without errors,
    parseExpression with fuel beyond what is left to read returns, without
    a panic; the buffer has only been appended to, the index is not behind
    where it was, and an expression returned has consumed a token. *)
Theorem parseExpression_consumes (prec : string -> Z) (fuel : nat)
    (p : Parser) :
  sound p -> (unread p < fuel)%nat ->
  exists r p',
    parseExpression prec fuel p = Ret r p'
    /\ extends p p' /\ tokIdx p <= tokIdx p' /\ sound p'
    /\ (forall node, r = Ok node ->
                     tokIdx p < tokIdx p' /\ (unread p' < unread p)%nat).
Proof.
  intros Hs Hf. exact (runs_sound p _ Hs (parseExpression_runs prec fuel p Hf)).
Qed.

Lemma parseExpression_consumes_witness :
  exists r p',
    parseExpression specPrecedence 2 (parserOn (lexed [ident "x"])) = Ret r p'
    /\ tokIdx (parserOn (lexed [ident "x"])) <= tokIdx p' /\ sound p'.
Proof.
  destruct (parseExpression_consumes specPrecedence 2
              (parserOn (lexed [ident "x"])))
    as (r & p' & Hrun & _ & Hi & Hs & _).
  - split; [split; [discriminate | reflexivity] | constructor].
  - vm_compute. lia.
  - exists r, p'. split; [exact Hrun | split; [exact Hi | exact Hs]].
Defined.


(** On a parser with a current token and a lexer without errors,
    parseStatement with fuel two beyond what is left to read returns,
    without a panic; whatever it tried and rewound, the index is not behind
    where it was, and a statement returned has consumed a token. *)
Theorem parseStatement_consumes (prec : string -> Z) (fuel : nat)
    (p : Parser) :
  sound p -> (unread p + 2 <= fuel)%nat ->
  exists r p',
    parseStatement prec fuel p = Ret r p'
    /\ extends p p' /\ tokIdx p <= tokIdx p' /\ sound p'
    /\ (forall node, r = Ok node ->
                     tokIdx p < tokIdx p' /\ (unread p' < unread p)%nat).
Proof.
  intros Hs Hf. exact (runs_sound p _ Hs (parseStatement_runs prec fuel p Hf)).
Qed.

Lemma parseStatement_consumes_witness :
  exists r p',
    parseStatement specPrecedence 4
      (parserOn (lexed [ident "x"; semicolon])) = Ret r p'
    /\ tokIdx (parserOn (lexed [ident "x"; semicolon])) <= tokIdx p'
    /\ sound p'.
Proof.
  destruct (parseStatement_consumes specPrecedence 4
              (parserOn (lexed [ident "x"; semicolon])))
    as (r & p' & Hrun & _ & Hi & Hs & _).
  - split; [split; [discriminate | reflexivity] | repeat constructor].
  - vm_compute. lia.
  - exists r, p'. split; [exact Hrun | split; [exact Hi | exact Hs]].
Defined.


(** On a parser with a current token and a lexer without errors,
    parseTopLevel with fuel for what is left to read returns, without a
    panic; after its rewind to the function alternative the index is still
    not behind where it was, and a declaration returned has consumed a
    token. *)
Theorem parseTopLevel_consumes (prec : string -> Z) (fuel : nat)
    (p : Parser) :
  sound p -> (unread p <= fuel)%nat ->
  exists r p',
    parseTopLevel prec fuel p = Ret r p'
    /\ extends p p' /\ tokIdx p <= tokIdx p' /\ sound p'
    /\ (forall node, r = Ok node ->
                     tokIdx p < tokIdx p' /\ (unread p' < unread p)%nat).
Proof.
  intros Hs Hf. exact (runs_sound p _ Hs (parseTopLevel_runs prec fuel p Hf)).
Qed.

Lemma parseTopLevel_consumes_witness :
  exists r p',
    parseTopLevel specPrecedence 2
      (parserOn (lexed [ident "x"; semicolon])) = Ret r p'
    /\ tokIdx (parserOn (lexed [ident "x"; semicolon])) <= tokIdx p'
    /\ sound p'.
Proof.
  destruct (parseTopLevel_consumes specPrecedence 2
              (parserOn (lexed [ident "x"; semicolon])))
    as (r & p' & Hrun & _ & Hi & Hs & _).
  - split; [split; [discriminate | reflexivity] | repeat constructor].
  - vm_compute. lia.
  - exists r, p'. split; [exact Hrun | split; [exact Hi | exact Hs]].
Defined.


(** ** Reading a stream of tokens *)

Lemma token_streamOf (nm : string) (pre ts : list Token) :
  token (streamOf nm pre ts) = Ret (hd eof ts) (streamOf nm pre ts).
Proof.
  unfold token, bind, getIdx, tokenAt, streamOf.
  cbn [tokIdx tokens lex].
  rewrite length_app, Nat2Z.id. cbn [List.length].
  replace ((0 <=? Z.of_nat (List.length pre))
           && (Z.of_nat (List.length pre)
               <? Z.of_nat (List.length pre + 1)))
    with true by (symmetry; apply andb_true_iff; split;
                  [apply Z.leb_le | apply Z.ltb_lt]; lia).
  rewrite nth_error_app2 by lia. rewrite Nat.sub_diag. reflexivity.
Qed.

Lemma nextToken_streamOf (nm : string) (pre ts : list Token) :
  nextToken (streamOf nm pre ts)
  = Ret (Ok (hd eof (tl ts))) (streamOf nm (pre ++ [hd eof ts]) (tl ts)).
Proof.
  unfold nextToken, streamOf. cbn [tokIdx tokens lex].
  rewrite length_app. cbn [List.length].
  replace (Z.of_nat (List.length pre) + 1 <? Z.of_nat (List.length pre + 1))
    with false by (symmetry; apply Z.ltb_ge; lia).
  replace (Z.of_nat (List.length pre) + 1)
    with (Z.of_nat (List.length pre + 1)) by lia.
  unfold NextToken. cbn [pending name].
  destruct (tl ts) as [| t ts']; reflexivity.
Qed.

Lemma nextTokenOrPanic_streamOf (nm : string) (pre ts : list Token) :
  nextTokenOrPanic (streamOf nm pre ts)
  = Ret tt (streamOf nm (pre ++ [hd eof ts]) (tl ts)).
Proof.
  unfold nextTokenOrPanic.
  rewrite (bind_Ret _ _ _ _ _ (nextToken_streamOf nm pre ts)). reflexivity.
Qed.

Lemma TokenType_eqb_refl (t : TokenType) : TokenType_eqb t t = true.
Proof. destruct t; reflexivity. Qed.

Lemma accept_streamOf (t : TokenType) (str : string) (nm : string)
    (pre : list Token) (cur : Token) (ts : list Token) :
  kind cur = t ->
  (str =? "")%string || (str =? value cur)%string = true ->
  accept t str (streamOf nm pre (cur :: ts))
  = Ret (Some cur) (streamOf nm (pre ++ [cur]) ts).
Proof.
  intros Hk Hs. unfold accept.
  rewrite (bind_Ret _ _ _ _ _ (token_streamOf nm pre (cur :: ts))).
  cbn [hd]. rewrite Hk, TokenType_eqb_refl, Hs.
  rewrite (bind_Ret _ _ _ _ _ (nextTokenOrPanic_streamOf nm pre (cur :: ts))).
  reflexivity.
Qed.

Lemma accept_streamOf_other (t : TokenType) (str : string) (nm : string)
    (pre ts : list Token) :
  TokenType_eqb (kind (hd eof ts)) t = false ->
  accept t str (streamOf nm pre ts) = Ret None (streamOf nm pre ts).
Proof.
  intros Hk.
  exact (accept_mismatch t str _ _ (token_streamOf nm pre ts) Hk).
Qed.

Lemma expect_streamOf (t : TokenType) (str : string) (nm : string)
    (pre : list Token) (cur : Token) (ts : list Token) :
  kind cur = t ->
  (str =? "")%string || (str =? value cur)%string = true ->
  expect t str (streamOf nm pre (cur :: ts))
  = Ret (Ok cur) (streamOf nm (pre ++ [cur]) ts).
Proof.
  intros Hk Hs. unfold expect.
  rewrite (bind_Ret _ _ _ _ _ (accept_streamOf t str nm pre cur ts Hk Hs)).
  reflexivity.
Qed.

Lemma bindOk_Ok {A B} (m : M (result A)) (k : A -> M (result B))
    (p q : Parser) (a : A) :
  m p = Ret (Ok a) q -> bindOk m k p = k a q.
Proof. intros H. unfold bindOk, bind. rewrite H. reflexivity. Qed.

Lemma expectOneOf_streamOf (kinds : list TokenType) (nm : string)
    (pre : list Token) (cur : Token) (ts : list Token) (ty : TokenType) :
  find (fun ty => TokenType_eqb (kind cur) ty) kinds = Some ty ->
  expectOneOf kinds (streamOf nm pre (cur :: ts))
  = Ret (Ok (ty, cur)) (streamOf nm (pre ++ [cur]) ts).
Proof.
  intros Hf. unfold expectOneOf.
  rewrite (bind_Ret _ _ _ _ _ (token_streamOf nm pre (cur :: ts))).
  cbn [hd]. rewrite Hf.
  rewrite (bind_Ret _ _ _ _ _ (nextToken_streamOf nm pre (cur :: ts))).
  reflexivity.
Qed.

Lemma parseConstant_streamOf (nm : string) (pre : list Token) (cur : Token)
    (ts : list Token) (n : Node) :
  constantOf cur = Some n ->
  parseConstant (streamOf nm pre (cur :: ts))
  = Ret (Ok n) (streamOf nm (pre ++ [cur]) ts).
Proof.
  intros Hc. unfold parseConstant, constantOf in *.
  destruct (kind cur) eqn:Hk; try discriminate.
  - rewrite (bindOk_Ok _ _ _ _ _
               (expectOneOf_streamOf [tkNumber; tkCharacter; tkString]
                  nm pre cur ts tkNumber
                  ltac:(cbn; rewrite Hk; reflexivity))).
    destruct (Atoi (value cur)); [| discriminate].
    injection Hc as <-. reflexivity.
  - rewrite (bindOk_Ok _ _ _ _ _
               (expectOneOf_streamOf [tkNumber; tkCharacter; tkString]
                  nm pre cur ts tkString
                  ltac:(cbn; rewrite Hk; reflexivity))).
    injection Hc as <-. reflexivity.
  - rewrite (bindOk_Ok _ _ _ _ _
               (expectOneOf_streamOf [tkNumber; tkCharacter; tkString]
                  nm pre cur ts tkCharacter
                  ltac:(cbn; rewrite Hk; reflexivity))).
    injection Hc as <-. reflexivity.
Qed.

(** ** Lists, written and read back *)

Lemma commaList_cons (g g' : list Token) (gs : list (list Token)) :
  commaList (g :: g' :: gs) = g ++ comma :: commaList (g' :: gs).
Proof. reflexivity. Qed.

Lemma variableListLoop_streamOf (nm : string) (stop : Token)
    (rest : list Token) :
  TokenType_eqb (kind stop) tkComma = false ->
  forall (ns : list string) (fuel : nat) (id : Token) (vars : list string)
         (pre : list Token),
    (List.length ns < fuel)%nat ->
    variableListLoop fuel id vars
      (streamOf nm pre
         (flat_map (fun g => comma :: g) (map (fun s => [ident s]) ns)
          ++ stop :: rest))
    = Ret (Ok (vars ++ value id :: ns))
        (streamOf nm
           (pre ++ flat_map (fun g => comma :: g)
                     (map (fun s => [ident s]) ns))
           (stop :: rest)).
Proof.
  intros Hstop ns.
  induction ns as [| n ns IH]; intros fuel id vars pre Hf;
    (destruct fuel as [| fuel]; [cbn in Hf; lia |]).
  - cbn [map flat_map app variableListLoop]. unfold acceptType.
    rewrite (bind_Ret _ _ _ _ _
               (accept_streamOf_other tkComma "" nm pre (stop :: rest) Hstop)).
    rewrite app_nil_r. reflexivity.
  - cbn [map flat_map app variableListLoop]. unfold acceptType, expectType.
    rewrite (bind_Ret _ _ _ _ _
               (accept_streamOf tkComma "" nm pre comma _ eq_refl eq_refl)).
    rewrite (bindOk_Ok _ _ _ _ _
               (expect_streamOf tkIdent "" nm _ (ident n) _ eq_refl eq_refl)).
    rewrite IH by (cbn in Hf; lia).
    rewrite <- !app_assoc. reflexivity.
Qed.

Lemma parseVariableList_streamOf (nm : string) (stop : Token)
    (pre rest : list Token) (n : string) (ns : list string) (fuel : nat) :
  TokenType_eqb (kind stop) tkComma = false ->
  (List.length ns < fuel)%nat ->
  parseVariableList fuel
    (streamOf nm pre
       (commaList (map (fun s => [ident s]) (n :: ns)) ++ stop :: rest))
  = Ret (Ok (n :: ns))
      (streamOf nm
         (pre ++ commaList (map (fun s => [ident s]) (n :: ns)))
         (stop :: rest)).
Proof.
  intros Hstop Hf. unfold parseVariableList, acceptType.
  cbn [map commaList app].
  rewrite (bind_Ret _ _ _ _ _
             (accept_streamOf tkIdent "" nm _ (ident n) _ eq_refl eq_refl)).
  rewrite (variableListLoop_streamOf nm stop rest Hstop ns fuel) by exact Hf.
  rewrite <- !app_assoc. reflexivity.
Qed.

(** The names of an [extrn] declaration come back as they were written:
    [extrn a, b, c;] is the declaration of [a], [b] and [c], in this
    order, and the parser stands after the [;]. *)
Theorem extrn_names_read_back (nm : string) (pre rest : list Token)
    (names : list string) (fuel : nat) :
  names <> [] -> (List.length names <= fuel)%nat ->
  parseExternVarDecl fuel
    (streamOf nm pre
       (keyword "extrn" :: commaList (map (fun s => [ident s]) names)
        ++ semicolon :: rest))
  = Ret (Ok (ExternVarDeclNode names))
      (streamOf nm
         (pre ++ keyword "extrn" :: commaList (map (fun s => [ident s]) names)
          ++ [semicolon])
         rest).
Proof.
  intros Hne Hf. destruct names as [| n ns]; [congruence |]. clear Hne.
  unfold parseExternVarDecl, expectType.
  rewrite (bindOk_Ok _ _ _ _ _
             (expect_streamOf tkKeyword "extrn" nm pre (keyword "extrn") _
                eq_refl eq_refl)).
  rewrite (bindOk_Ok _ _ _ _ _
             (parseVariableList_streamOf nm semicolon _ rest n ns fuel
                eq_refl ltac:(cbn in Hf; lia))).
  rewrite (bindOk_Ok _ _ _ _ _
             (expect_streamOf tkSemicolon "" nm _ semicolon _
                eq_refl eq_refl)).
  cbn [List.length].
  replace (Z.of_nat (S (List.length ns)) <=? 0) with false
    by (symmetry; apply Z.leb_gt; lia).
  unfold ret. do 2 f_equal. rewrite <- !app_assoc. reflexivity.
Qed.

Lemma extrn_names_read_back_witness :
  parseExternVarDecl 2
    (parserOn (lexed [keyword "extrn"; ident "a"; comma; ident "b";
                      semicolon]))
  = Ret (Ok (ExternVarDeclNode ["a"; "b"]))
      (streamOf "name"
         [keyword "extrn"; ident "a"; comma; ident "b"; semicolon] []).
Proof.
  exact (extrn_names_read_back "name" [] [] ["a"; "b"] 2
           ltac:(discriminate) ltac:(cbn; lia)).
Defined.

Lemma vecValuesLoop_streamOf (nm : string) (stop : Token)
    (rest : list Token) :
  TokenType_eqb (kind stop) tkComma = false ->
  forall (cs : list Token) (vs : list Node),
    Forall2 (fun c v => constantOf c = Some v) cs vs ->
    forall (c : Token) (v : Node) (fuel : nat) (acc : list Node)
           (pre : list Token),
      constantOf c = Some v ->
      (List.length cs < fuel)%nat ->
      vecValuesLoop fuel acc
        (streamOf nm pre
           (commaList (map (fun c => [c]) (c :: cs)) ++ stop :: rest))
      = Ret (Ok (acc ++ v :: vs))
          (streamOf nm (pre ++ commaList (map (fun c => [c]) (c :: cs)))
             (stop :: rest)).
Proof.
  intros Hstop cs vs Hall.
  induction Hall as [| c' v' cs vs Hc' Hall IH];
    intros c v fuel acc pre Hc Hf;
    (destruct fuel as [| fuel]; [cbn in Hf; lia |]).
  - cbn [map commaList flat_map app vecValuesLoop]. unfold acceptType.
    rewrite (bindOk_Ok _ _ _ _ _ (parseConstant_streamOf nm pre c _ v Hc)).
    rewrite (bind_Ret _ _ _ _ _
               (accept_streamOf_other tkComma "" nm _ (stop :: rest) Hstop)).
    reflexivity.
  - cbn [map]. rewrite commaList_cons.
    cbn [app vecValuesLoop]. unfold acceptType.
    rewrite (bindOk_Ok _ _ _ _ _ (parseConstant_streamOf nm pre c _ v Hc)).
    rewrite (bind_Ret _ _ _ _ _
               (accept_streamOf tkComma "" nm _ comma _ eq_refl eq_refl)).
    change (map (fun c0 : Token => [c0]) cs)
      with (tl (map (fun c0 : Token => [c0]) (c' :: cs))).
    change ([c'] :: tl (map (fun c0 : Token => [c0]) (c' :: cs)))
      with (map (fun c0 : Token => [c0]) (c' :: cs)).
    rewrite (IH c' v' fuel (acc ++ [v]) _ Hc') by (cbn in Hf; lia).
    rewrite <- !app_assoc. reflexivity.
Qed.

(** The values of an external vector come back as they were written:
    [v [n] c1, c2, ...;] is the vector [v] of size [n] with the constants
    [c1], [c2], ... in this order, whatever their number and [n]. *)
Theorem vector_values_read_back (nm : string) (pre rest : list Token)
    (vec lit : string) (size : Z) (cs : list Token) (values : list Node)
    (fuel : nat) :
  Atoi lit = Some size ->
  cs <> [] ->
  Forall2 (fun c v => constantOf c = Some v) cs values ->
  (List.length cs <= fuel)%nat ->
  parseExternalVariableInit fuel
    (streamOf nm pre
       (ident vec :: openBracket :: number lit :: closeBracket
        :: commaList (map (fun c => [c]) cs) ++ semicolon :: rest))
  = Ret (Ok (ExternVecInitNode vec size values))
      (streamOf nm
         (pre ++ ident vec :: openBracket :: number lit :: closeBracket
          :: commaList (map (fun c => [c]) cs) ++ [semicolon])
         rest).
Proof.
  intros Hsize Hne Hall Hf.
  destruct Hall as [| c v cs vs Hc Hall]; [congruence |]. clear Hne.
  unfold parseExternalVariableInit, expectType, acceptType.
  rewrite (bindOk_Ok _ _ _ _ _
             (expect_streamOf tkIdent "" nm pre (ident vec) _
                eq_refl eq_refl)).
  rewrite (bind_Ret _ _ _ _ _
             (accept_streamOf tkOpenBracket "" nm _ openBracket _
                eq_refl eq_refl)).
  rewrite (bindOk_Ok _ _ _ _ _
             (expect_streamOf tkNumber "" nm _ (number lit) _
                eq_refl eq_refl)).
  rewrite (bindOk_Ok _ _ _ _ _
             (expect_streamOf tkCloseBracket "" nm _ closeBracket _
                eq_refl eq_refl)).
  change (value (number lit)) with lit. rewrite Hsize.
  rewrite (bindOk_Ok _ _ _ _ _
             (vecValuesLoop_streamOf nm semicolon rest eq_refl cs vs Hall
                c v fuel [] _ Hc ltac:(cbn in Hf; lia))).
  rewrite (bindOk_Ok _ _ _ _ _
             (expect_streamOf tkSemicolon "" nm _ semicolon _
                eq_refl eq_refl)).
  unfold ret. cbn [app]. do 2 f_equal. rewrite <- !app_assoc. reflexivity.
Qed.

Lemma vector_values_read_back_witness :
  parseExternalVariableInit 2
    (parserOn (lexed [ident "v"; openBracket; number "2"; closeBracket;
                      number "7"; comma; tok tkCharacter "a"; semicolon]))
  = Ret (Ok (ExternVecInitNode "v" 2 [IntegerNode 7; CharacterNode "a"]))
      (streamOf "name"
         [ident "v"; openBracket; number "2"; closeBracket;
          number "7"; comma; tok tkCharacter "a"; semicolon] []).
Proof.
  exact (vector_values_read_back "name" [] [] "v" "2" 2
           [number "7"; tok tkCharacter "a"]
           [IntegerNode 7; CharacterNode "a"] 2
           eq_refl ltac:(discriminate)
           ltac:(repeat constructor) ltac:(cbn; lia)).
Defined.

(** One item of an [auto] declaration, up to the token after it. *)
Lemma varDecl_item_streamOf (nm : string) (it : AutoItem) (d : VarDecl)
    (nx : Token) (rest pre : list Token) (vars : list VarDecl)
    (k : list VarDecl -> M (result (list VarDecl))) :
  itemDecl it = Some d ->
  TokenType_eqb (kind nx) tkOpenBracket = false ->
  (ident <~ expectType tkIdent ;;
   ob <- acceptType tkOpenBracket ;;
   vars' <~ match ob with
            | Some _ =>
                num <~ expectType tkNumber ;;
                match Atoi (value num) with
                | None =>
                    cur <- token ;;
                    ret (Err (NewParseError cur "invalid integer literal"))
                | Some size =>
                    _ <~ expectType tkCloseBracket ;;
                    ret (Ok (vars ++ [mkVarDecl (value ident) true size]))
                end
            | None => ret (Ok (vars ++ [mkVarDecl (value ident) false 0]))
            end ;;
   k vars')
    (streamOf nm pre (itemTokens it ++ nx :: rest))
  = k (vars ++ [d]) (streamOf nm (pre ++ itemTokens it) (nx :: rest)).
Proof.
  intros Hd Hnx. unfold expectType, acceptType.
  destruct it as [name [lit |]]; cbn [itemTokens app itemDecl] in *.
  - destruct (Atoi lit) as [size |] eqn:Hlit; [| discriminate].
    injection Hd as <-.
    rewrite (bindOk_Ok _ _ _ _ _
               (expect_streamOf tkIdent "" nm pre (ident name) _
                  eq_refl eq_refl)).
    rewrite (bind_Ret _ _ _ _ _
               (accept_streamOf tkOpenBracket "" nm _ openBracket _
                  eq_refl eq_refl)).
    cbv iota.
    match goal with
    | |- bindOk ?m _ ?st = _ =>
        assert (Hinner :
                 m st = Ret (Ok (vars ++ [mkVarDecl name true size]))
                          (streamOf nm
                             (pre ++ [ident name; openBracket; number lit;
                                      closeBracket])
                             (nx :: rest)))
    end.
    { rewrite (bindOk_Ok _ _ _ _ _
                 (expect_streamOf tkNumber "" nm _ (number lit) _
                    eq_refl eq_refl)).
      change (value (number lit)) with lit. rewrite Hlit.
      rewrite (bindOk_Ok _ _ _ _ _
                 (expect_streamOf tkCloseBracket "" nm _ closeBracket _
                    eq_refl eq_refl)).
      unfold ret. rewrite <- !app_assoc. reflexivity. }
    rewrite (bindOk_Ok _ _ _ _ _ Hinner). reflexivity.
  - injection Hd as <-.
    rewrite (bindOk_Ok _ _ _ _ _
               (expect_streamOf tkIdent "" nm pre (ident name) _
                  eq_refl eq_refl)).
    rewrite (bind_Ret _ _ _ _ _
               (accept_streamOf_other tkOpenBracket "" nm _ (nx :: rest)
                  Hnx)).
    reflexivity.
Qed.

Lemma varDeclLoop_streamOf (nm : string) (rest : list Token) :
  forall (its : list AutoItem) (ds : list VarDecl),
    Forall2 (fun it d => itemDecl it = Some d) its ds ->
    forall (it : AutoItem) (d : VarDecl) (fuel : nat) (vars : list VarDecl)
           (pre : list Token),
      itemDecl it = Some d ->
      (List.length its < fuel)%nat ->
      varDeclLoop fuel vars
        (streamOf nm pre
           (commaList (map itemTokens (it :: its)) ++ semicolon :: rest))
      = Ret (Ok (vars ++ d :: ds))
          (streamOf nm (pre ++ commaList (map itemTokens (it :: its)))
             (semicolon :: rest)).
Proof.
  intros its ds Hall.
  induction Hall as [| it' d' its ds Hd' Hall IH];
    intros it d fuel vars pre Hd Hf;
    (destruct fuel as [| fuel]; [cbn in Hf; lia |]).
  - cbn [map commaList flat_map varDeclLoop]. rewrite app_nil_r.
    rewrite (varDecl_item_streamOf nm it d semicolon rest pre vars _ Hd
               eq_refl).
    unfold acceptType.
    rewrite (bind_Ret _ _ _ _ _
               (accept_streamOf_other tkComma "" nm _ (semicolon :: rest)
                  eq_refl)).
    reflexivity.
  - cbn [map]. rewrite commaList_cons. rewrite <- app_assoc.
    cbn [app varDeclLoop].
    rewrite (varDecl_item_streamOf nm it d comma _ pre vars _ Hd eq_refl).
    unfold acceptType.
    rewrite (bind_Ret _ _ _ _ _
               (accept_streamOf tkComma "" nm _ comma _ eq_refl eq_refl)).
    change (itemTokens it' :: map itemTokens its)
      with (map itemTokens (it' :: its)).
    rewrite (IH it' d' fuel (vars ++ [d]) _ Hd') by (cbn in Hf; lia).
    rewrite <- !app_assoc. reflexivity.
Qed.

(** The variables of an [auto] declaration come back as they were written:
    [auto a, b[3], c;] declares the scalar [a], the vector [b] of size 3
    and the scalar [c], in this order. *)
Theorem auto_items_read_back (nm : string) (pre rest : list Token)
    (items : list AutoItem) (decls : list VarDecl) (fuel : nat) :
  items <> [] ->
  Forall2 (fun it d => itemDecl it = Some d) items decls ->
  (List.length items <= fuel)%nat ->
  parseVarDecl fuel
    (streamOf nm pre
       (keyword "auto" :: commaList (map itemTokens items)
        ++ semicolon :: rest))
  = Ret (Ok (VarDeclNode decls))
      (streamOf nm
         (pre ++ keyword "auto" :: commaList (map itemTokens items)
          ++ [semicolon])
         rest).
Proof.
  intros Hne Hall Hf.
  destruct Hall as [| it d its ds Hd Hall]; [congruence |]. clear Hne.
  unfold parseVarDecl, expectType.
  rewrite (bindOk_Ok _ _ _ _ _
             (expect_streamOf tkKeyword "auto" nm pre (keyword "auto") _
                eq_refl eq_refl)).
  rewrite (bindOk_Ok _ _ _ _ _
             (varDeclLoop_streamOf nm rest its ds Hall it d fuel [] _ Hd
                ltac:(cbn in Hf; lia))).
  rewrite (bindOk_Ok _ _ _ _ _
             (expect_streamOf tkSemicolon "" nm _ semicolon _
                eq_refl eq_refl)).
  cbn [app List.length].
  replace (Z.of_nat (S (List.length ds)) <=? 0) with false
    by (symmetry; apply Z.leb_gt; lia).
  unfold ret. do 2 f_equal. rewrite <- !app_assoc. reflexivity.
Qed.

Lemma auto_items_read_back_witness :
  parseVarDecl 2
    (parserOn (lexed [keyword "auto"; ident "a"; comma; ident "b";
                      openBracket; number "3"; closeBracket; semicolon]))
  = Ret (Ok (VarDeclNode [mkVarDecl "a" false 0; mkVarDecl "b" true 3]))
      (streamOf "name"
         [keyword "auto"; ident "a"; comma; ident "b";
          openBracket; number "3"; closeBracket; semicolon] []).
Proof.
  exact (auto_items_read_back "name" [] []
           [("a", None); ("b", Some "3")]
           [mkVarDecl "a" false 0; mkVarDecl "b" true 3] 2
           ltac:(discriminate) ltac:(repeat constructor) ltac:(cbn; lia)).
Defined.

(** ** An initializer that is no number *)

(** A number literal out of the range of [int] makes [parseConstant] fail
    after the literal has been consumed; when a [;] follows, the
    declaration is taken for an empty one: [x 99999999999999999999;]
    declares [x] with the value 0, and no error. *)
Theorem unparsable_initializer_is_zero (nm : string)
    (pre rest : list Token) (var lit : string) (fuel : nat) :
  Atoi lit = None ->
  parseExternalVariableInit fuel
    (streamOf nm pre (ident var :: number lit :: semicolon :: rest))
  = Ret (Ok (ExternVarInitNode var (IntegerNode 0)))
      (streamOf nm (pre ++ [ident var; number lit; semicolon]) rest).
Proof.
  intros Hlit.
  unfold parseExternalVariableInit, expectType, acceptType.
  rewrite (bindOk_Ok _ _ _ _ _
             (expect_streamOf tkIdent "" nm pre (ident var) _
                eq_refl eq_refl)).
  rewrite (bind_Ret _ _ _ _ _
             (accept_streamOf_other tkOpenBracket "" nm _
                (number lit :: semicolon :: rest) eq_refl)).
  assert (Hconst : exists e,
             parseConstant
               (streamOf nm (pre ++ [ident var])
                  (number lit :: semicolon :: rest))
             = Ret (Err e)
                 (streamOf nm ((pre ++ [ident var]) ++ [number lit])
                    (semicolon :: rest))).
  { unfold parseConstant.
    rewrite (bindOk_Ok _ _ _ _ _
               (expectOneOf_streamOf [tkNumber; tkCharacter; tkString]
                  nm _ (number lit) _ tkNumber eq_refl)).
    change (value (number lit)) with lit. rewrite Hlit.
    rewrite (bind_Ret _ _ _ _ _ (token_streamOf nm _ _)).
    eexists. reflexivity. }
  destruct Hconst as [e Hconst].
  rewrite (bind_Ret _ _ _ _ _ Hconst).
  rewrite (bindOk_Ok _ _ _ _ _
             (expect_streamOf tkSemicolon "" nm _ semicolon _
                eq_refl eq_refl)).
  unfold ret. do 2 f_equal. rewrite <- !app_assoc. reflexivity.
Qed.

Lemma unparsable_initializer_is_zero_witness :
  parseExternalVariableInit 0
    (parserOn (lexed [ident "x"; number "99999999999999999999"; semicolon]))
  = Ret (Ok (ExternVarInitNode "x" (IntegerNode 0)))
      (streamOf "name"
         [ident "x"; number "99999999999999999999"; semicolon] []).
Proof.
  exact (unparsable_initializer_is_zero "name" [] [] "x"
           "99999999999999999999" 0 eq_refl).
Defined.

(** ** The sorts of the trees the parser builds *)

Lemma exprTree_IsExpr (n : Node) :
  exprTree n = true -> IsExpr n = true \/ exists s, n = StringNode s.
Proof.
  destruct n; try discriminate; intros _;
    first [left; reflexivity | right; eexists; reflexivity].
Qed.

Lemma stmtTree_IsStatement (n : Node) :
  stmtTree n = true -> IsStatement n = true \/ n = NullNode.
Proof.
  destruct n; try discriminate; intros _;
    first [left; reflexivity | right; reflexivity].
Qed.

Lemma constant_exprTree (n : Node) : IsConstant n = true -> exprTree n = true.
Proof. destruct n; try discriminate; reflexivity. Qed.

Lemma forallb_snoc {A} (f : A -> bool) (l : list A) (a : A) :
  forallb f l = true -> f a = true -> forallb f (l ++ [a]) = true.
Proof. intros Hl Ha. rewrite forallb_app, Hl. simpl. rewrite Ha. reflexivity. Qed.

Section ExpressionTrees.

Variable prec : string -> Z.
Variable callExpr : M (result Node).
Hypothesis callExpr_exprTree : builds (fun n => exprTree n = true) callExpr.

Lemma parseArgs_exprTree (fuel : nat) (args : list Node) :
  forallb exprTree args = true ->
  builds (fun l => forallb exprTree l = true) (parseArgs fuel callExpr args).
Proof.
  revert args. induction fuel as [| fuel IH]; intros args Hargs p p' l H;
    [discriminate |].
  simpl in H. invert_step H as arg q0 Harg. invert_step H as c q1 Hc.
  apply callExpr_exprTree in Harg.
  destruct c as [tk |].
  - eapply IH; [| exact H]. apply forallb_snoc; assumption.
  - invert_ret H. apply forallb_snoc; assumption.
Qed.

Lemma parsePrimary_exprTree (fuel : nat) :
  builds (fun n => exprTree n = true) (parsePrimary_ fuel callExpr).
Proof.
  intros p p' n H. unfold parsePrimary_ in H.
  invert_step H as a q0 Hfirst.
  assert (Ha : exprTree a = true).
  { apply orElse_Ok_inv in Hfirst.
    destruct Hfirst as [Hm | (e1 & q1 & _ & Hm)].
    { unfold parseParen_ in Hm. invert_step Hm as o q2 Ho.
      invert_step Hm as inner q3 Hinner. invert_step Hm as c q4 Hc.
      invert_ret Hm. apply callExpr_exprTree in Hinner. exact Hinner. }
    apply orElse_Ok_inv in Hm. destruct Hm as [Hm | (e2 & q2 & _ & Hm)].
    { apply constant_exprTree. eapply parseConstant_builds_constant.
      exact Hm. }
    apply orElse_Ok_inv in Hm. destruct Hm as [Hm | (e3 & q3 & _ & Hm)].
    { apply parseIdent_builds_ident in Hm. destruct Hm as [v ->]. reflexivity. }
    invert_step Hm as cur q4 Hcur. discriminate. }
  invert_step H as ob q1 Hob. destruct ob as [tk |].
  - invert_step H as index q2 Hindex. invert_step H as cb q3 Hcb.
    invert_ret H. apply callExpr_exprTree in Hindex.
    simpl. rewrite Ha, Hindex. reflexivity.
  - invert_step H as op q2 Hop. destruct op as [tk |].
    + invert_step H as cur q3 Hcur. invert_step H as args q4 Hargs.
      invert_step H as cp q5 Hcp. invert_ret H.
      assert (Hall : forallb exprTree args = true).
      { destruct (negb (TokenType_eqb (kind cur) tkCloseParen)).
        - eapply parseArgs_exprTree; [| exact Hargs]. reflexivity.
        - apply ret_inv in Hargs. destruct Hargs as [Heq _].
          injection Heq as <-. reflexivity. }
      simpl. rewrite Ha, Hall. reflexivity.
    + invert_ret H. exact Ha.
Qed.

Lemma parseSubExpression_exprTree (fuel : nat) :
  builds (fun n => exprTree n = true) (parseSubExpression_ fuel callExpr).
Proof.
  intros p p' n H. unfold parseSubExpression_ in H.
  invert_step H as o q0 Ho. invert_step H as oper q1 Hoper.
  invert_step H as expr q2 Hexpr. invert_step H as cur q3 Hcur.
  apply parsePrimary_exprTree in Hexpr.
  assert (Hexpr1 : exprTree (if (oper =? "")%string then expr
                             else UnaryNode oper expr false) = true)
    by (destruct (oper =? "")%string; exact Hexpr).
  destruct (TokenType_eqb (kind cur) tkOperator && isPostfixOp (value cur)).
  - invert_step H as r q4 Hnext. invert_ret H. exact Hexpr1.
  - invert_ret H. exact Hexpr1.
Qed.

Lemma resolve_exprTree (node rhs : Node) (oper : string) :
  exprTree node = true -> exprTree rhs = true ->
  exprTree (resolve prec node oper rhs) = true.
Proof.
  unfold resolve. intros Hn Hr.
  destruct rhs; simpl in *; rewrite ?Hn, ?Hr; try reflexivity.
  apply andb_prop in Hr. destruct Hr as [Hl Hrr].
  destruct (prec oper >? prec Oper); simpl; rewrite Hn, Hl, Hrr; reflexivity.
Qed.

End ExpressionTrees.

Lemma parseExpression_exprTree (prec : string -> Z) (fuel : nat) :
  builds (fun n => exprTree n = true) (parseExpression prec fuel).
Proof.
  induction fuel as [| fuel IH]; intros p p' n H; [discriminate |].
  simpl in H. invert_step H as node q0 Hnode.
  apply (parseSubExpression_exprTree _ IH) in Hnode.
  invert_step H as o q1 Ho. invert_step H as node1 q2 Hnode1.
  assert (H1 : exprTree node1 = true).
  { destruct o as [tk |].
    - invert_step Hnode1 as rhs q3 Hrhs. invert_ret Hnode1.
      apply IH in Hrhs. apply resolve_exprTree; assumption.
    - invert_ret Hnode1. exact Hnode. }
  invert_step H as t q3 Ht. destruct t as [tk |].
  - invert_step H as tb q4 Htb. invert_step H as cl q5 Hcl.
    invert_step H as fb q6 Hfb. invert_ret H.
    apply IH in Htb. apply IH in Hfb.
    simpl. rewrite H1, Htb, Hfb. reflexivity.
  - invert_ret H. exact H1.
Qed.

Section StatementTrees.

Variable prec : string -> Z.
Variable callStmt : M (result Node).
Hypothesis callStmt_stmtTree : builds (fun n => stmtTree n = true) callStmt.

Lemma blockLoop_stmtTree (fuel : nat) (nodes : list Node) :
  forallb stmtTree nodes = true ->
  builds (fun l => forallb stmtTree l = true)
    (blockLoop fuel callStmt nodes).
Proof.
  revert nodes. induction fuel as [| fuel IH]; intros nodes Hnodes p p' l H;
    [discriminate |].
  simpl in H. invert_step H as cur q0 Hcur.
  destruct (negb (TokenType_eqb (kind cur) tkCloseBrace)).
  - invert_step H as stmt q1 Hstmt. apply callStmt_stmtTree in Hstmt.
    eapply IH; [| exact H]. apply forallb_snoc; assumption.
  - invert_ret H. exact Hnodes.
Qed.

Lemma parseBlock_stmtTree (fuel : nat) :
  builds (fun n => stmtTree n = true) (parseBlock_ fuel callStmt).
Proof.
  intros p p' n H. unfold parseBlock_ in H.
  invert_step H as ob q0 Hob. invert_step H as nodes q1 Hnodes.
  invert_step H as cb q2 Hcb. invert_ret H.
  exact (blockLoop_stmtTree fuel [] eq_refl _ _ _ Hnodes).
Qed.

Lemma parseIf_stmtTree (fuel : nat) :
  builds (fun n => stmtTree n = true) (parseIf_ prec fuel callStmt).
Proof.
  intros p p' n H. unfold parseIf_ in H.
  invert_step H as kw q0 Hkw. invert_step H as op q1 Hop.
  invert_step H as cond q2 Hcond. invert_step H as cp q3 Hcp.
  invert_step H as body q4 Hbody. invert_step H as e q5 He.
  apply parseExpression_exprTree in Hcond.
  apply callStmt_stmtTree in Hbody.
  destruct e as [tk |].
  - invert_step H as els q6 Hels. invert_ret H.
    apply callStmt_stmtTree in Hels.
    simpl. rewrite Hcond, Hbody, Hels. reflexivity.
  - invert_ret H. simpl. rewrite Hcond, Hbody. reflexivity.
Qed.

Lemma parseWhile_stmtTree (fuel : nat) :
  builds (fun n => stmtTree n = true) (parseWhile_ prec fuel callStmt).
Proof.
  intros p p' n H. unfold parseWhile_ in H.
  invert_step H as kw q0 Hkw. invert_step H as op q1 Hop.
  invert_step H as cond q2 Hcond. invert_step H as cp q3 Hcp.
  invert_step H as body q4 Hbody. invert_ret H.
  apply parseExpression_exprTree in Hcond.
  apply callStmt_stmtTree in Hbody.
  simpl. rewrite Hcond, Hbody. reflexivity.
Qed.

Lemma caseBody_stmtTree (fuel : nat) (stmts : list Node) :
  forallb stmtTree stmts = true ->
  builds (fun l => forallb stmtTree l = true)
    (caseBody fuel callStmt stmts).
Proof.
  revert stmts. induction fuel as [| fuel IH]; intros stmts Hstmts p p' l H;
    [discriminate |].
  simpl in H. invert_step H as a q0 Ha. destruct a as [tk |].
  { invert_step H as u q1 Hu. invert_ret H. exact Hstmts. }
  invert_step H as b q1 Hb. destruct b as [tk |].
  { invert_step H as u q2 Hu. invert_ret H. exact Hstmts. }
  invert_step H as c q2 Hc. destruct c as [tk |].
  { invert_step H as u q3 Hu. invert_ret H. exact Hstmts. }
  invert_step H as stmt q3 Hstmt. apply callStmt_stmtTree in Hstmt.
  eapply IH; [| exact H]. apply forallb_snoc; assumption.
Qed.

Lemma switchLoop_stmtTree (fuel : nat) (cond : Node) (dflt : list Node)
    (cases : list CaseNode) :
  exprTree cond = true -> forallb stmtTree dflt = true ->
  forallb caseTree cases = true ->
  builds (fun n => stmtTree n = true)
    (switchLoop fuel callStmt cond dflt cases).
Proof.
  revert dflt cases.
  induction fuel as [| fuel IH]; intros dflt cases Hcond Hdflt Hcases p p' n H;
    [discriminate |].
  simpl in H. invert_step H as cb q0 Hcb. destruct cb as [tk |].
  { invert_ret H. simpl. rewrite Hcond, Hdflt. exact Hcases. }
  invert_step H as a q1 Ha. destruct a as [tk |].
  { invert_step H as c q2 Hc. invert_step H as cl q3 Hcl.
    invert_step H as stmts q4 Hstmts.
    apply parseConstant_builds_constant in Hc.
    apply caseBody_stmtTree in Hstmts; [| reflexivity].
    eapply IH; [exact Hcond | exact Hdflt | | exact H].
    apply forallb_snoc; [exact Hcases |].
    simpl. rewrite Hc, Hstmts. reflexivity. }
  invert_step H as d q2 Hd. destruct d as [tk |].
  - invert_step H as cl q3 Hcl. destruct dflt as [| d0 dflt].
    + invert_step H as stmts q4 Hstmts.
      apply caseBody_stmtTree in Hstmts; [| reflexivity].
      eapply IH; [exact Hcond | exact Hstmts | exact Hcases | exact H].
    + invert_step H as cur q4 Hcur. discriminate.
  - invert_step H as cur q3 Hcur. discriminate.
Qed.

Lemma parseSwitch_stmtTree (fuel : nat) :
  builds (fun n => stmtTree n = true) (parseSwitch_ prec fuel callStmt).
Proof.
  intros p p' n H. unfold parseSwitch_ in H.
  invert_step H as kw q0 Hkw. invert_step H as op q1 Hop.
  invert_step H as cond q2 Hcond. invert_step H as cp q3 Hcp.
  invert_step H as ob q4 Hob.
  apply parseExpression_exprTree in Hcond.
  exact (switchLoop_stmtTree fuel cond [] [] Hcond eq_refl eq_refl _ _ _ H).
Qed.

End StatementTrees.

Lemma parseVarDecl_stmtTree (fuel : nat) :
  builds (fun n => stmtTree n = true) (parseVarDecl fuel).
Proof.
  intros p p' n H. unfold parseVarDecl in H.
  invert_step H as kw q0 Hkw. invert_step H as vars q1 Hvars.
  invert_step H as sc q2 Hsc.
  destruct (Z.of_nat (List.length vars) <=? 0).
  - invert_step H as cur q3 Hcur. discriminate.
  - invert_ret H. reflexivity.
Qed.

Lemma parseExternVarDecl_stmtTree (fuel : nat) :
  builds (fun n => stmtTree n = true) (parseExternVarDecl fuel).
Proof.
  intros p p' n H. unfold parseExternVarDecl in H.
  invert_step H as kw q0 Hkw. invert_step H as names q1 Hnames.
  invert_step H as sc q2 Hsc.
  destruct (Z.of_nat (List.length names) <=? 0).
  - invert_step H as cur q3 Hcur. discriminate.
  - invert_ret H. reflexivity.
Qed.

Lemma exprStatement_stmtTree (prec : string -> Z) (fuel : nat) (pos : Z) :
  builds (fun n => stmtTree n = true) (exprStatement prec fuel pos).
Proof.
  intros p p' n H. unfold exprStatement in H.
  invert_step H as r q0 Hr. invert_step H as idx q1 Hidx.
  destruct r as [node | e].
  - invert_step H as sc q2 Hsc. invert_ret H.
    apply parseExpression_exprTree in Hr. exact Hr.
  - destruct (negb (idx =? pos)); [discriminate |].
    invert_step H as cur q2 Hcur. discriminate.
Qed.

Lemma identStatement_stmtTree (prec : string -> Z) (fuel : nat) (pos : Z) :
  builds (fun n => stmtTree n = true) (identStatement prec fuel pos).
Proof.
  intros p p' n H. unfold identStatement in H.
  invert_step H as i q0 Hi. destruct i as [tk |].
  - invert_step H as c q1 Hc. destruct c as [ctk |].
    + invert_ret H. reflexivity.
    + invert_step H as s q2 Hs. destruct s as [stk |].
      * invert_ret H. reflexivity.
      * invert_step H as u q3 Hu.
        eapply exprStatement_stmtTree. exact H.
  - eapply exprStatement_stmtTree. exact H.
Qed.

Lemma simpleStatement_stmtTree (prec : string -> Z) (fuel : nat) (pos : Z) :
  builds (fun n => stmtTree n = true) (simpleStatement prec fuel pos).
Proof.
  intros p p' n H. unfold simpleStatement in H.
  invert_step H as s q0 Hs. destruct s as [tk |].
  { invert_ret H. reflexivity. }
  invert_step H as b q1 Hb. destruct b as [tk |].
  { invert_step H as sc q2 Hsc. invert_ret H. reflexivity. }
  invert_step H as r q2 Hr. destruct r as [tk |].
  { invert_step H as s' q3 Hs'. destruct s' as [tk' |].
    - invert_ret H. reflexivity.
    - invert_step H as node q4 Hnode. invert_step H as sc q5 Hsc.
      invert_ret H. apply parseExpression_exprTree in Hnode.
      simpl. rewrite Hnode. reflexivity. }
  invert_step H as g q3 Hg. destruct g as [tk |].
  { invert_step H as id q4 Hid. invert_step H as sc q5 Hsc.
    invert_ret H. reflexivity. }
  eapply identStatement_stmtTree. exact H.
Qed.

Lemma parseStatement_stmtTree (prec : string -> Z) (fuel : nat) :
  builds (fun n => stmtTree n = true) (parseStatement prec fuel).
Proof.
  induction fuel as [| fuel IH]; intros p p' n H; [discriminate |].
  simpl in H. invert_step H as pos q0 Hpos.
  apply attempt_Ok_inv in H. destruct H as [H | (e1 & q1 & _ & H)].
  { eapply parseIf_stmtTree; eassumption. }
  apply attempt_Ok_inv in H. destruct H as [H | (e2 & q2 & _ & H)].
  { eapply parseBlock_stmtTree; eassumption. }
  apply attempt_Ok_inv in H. destruct H as [H | (e3 & q3 & _ & H)].
  { eapply parseVarDecl_stmtTree; eassumption. }
  apply attempt_Ok_inv in H. destruct H as [H | (e4 & q4 & _ & H)].
  { eapply parseExternVarDecl_stmtTree; eassumption. }
  apply attempt_Ok_inv in H. destruct H as [H | (e5 & q5 & _ & H)].
  { eapply parseWhile_stmtTree; eassumption. }
  apply attempt_Ok_inv in H. destruct H as [H | (e6 & q6 & _ & H)].
  { eapply parseSwitch_stmtTree; eassumption. }
  eapply simpleStatement_stmtTree. exact H.
Qed.

Lemma vecValuesLoop_constants (fuel : nat) (values : list Node) :
  forallb IsConstant values = true ->
  builds (fun l => forallb IsConstant l = true) (vecValuesLoop fuel values).
Proof.
  revert values. induction fuel as [| fuel IH]; intros values Hv p p' l H;
    [discriminate |].
  simpl in H. invert_step H as constant q0 Hconstant.
  apply parseConstant_builds_constant in Hconstant.
  invert_step H as c q1 Hc. destruct c as [tk |].
  - eapply IH; [| exact H]. apply forallb_snoc; assumption.
  - invert_ret H. apply forallb_snoc; assumption.
Qed.

Lemma parseExternalVariableInit_declTree (fuel : nat) :
  builds (fun n => declTree n = true) (parseExternalVariableInit fuel).
Proof.
  intros p p' n H. unfold parseExternalVariableInit in H.
  invert_step H as id q0 Hid. invert_step H as ob q1 Hob.
  destruct ob as [tk |].
  - invert_step H as size q2 Hsize. invert_step H as cb q3 Hcb.
    destruct (Atoi (value size)).
    + invert_step H as values q4 Hvalues. invert_step H as sc q5 Hsc.
      invert_ret H.
      exact (vecValuesLoop_constants fuel [] eq_refl _ _ _ Hvalues).
    + invert_step H as cur q4 Hcur. discriminate.
  - invert_step H as c q2 Hc. destruct c as [constant | e].
    + invert_step H as sc q3 Hsc. invert_ret H.
      exact (parseConstant_builds_constant _ _ _ Hc).
    + invert_step H as sc q3 Hsc. invert_ret H. reflexivity.
Qed.

Lemma parseTopLevel_declTree (prec : string -> Z) (fuel : nat) :
  builds (fun n => declTree n = true) (parseTopLevel prec fuel).
Proof.
  intros p p' n H. unfold parseTopLevel in H.
  invert_step H as pos q0 Hpos. invert_step H as r q1 Hinit.
  invert_step H as idx q2 Hidx. destruct r as [node | e].
  - invert_ret H. eapply parseExternalVariableInit_declTree. exact Hinit.
  - destruct (idx =? pos + 1); [| discriminate].
    invert_step H as u q3 Hset. unfold functionAlternative in H.
    invert_step H as r q4 Hfun. invert_step H as idx' q5 Hidx'.
    destruct r as [node | e'].
    + invert_ret H. unfold parseFuncDeclaration in Hfun.
      invert_step Hfun as id q6 Hid. invert_step Hfun as op q7 Hop.
      invert_step Hfun as params q8 Hparams. invert_step Hfun as cp q9 Hcp.
      invert_step Hfun as stmt q10 Hstmt. invert_ret Hfun.
      exact (parseStatement_stmtTree _ _ _ _ _ Hstmt).
    + destruct (negb (idx' =? pos)); [discriminate |].
      invert_step H as cur q6 Hcur. discriminate.
Qed.

Lemma parsedDecls_declTree (prec : string -> Z) (fuel fuel' : nat)
    (p p' : Parser) (nodes : list Node) :
  parsedDecls prec fuel p nodes fuel' p' ->
  Forall (fun n => declTree n = true) nodes.
Proof.
  induction 1 as [| n p p1 node nodes fuel' p' Heof Htop _ IH];
    constructor; [| exact IH].
  eapply parseTopLevel_declTree. exact Htop.
Qed.

(** Whatever expression [parseExpression] returns is an expression tree:
    its root is an expression of [IsExpr] or a string literal, and so is
    every operand, index, callee and argument below it. *)
Theorem parseExpression_builds_expression (prec : string -> Z) (fuel : nat)
    (p p' : Parser) (n : Node) :
  parseExpression prec fuel p = Ret (Ok n) p' ->
  exprTree n = true /\ (IsExpr n = true \/ exists s, n = StringNode s).
Proof.
  intros H. apply parseExpression_exprTree in H.
  split; [exact H | exact (exprTree_IsExpr n H)].
Qed.

Lemma parseExpression_builds_expression_witness :
  exprTree (FunctionCallNode (IdentNode "f") [StringNode "s"]) = true
  /\ (IsExpr (FunctionCallNode (IdentNode "f") [StringNode "s"]) = true
      \/ exists s, FunctionCallNode (IdentNode "f") [StringNode "s"]
                   = StringNode s).
Proof.
  refine (parseExpression_builds_expression specPrecedence 3
            (parserOn (lexed [ident "f"; openParen; tok tkString "s";
                              closeParen]))
            (streamOf "name"
               [ident "f"; openParen; tok tkString "s"; closeParen] [])
            _ _).
  vm_compute. reflexivity.
Defined.

(** Whatever statement [parseStatement] returns is a statement tree: its
    root is a statement of [IsStatement] or the null statement, conditions
    and operands are expression trees, bodies are statement trees, the
    conditions of cases are constants, and an [If] without [else] has no
    else body. *)
Theorem parseStatement_builds_statement (prec : string -> Z) (fuel : nat)
    (p p' : Parser) (n : Node) :
  parseStatement prec fuel p = Ret (Ok n) p' ->
  stmtTree n = true /\ (IsStatement n = true \/ n = NullNode).
Proof.
  intros H. apply parseStatement_stmtTree in H.
  split; [exact H | exact (stmtTree_IsStatement n H)].
Qed.

Lemma parseStatement_builds_statement_witness :
  stmtTree (ReturnNode (IdentNode "x")) = true
  /\ (IsStatement (ReturnNode (IdentNode "x")) = true
      \/ ReturnNode (IdentNode "x") = NullNode).
Proof.
  refine (parseStatement_builds_statement specPrecedence 3
            (parserOn (lexed [keyword "return"; ident "x"; semicolon]))
            (streamOf "name" [keyword "return"; ident "x"; semicolon] [])
            _ _).
  vm_compute. reflexivity.
Defined.

(** ** The unit of a whole input *)

Lemma parseLoop_at_eof (prec : string -> Z) (fuel : nat)
    (unit u : TranslationUnit) (p p' : Parser) :
  parseLoop prec fuel unit p = Ret (u, None) p' ->
  exists nodes fuel' pm eofTok,
    parsedDecls prec fuel p nodes fuel' pm
    /\ acceptType tkEof pm = Ret (Some eofTok) p'
    /\ u = fold_left addDecl nodes unit.
Proof.
  revert unit p.
  induction fuel as [| fuel IH]; intros unit p H; [discriminate |].
  simpl in H. invert_step H as eofTok q0 Heof. destruct eofTok as [tk |].
  { apply ret_inv in H. destruct H as [Heq <-]. injection Heq as ->.
    exists [], (S fuel), p, tk.
    split; [constructor | split; [exact Heof | reflexivity]]. }
  pose proof (accept_none_same tkEof "" p q0 Heof) as ->.
  invert_step H as r q1 Htop. destruct r as [node | err].
  - pose proof (parseTopLevel_builds_decl _ _ _ _ _ Htop) as Hdecl.
    assert (Hnext : parseLoop prec fuel (addDecl unit node) q1
                    = Ret (u, None) p')
      by (destruct node; try discriminate; exact H).
    apply IH in Hnext.
    destruct Hnext as (nodes & fuel' & pm & tk & Hdecls & Hend & Hu).
    exists (node :: nodes), fuel', pm, tk.
    split; [econstructor; eassumption | split; assumption].
  - apply ret_inv in H. destruct H as [Heq _]. discriminate.
Qed.

(** When [Parse] returns without an error the whole input has been parsed:
    the parser has gone through a sequence of top-level declarations up to
    the [Eof] token, which it has accepted, and the unit holds exactly these
    declarations in their order, the functions in [Funcs] and the
    initializers in [Vars], under the name of the lexer. *)
Theorem Parse_success_whole_input (prec : string -> Z) (fuel : nat)
    (p p' : Parser) (u : TranslationUnit) :
  Parse prec fuel p = Ret (u, None) p' ->
  exists nodes fuel' pm eofTok,
    parsedDecls prec fuel p nodes fuel' pm
    /\ acceptType tkEof pm = Ret (Some eofTok) p'
    /\ u = mkUnit (name (lex p)) (filter isFunction nodes)
             (filter (fun n => negb (isFunction n)) nodes).
Proof.
  unfold Parse. intros H.
  destruct (parseLoop prec fuel (mkUnit (name (lex p)) [] []) p)
    as [[u0 e0] q | v q |] eqn:Hloop; try discriminate.
  - injection H as -> -> ->. apply parseLoop_at_eof in Hloop.
    destruct Hloop as (nodes & fuel' & pm & tk & Hdecls & Hend & Hu).
    exists nodes, fuel', pm, tk. rewrite fold_addDecl in Hu.
    split; [exact Hdecls | split; [exact Hend | exact Hu]].
  - destruct v as [[etok emsg | lexErr] | rmsg]; discriminate.
Qed.

Lemma Parse_success_whole_input_witness :
  exists nodes fuel' pm eofTok,
    parsedDecls specPrecedence 3 (parserOn (lexed [ident "v"; semicolon]))
      nodes fuel' pm
    /\ acceptType tkEof pm
       = Ret (Some eofTok) (streamOf "name" [ident "v"; semicolon; eof] [])
    /\ mkUnit "name" [] [ExternVarInitNode "v" (IntegerNode 0)]
       = mkUnit "name" (filter isFunction nodes)
           (filter (fun n => negb (isFunction n)) nodes).
Proof.
  refine (Parse_success_whole_input specPrecedence 3
            (parserOn (lexed [ident "v"; semicolon]))
            (streamOf "name" [ident "v"; semicolon; eof] [])
            (mkUnit "name" [] [ExternVarInitNode "v" (IntegerNode 0)]) _).
  vm_compute. reflexivity.
Defined.

Lemma parseLoop_decls (prec : string -> Z) (fuel : nat)
    (unit u : TranslationUnit) (err : option error) (p p' : Parser) :
  parseLoop prec fuel unit p = Ret (u, err) p' ->
  exists nodes fuel' pm,
    parsedDecls prec fuel p nodes fuel' pm
    /\ u = fold_left addDecl nodes unit.
Proof.
  intros H. destruct err as [e |].
  - apply parseLoop_syntax_error in H.
    destruct H as (nodes & n & pm & Hdecls & _ & _ & Hu).
    exists nodes, (S n), pm. split; assumption.
  - apply parseLoop_at_eof in H.
    destruct H as (nodes & fuel' & pm & tk & Hdecls & _ & Hu).
    exists nodes, fuel', pm. split; assumption.
Qed.

(** Whatever unit [Parse] returns, with or without an error, is sorted:
    [Funcs] holds only functions, whose bodies are statement trees, and
    [Vars] holds only initializers, whose values are constants. *)
Theorem Parse_builds_declarations (prec : string -> Z) (fuel : nat)
    (p p' : Parser) (u : TranslationUnit) (err : option error) :
  Parse prec fuel p = Ret (u, err) p' ->
  Forall (fun n => isFunction n = true /\ declTree n = true) (Funcs u)
  /\ Forall (fun n => isFunction n = false /\ declTree n = true) (Vars u).
Proof.
  unfold Parse. intros H.
  assert (Hloop : (u = emptyUnit)
                  \/ exists q, parseLoop prec fuel
                                 (mkUnit (name (lex p)) [] []) p
                               = Ret (u, err) q).
  { destruct (parseLoop prec fuel (mkUnit (name (lex p)) [] []) p)
      as [[u0 e0] q | v q |]; try discriminate.
    - injection H as -> -> _. right. exists q. reflexivity.
    - destruct v as [[etok emsg | lexErr] | rmsg]; try discriminate.
      injection H as <- _ _. left. reflexivity. }
  destruct Hloop as [-> | [q Hloop]]; [split; constructor |].
  apply parseLoop_decls in Hloop.
  destruct Hloop as (nodes & fuel' & pm & Hdecls & ->).
  apply parsedDecls_declTree in Hdecls.
  rewrite fold_addDecl. cbn [Funcs Vars app].
  split; apply Forall_forall; intros n Hin; apply filter_In in Hin;
    destruct Hin as [Hin Hf];
    (split; [| exact (proj1 (Forall_forall _ _) Hdecls n Hin)]).
  - exact Hf.
  - apply negb_true_iff. exact Hf.
Qed.

Lemma Parse_builds_declarations_witness :
  Forall (fun n => isFunction n = true /\ declTree n = true)
    [FunctionNode "f" [] NullNode]
  /\ Forall (fun n => isFunction n = false /\ declTree n = true)
       [ExternVarInitNode "v" (IntegerNode 0)].
Proof.
  refine (Parse_builds_declarations specPrecedence 5
            (parserOn (lexed [ident "f"; openParen; closeParen; semicolon;
                              ident "v"; semicolon]))
            (streamOf "name"
               [ident "f"; openParen; closeParen; semicolon;
                ident "v"; semicolon; eof] [])
            (mkUnit "name" [FunctionNode "f" [] NullNode]
               [ExternVarInitNode "v" (IntegerNode 0)])
            None _).
  vm_compute. reflexivity.
Defined.

(** ** Lex errors are never returned as values *)

Lemma bindOk_Err_inv {A B} (m : M (result A)) (k : A -> M (result B))
    (p p' : Parser) (e : error) :
  bindOk m k p = Ret (Err e) p' ->
  m p = Ret (Err e) p'
  \/ exists a q, m p = Ret (Ok a) q /\ k a q = Ret (Err e) p'.
Proof.
  unfold bindOk. intros H. apply bind_Ret_inv in H.
  destruct H as ([a | e0] & q & Hm & Hk).
  - right. exists a, q. split; assumption.
  - left. apply ret_inv in Hk. destruct Hk as [Heq <-].
    injection Heq as <-. exact Hm.
Qed.

Create HintDb syntaxerr.

(** The error of a call about which the errors are known. *)
Ltac err_known :=
  match goal with
  | Hm : ?m ?p = Ret (Err ?e) ?q |- isSyntaxError ?e =>
      refine ((_ : syntaxErrors m) p q e Hm); solve [eauto with syntaxerr]
  end.

(** Takes a run that ends in an error apart, down to the call that made the
    error. *)
Ltac err_inv H :=
  cbv beta in H;
  lazymatch type of H with
  | ret _ _ = Ret _ _ =>
      apply ret_inv in H; destruct H as [H _];
      first [ discriminate H
            | injection H as <-; first [exact I | err_known] ]
  | outOfFuel _ = Ret _ _ => discriminate H
  | panic _ _ = Ret _ _ => discriminate H
  | bindOk _ _ _ = Ret _ _ =>
      let Hm := fresh "Hm" in
      let a := fresh "a" in
      let q := fresh "q" in
      apply bindOk_Err_inv in H;
      destruct H as [Hm | (a & q & Hm & H)];
      [ err_inv Hm | err_inv H ]
  | bind _ _ _ = Ret _ _ =>
      let Hm := fresh "Hm" in
      let a := fresh "a" in
      let q := fresh "q" in
      apply bind_Ret_inv in H;
      destruct H as (a & q & Hm & H);
      err_inv H
  | (match ?x with _ => _ end) _ = Ret _ _ => destruct x; err_inv H
  | _ => err_known
  end.

Lemma expect_syntaxErrors (t : TokenType) (str : string) :
  syntaxErrors (expect t str).
Proof.
  intros p p' e H. unfold expect in H. err_inv H.
Qed.
#[local] Hint Resolve expect_syntaxErrors : syntaxerr.

Lemma expectOneOf_syntaxErrors (ts : list TokenType) :
  syntaxErrors (expectOneOf ts).
Proof.
  intros p p' e H. unfold expectOneOf in H. err_inv H.
Qed.
#[local] Hint Resolve expectOneOf_syntaxErrors : syntaxerr.

Lemma parseConstant_syntaxErrors : syntaxErrors parseConstant.
Proof.
  intros p p' e H. unfold parseConstant in H. err_inv H.
Qed.
#[local] Hint Resolve parseConstant_syntaxErrors : syntaxerr.

Lemma parseIdent_syntaxErrors : syntaxErrors parseIdent.
Proof.
  intros p p' e H. unfold parseIdent, expectType in H. err_inv H.
Qed.
#[local] Hint Resolve parseIdent_syntaxErrors : syntaxerr.

Section ExpressionErrors.

Variable prec : string -> Z.
Variable callExpr : M (result Node).
Hypothesis callExpr_syntaxErrors : syntaxErrors callExpr.

Lemma parseParen_syntaxErrors : syntaxErrors (parseParen_ callExpr).
Proof.
  intros p p' e H. unfold parseParen_, expectType in H. err_inv H.
Qed.

Lemma parseArgs_syntaxErrors (fuel : nat) (args : list Node) :
  syntaxErrors (parseArgs fuel callExpr args).
Proof.
  revert args. induction fuel as [| fuel IH]; intros args p p' e H;
    [discriminate |].
  simpl in H. err_inv H.
Qed.

Lemma parsePrimary_syntaxErrors (fuel : nat) :
  syntaxErrors (parsePrimary_ fuel callExpr).
Proof.
  pose proof parseParen_syntaxErrors as Hsub1. pose proof (parseArgs_syntaxErrors fuel) as Hsub2.
  intros p p' e H. unfold parsePrimary_, orElse, expectType in H. err_inv H.
Qed.

Lemma parseSubExpression_syntaxErrors (fuel : nat) :
  syntaxErrors (parseSubExpression_ fuel callExpr).
Proof.
  pose proof (parsePrimary_syntaxErrors fuel) as Hsub3.
  intros p p' e H. unfold parseSubExpression_ in H. err_inv H.
Qed.

End ExpressionErrors.

Lemma parseExpression_syntaxErrors (prec : string -> Z) (fuel : nat) :
  syntaxErrors (parseExpression prec fuel).
Proof.
  induction fuel as [| fuel IH]; intros p p' e H; [discriminate |].
  pose proof (parseSubExpression_syntaxErrors _ IH fuel) as Hsub4.
  simpl in H. unfold expectType in H. err_inv H.
Qed.
#[local] Hint Resolve parseExpression_syntaxErrors : syntaxerr.

Lemma variableListLoop_syntaxErrors (fuel : nat) (id : Token)
    (vars : list string) :
  syntaxErrors (variableListLoop fuel id vars).
Proof.
  revert id vars. induction fuel as [| fuel IH]; intros id vars p p' e H;
    [discriminate |].
  simpl in H. unfold expectType in H. err_inv H.
Qed.

Lemma parseVariableList_syntaxErrors (fuel : nat) :
  syntaxErrors (parseVariableList fuel).
Proof.
  pose proof (variableListLoop_syntaxErrors fuel) as Hsub5.
  intros p p' e H. unfold parseVariableList in H. err_inv H.
Qed.
#[local] Hint Resolve parseVariableList_syntaxErrors : syntaxerr.

Lemma parseExternVarDecl_syntaxErrors (fuel : nat) :
  syntaxErrors (parseExternVarDecl fuel).
Proof.
  intros p p' e H. unfold parseExternVarDecl, expectType in H. err_inv H.
Qed.
#[local] Hint Resolve parseExternVarDecl_syntaxErrors : syntaxerr.

Lemma varDeclLoop_syntaxErrors (fuel : nat) (vars : list VarDecl) :
  syntaxErrors (varDeclLoop fuel vars).
Proof.
  revert vars. induction fuel as [| fuel IH]; intros vars p p' e H;
    [discriminate |].
  simpl in H. unfold expectType in H. err_inv H.
Qed.
#[local] Hint Resolve varDeclLoop_syntaxErrors : syntaxerr.

Lemma parseVarDecl_syntaxErrors (fuel : nat) :
  syntaxErrors (parseVarDecl fuel).
Proof.
  intros p p' e H. unfold parseVarDecl, expectType in H. err_inv H.
Qed.
#[local] Hint Resolve parseVarDecl_syntaxErrors : syntaxerr.

Lemma vecValuesLoop_syntaxErrors (fuel : nat) (values : list Node) :
  syntaxErrors (vecValuesLoop fuel values).
Proof.
  revert values. induction fuel as [| fuel IH]; intros values p p' e H;
    [discriminate |].
  simpl in H. err_inv H.
Qed.
#[local] Hint Resolve vecValuesLoop_syntaxErrors : syntaxerr.

Lemma parseExternalVariableInit_syntaxErrors (fuel : nat) :
  syntaxErrors (parseExternalVariableInit fuel).
Proof.
  intros p p' e H. unfold parseExternalVariableInit, expectType in H.
  err_inv H.
Qed.
#[local] Hint Resolve parseExternalVariableInit_syntaxErrors : syntaxerr.

Section StatementErrors.

Variable prec : string -> Z.
Variable callStmt : M (result Node).
Hypothesis callStmt_syntaxErrors : syntaxErrors callStmt.

Lemma blockLoop_syntaxErrors (fuel : nat) (nodes : list Node) :
  syntaxErrors (blockLoop fuel callStmt nodes).
Proof.
  revert nodes. induction fuel as [| fuel IH]; intros nodes p p' e H;
    [discriminate |].
  simpl in H. err_inv H.
Qed.

Lemma parseBlock_syntaxErrors (fuel : nat) :
  syntaxErrors (parseBlock_ fuel callStmt).
Proof.
  pose proof (blockLoop_syntaxErrors fuel) as Hsub6.
  intros p p' e H. unfold parseBlock_, expectType in H. err_inv H.
Qed.

Lemma parseIf_syntaxErrors (fuel : nat) :
  syntaxErrors (parseIf_ prec fuel callStmt).
Proof.
  intros p p' e H. unfold parseIf_, expectType in H. err_inv H.
Qed.

Lemma parseWhile_syntaxErrors (fuel : nat) :
  syntaxErrors (parseWhile_ prec fuel callStmt).
Proof.
  intros p p' e H. unfold parseWhile_, expectType in H. err_inv H.
Qed.

Lemma caseBody_syntaxErrors (fuel : nat) (stmts : list Node) :
  syntaxErrors (caseBody fuel callStmt stmts).
Proof.
  revert stmts. induction fuel as [| fuel IH]; intros stmts p p' e H;
    [discriminate |].
  simpl in H. err_inv H.
Qed.

Lemma switchLoop_syntaxErrors (fuel : nat) (cond : Node)
    (dflt : list Node) (cases : list CaseNode) :
  syntaxErrors (switchLoop fuel callStmt cond dflt cases).
Proof.
  revert dflt cases.
  induction fuel as [| fuel IH]; intros dflt cases p p' e H; [discriminate |].
  pose proof (caseBody_syntaxErrors fuel) as Hsub7.
  simpl in H. unfold expectType in H. err_inv H.
Qed.

Lemma parseSwitch_syntaxErrors (fuel : nat) :
  syntaxErrors (parseSwitch_ prec fuel callStmt).
Proof.
  pose proof (switchLoop_syntaxErrors fuel) as Hsub8.
  intros p p' e H. unfold parseSwitch_, expectType in H. err_inv H.
Qed.

End StatementErrors.

Lemma exprStatement_syntaxErrors (prec : string -> Z) (fuel : nat) (pos : Z) :
  syntaxErrors (exprStatement prec fuel pos).
Proof.
  intros p p' e H. unfold exprStatement, expectType in H. err_inv H.
Qed.
#[local] Hint Resolve exprStatement_syntaxErrors : syntaxerr.

Lemma identStatement_syntaxErrors (prec : string -> Z) (fuel : nat)
    (pos : Z) :
  syntaxErrors (identStatement prec fuel pos).
Proof.
  intros p p' e H. unfold identStatement in H. err_inv H.
Qed.
#[local] Hint Resolve identStatement_syntaxErrors : syntaxerr.

Lemma simpleStatement_syntaxErrors (prec : string -> Z) (fuel : nat)
    (pos : Z) :
  syntaxErrors (simpleStatement prec fuel pos).
Proof.
  intros p p' e H. unfold simpleStatement, expectType in H. err_inv H.
Qed.
#[local] Hint Resolve simpleStatement_syntaxErrors : syntaxerr.

Lemma parseStatement_syntaxErrors (prec : string -> Z) (fuel : nat) :
  syntaxErrors (parseStatement prec fuel).
Proof.
  induction fuel as [| fuel IH]; intros p p' e H; [discriminate |].
  pose proof (parseIf_syntaxErrors prec _ IH fuel) as Hsub9.
  pose proof (parseBlock_syntaxErrors _ IH fuel) as Hsub10.
  pose proof (parseWhile_syntaxErrors prec _ IH fuel) as Hsub11.
  pose proof (parseSwitch_syntaxErrors prec _ IH fuel) as Hsub12.
  simpl in H. unfold attempt in H. err_inv H.
Qed.
#[local] Hint Resolve parseStatement_syntaxErrors : syntaxerr.

Lemma parseFuncDeclaration_syntaxErrors (prec : string -> Z) (fuel : nat) :
  syntaxErrors (parseFuncDeclaration prec fuel).
Proof.
  intros p p' e H. unfold parseFuncDeclaration, expectType in H. err_inv H.
Qed.
#[local] Hint Resolve parseFuncDeclaration_syntaxErrors : syntaxerr.

Lemma parseTopLevel_syntaxErrors (prec : string -> Z) (fuel : nat) :
  syntaxErrors (parseTopLevel prec fuel).
Proof.
  intros p p' e H. unfold parseTopLevel, functionAlternative in H. err_inv H.
Qed.

(** A lex error is never part of what [parseTopLevel] returns; so a lex
    error that [Parse] returns is one it has recovered from a panic, and it
    comes with the empty unit: the file name and the declarations parsed
    before the error are dropped, unlike for a syntax error. *)
Theorem Parse_lex_error_empty_unit (prec : string -> Z) (fuel : nat)
    (p p' : Parser) (u : TranslationUnit) (lexErr : LexError) :
  Parse prec fuel p = Ret (u, Some (LexErr lexErr)) p' ->
  u = emptyUnit.
Proof.
  unfold Parse. intros H.
  destruct (parseLoop prec fuel (mkUnit (name (lex p)) [] []) p)
    as [[u0 e0] q | v q |] eqn:Hloop; try discriminate.
  - injection H as -> -> ->. apply parseLoop_syntax_error in Hloop.
    destruct Hloop as (nodes & n & pm & _ & _ & Herr & _).
    destruct (parseTopLevel_syntaxErrors prec n pm p' _ Herr).
  - destruct v as [[etok emsg | lexErr'] | rmsg]; try discriminate.
    injection H as <- _ _. reflexivity.
Qed.

Lemma Parse_lex_error_empty_unit_witness :
  parseInput specPrecedence 4 "name" lexErrorAfterDecl
  = Ret (emptyUnit,
         Some (LexErr (mkLexError (tok tkError "bad") "bad")))
      (mkParser (mkLexer "name" [])
         [ident "v"; semicolon; ident "w"; semicolon] 4)
  /\ mkUnit "" [] [] = emptyUnit.
Proof.
  split; [vm_compute; reflexivity |].
  refine (Parse_lex_error_empty_unit specPrecedence 4
            (parserOn lexErrorAfterDecl)
            (mkParser (mkLexer "name" [])
               [ident "v"; semicolon; ident "w"; semicolon] 4)
            (mkUnit "" [] []) (mkLexError (tok tkError "bad") "bad") _).
  vm_compute. reflexivity.
Defined.

(** ** Operands and operators stay in their order *)

Lemma resolve_inorder (prec : string -> Z) (node rhs : Node) (oper : string) :
  inorder (resolve prec node oper rhs) = inorder node ++ oper :: inorder rhs.
Proof.
  unfold resolve. destruct rhs; try reflexivity.
  destruct (prec oper >? prec Oper); [| reflexivity].
  cbn [inorder]. rewrite <- app_assoc. reflexivity.
Qed.

Lemma expectOneOf_streamOf_other (kinds : list TokenType) (nm : string)
    (pre ts : list Token) :
  find (fun ty => TokenType_eqb (kind (hd eof ts)) ty) kinds = None ->
  exists e, expectOneOf kinds (streamOf nm pre ts)
            = Ret (Err e) (streamOf nm pre ts).
Proof.
  intros Hf. unfold expectOneOf.
  rewrite (bind_Ret _ _ _ _ _ (token_streamOf nm pre ts)), Hf.
  rewrite (bind_Ret _ _ _ _ _ (token_streamOf nm pre ts)).
  eexists. reflexivity.
Qed.

(** An identifier that no bracket, parenthesis or postfix operator follows
    is a sub-expression of its own. *)
Lemma parseSubExpression_ident (fuel : nat) (callExpr : M (result Node))
    (nm : string) (pre : list Token) (a : string) (nx : Token)
    (more : list Token) :
  TokenType_eqb (kind nx) tkOpenBracket = false ->
  TokenType_eqb (kind nx) tkOpenParen = false ->
  TokenType_eqb (kind nx) tkOperator && isPostfixOp (value nx) = false ->
  parseSubExpression_ fuel callExpr (streamOf nm pre (ident a :: nx :: more))
  = Ret (Ok (IdentNode a)) (streamOf nm (pre ++ [ident a]) (nx :: more)).
Proof.
  intros Hbracket Hparen Hpost.
  assert (Hprimary :
            parsePrimary_ fuel callExpr
              (streamOf nm pre (ident a :: nx :: more))
            = Ret (Ok (IdentNode a))
                (streamOf nm (pre ++ [ident a]) (nx :: more))).
  { unfold parsePrimary_.
    assert (Hfirst :
              orElse (parseParen_ callExpr)
                (orElse parseConstant
                   (orElse parseIdent
                      (cur <- token ;;
                       ret (Err (NewParseError cur
                                   "expected primary expression")))))
                (streamOf nm pre (ident a :: nx :: more))
              = Ret (Ok (IdentNode a))
                  (streamOf nm (pre ++ [ident a]) (nx :: more))).
    { unfold orElse at 1, parseParen_.
      destruct (leading_expect_mismatch tkOpenParen ""
                  (fun _ => inner <~ callExpr ;;
                            _ <~ expectType tkCloseParen ;;
                            ret (Ok (ParenNode inner)))
                  _ _ (token_streamOf nm pre (ident a :: nx :: more))
                  eq_refl) as [e1 He1].
      unfold expectType. rewrite (bind_Ret _ _ _ _ _ He1).
      unfold orElse at 1, parseConstant.
      destruct (expectOneOf_streamOf_other [tkNumber; tkCharacter; tkString]
                  nm pre (ident a :: nx :: more) eq_refl) as [e2 He2].
      rewrite (bind_Ret _ _ _ _ _ (bindOk_Err _ _ _ _ _ He2)).
      unfold orElse, parseIdent, expectType.
      rewrite (bind_Ret _ _ _ _ _
                 (bindOk_Ok _ _ _ _ _
                    (expect_streamOf tkIdent "" nm pre (ident a) _
                       eq_refl eq_refl))).
      reflexivity. }
    rewrite (bindOk_Ok _ _ _ _ _ Hfirst). unfold acceptType.
    rewrite (bind_Ret _ _ _ _ _
               (accept_streamOf_other tkOpenBracket "" nm _ (nx :: more)
                  Hbracket)).
    rewrite (bind_Ret _ _ _ _ _
               (accept_streamOf_other tkOpenParen "" nm _ (nx :: more)
                  Hparen)).
    reflexivity. }
  unfold parseSubExpression_, acceptType.
  rewrite (bind_Ret _ _ _ _ _
             (accept_streamOf_other tkOperator "" nm pre
                (ident a :: nx :: more) eq_refl)).
  cbv iota.
  rewrite (bindOk_Ok (ret (Ok ""%string)) _ _ _ _ eq_refl).
  rewrite (bindOk_Ok _ _ _ _ _ Hprimary).
  cbv zeta. change (("" =? "")%string) with true. cbv iota.
  rewrite (bind_Ret _ _ _ _ _ (token_streamOf nm _ (nx :: more))).
  cbn [hd]. rewrite Hpost. reflexivity.
Qed.

(** A chain of identifiers and binary operators is parsed to the end, and
    whatever the precedence table makes of the nesting, the operands and
    operators of the tree are those of the source, in their order. *)
Theorem binary_chain_keeps_order (prec : string -> Z) (nm : string)
    (stop : Token) (tail : list Token) (rest : list (string * string))
    (a : string) (pre : list Token) (fuel : nat) :
  Forall (fun ob => isPostfixOp (fst ob) = false) rest ->
  endsExpression stop = true ->
  (List.length rest < fuel)%nat ->
  exists tree,
    parseExpression prec fuel
      (streamOf nm pre (chainTokens a rest ++ stop :: tail))
    = Ret (Ok tree) (streamOf nm (pre ++ chainTokens a rest) (stop :: tail))
    /\ inorder tree = chainText a rest.
Proof.
  intros Hrest Hstop. revert a pre fuel.
  assert (Hs : TokenType_eqb (kind stop) tkOperator = false
               /\ TokenType_eqb (kind stop) tkOpenBracket = false
               /\ TokenType_eqb (kind stop) tkOpenParen = false
               /\ TokenType_eqb (kind stop) tkTernary = false).
  { unfold endsExpression in Hstop. apply negb_true_iff in Hstop.
    cbn [existsb] in Hstop.
    repeat (apply orb_false_iff in Hstop; destruct Hstop as [? Hstop]).
    tauto. }
  destruct Hs as (Hop & Hbracket & Hparen & Hternary).
  induction Hrest as [| [o b] rest Ho Hrest IH]; intros a pre fuel Hf;
    (destruct fuel as [| fuel]; [cbn in Hf; lia |]).
  - exists (IdentNode a). split; [| reflexivity].
    cbn [chainTokens flat_map app parseExpression].
    rewrite (bindOk_Ok _ _ _ _ _
               (parseSubExpression_ident fuel _ nm pre a stop tail
                  Hbracket Hparen ltac:(rewrite Hop; reflexivity))).
    unfold acceptType.
    rewrite (bind_Ret _ _ _ _ _
               (accept_streamOf_other tkOperator "" nm _ (stop :: tail) Hop)).
    cbv iota. rewrite (bindOk_Ok (ret (Ok (IdentNode a))) _ _ _ _ eq_refl).
    rewrite (bind_Ret _ _ _ _ _
               (accept_streamOf_other tkTernary "" nm _ (stop :: tail)
                  Hternary)).
    reflexivity.
  - destruct (IH b ((pre ++ [ident a]) ++ [operator o]) fuel
                ltac:(cbn in Hf; lia)) as (rhs & Hrhs & Hin).
    exists (resolve prec (IdentNode a) o rhs).
    split; [| rewrite resolve_inorder, Hin; reflexivity].
    unfold chainTokens in Hrhs |- *.
    cbn [flat_map app fst snd parseExpression] in Hrhs |- *.
    rewrite (bindOk_Ok _ _ _ _ _
               (parseSubExpression_ident fuel _ nm pre a (operator o) _
                  eq_refl eq_refl ltac:(cbn in Ho |- *; exact Ho))).
    unfold acceptType.
    rewrite (bind_Ret _ _ _ _ _
               (accept_streamOf tkOperator "" nm _ (operator o) _
                  eq_refl eq_refl)).
    cbv iota.
    match goal with
    | |- bindOk ?m _ ?st = _ =>
        match type of Hrhs with
        | _ = Ret _ ?st' =>
            assert (Hnode1 :
                     m st = Ret (Ok (resolve prec (IdentNode a) o rhs)) st')
              by (rewrite (bindOk_Ok _ _ _ _ _ Hrhs); reflexivity)
        end
    end.
    rewrite (bindOk_Ok _ _ _ _ _ Hnode1).
    rewrite (bind_Ret _ _ _ _ _
               (accept_streamOf_other tkTernary "" nm _ (stop :: tail)
                  Hternary)).
    unfold ret. do 2 f_equal. rewrite <- !app_assoc. reflexivity.
Qed.

Lemma binary_chain_keeps_order_witness :
  exists tree,
    parseExpression specPrecedence 3
      (parserOn (lexed [ident "a"; operator "*"; ident "b"; operator "+";
                        ident "c"; semicolon]))
    = Ret (Ok tree)
        (streamOf "name"
           [ident "a"; operator "*"; ident "b"; operator "+"; ident "c"]
           [semicolon])
    /\ inorder tree = ["a"; "*"; "b"; "+"; "c"].
Proof.
  exact (binary_chain_keeps_order specPrecedence "name" semicolon []
           [("*", "b"); ("+", "c")] "a" [] 3
           ltac:(repeat constructor) eq_refl ltac:(cbn; lia)).
Defined.

(** ** Reading again after a rewind *)

Lemma nth_error_app_left {A} (l l' : list A) (i : nat) :
  (i < List.length l)%nat -> nth_error (l ++ l') i = nth_error l i.
Proof. intros H. apply nth_error_app1. exact H. Qed.

(** A token that [nextToken] has produced is produced again, from the
    buffer, when the index is put back: the lexer is not asked twice. *)
Lemma nextToken_again (p p1 : Parser) (t : Token) :
  -1 <= tokIdx p < Z.of_nat (List.length (tokens p)) ->
  nextToken p = Ret (Ok t) p1 ->
  nextToken (rewindTo p1 (tokIdx p)) = Ret (Ok t) p1
  /\ tokIdx p1 = tokIdx p + 1
  /\ exists more, tokens p1 = tokens p ++ more.
Proof.
  intros Hr H. destruct p as [l ts i]. cbn [tokIdx tokens] in Hr.
  unfold nextToken in H |- *. cbn [tokIdx tokens lex] in H.
  destruct (i + 1 <? Z.of_nat (List.length ts)) eqn:Hlt.
  - unfold bind, tokenAt in H. cbn [tokens] in H.
    destruct ((0 <=? i + 1) && (i + 1 <? Z.of_nat (List.length ts)));
      [| discriminate].
    destruct (nth_error ts (Z.to_nat (i + 1))) as [t' |] eqn:Hn;
      [| discriminate].
    apply ret_inv in H. destruct H as [Heq <-]. injection Heq as ->.
    unfold rewindTo. cbn [tokIdx tokens lex]. rewrite Hlt.
    unfold bind, tokenAt. cbn [tokens].
    replace ((0 <=? i + 1) && (i + 1 <? Z.of_nat (List.length ts)))
      with true by (symmetry; apply andb_true_iff; split;
                    [apply Z.leb_le; lia | exact Hlt]).
    rewrite Hn. split; [reflexivity |]. split; [reflexivity |].
    exists []. rewrite app_nil_r. reflexivity.
  - apply Z.ltb_ge in Hlt.
    destruct (NextToken l) as [[t' [e |]] l']; [discriminate |].
    injection H as -> <-.
    unfold rewindTo. cbn [tokIdx tokens lex].
    rewrite length_app. cbn [List.length].
    replace (i + 1 <? Z.of_nat (List.length ts + 1)) with true
      by (symmetry; apply Z.ltb_lt; lia).
    unfold bind, tokenAt. cbn [tokens]. rewrite length_app.
    cbn [List.length].
    replace ((0 <=? i + 1) && (i + 1 <? Z.of_nat (List.length ts + 1)))
      with true by (symmetry; apply andb_true_iff; split;
                    [apply Z.leb_le | apply Z.ltb_lt]; lia).
    replace (Z.to_nat (i + 1)) with (List.length ts) by lia.
    rewrite nth_error_app2 by lia. rewrite Nat.sub_diag.
    split; [reflexivity |]. split; [reflexivity |]. exists [t]. reflexivity.
Qed.

(** Backtracking costs nothing: when [accept] has taken a token and the
    index is put back where it was, as [parseStatement], [parseTopLevel]
    and the bodies of cases do, the same [accept] takes the same token again
    and leaves the very same parser. *)
Theorem accept_again_after_rewind (t : TokenType) (str : string)
    (p p1 : Parser) (cur : Token) :
  accept t str p = Ret (Some cur) p1 ->
  accept t str (rewindTo p1 (tokIdx p)) = Ret (Some cur) p1.
Proof.
  intros H. unfold accept in H.
  apply bind_Ret_inv in H. destruct H as (c & q & Hc & H).
  pose proof (token_same _ _ _ Hc) as ->.
  pose proof (proj1 (tokenAt_Ret _ _ _ _ Hc)) as Hr.
  pose proof (proj2 (tokenAt_Ret _ _ _ _ Hc)) as Hnth.
  destruct (TokenType_eqb (kind c) t) eqn:Hk;
    [| apply ret_inv in H; destruct H as [Heq _]; discriminate].
  destruct ((str =? "")%string || (str =? value c)%string) eqn:Hs;
    [| apply ret_inv in H; destruct H as [Heq _]; discriminate].
  apply bind_Ret_inv in H. destruct H as ([] & q & Hn & H).
  apply ret_inv in H. destruct H as [Heq <-]. injection Heq as ->.
  unfold nextTokenOrPanic in Hn.
  apply bind_Ret_inv in Hn. destruct Hn as (r & q' & Hn & Hr').
  destruct r as [t' | e]; [| discriminate].
  apply ret_inv in Hr'. destruct Hr' as [_ ->].
  destruct (nextToken_again p q t' ltac:(lia) Hn)
    as (Hagain & Hidx & more & Hmore).
  assert (Htok : token (rewindTo q (tokIdx p))
                 = Ret cur (rewindTo q (tokIdx p))).
  { unfold token, bind, getIdx, rewindTo, tokenAt. cbn [tokIdx tokens].
    rewrite Hmore, length_app.
    replace ((0 <=? tokIdx p)
             && (tokIdx p
                 <? Z.of_nat (List.length (tokens p) + List.length more)))
      with true by (symmetry; apply andb_true_iff; split;
                    [apply Z.leb_le | apply Z.ltb_lt]; lia).
    rewrite nth_error_app_left by lia. rewrite Hnth. reflexivity. }
  assert (Hnext : nextTokenOrPanic (rewindTo q (tokIdx p)) = Ret tt q).
  { unfold nextTokenOrPanic. rewrite (bind_Ret _ _ _ _ _ Hagain).
    reflexivity. }
  unfold accept. rewrite (bind_Ret _ _ _ _ _ Htok), Hk, Hs.
  rewrite (bind_Ret _ _ _ _ _ Hnext). reflexivity.
Qed.

Lemma accept_again_after_rewind_witness :
  accept tkIdent ""
    (rewindTo (streamOf "name" [ident "x"] [semicolon]) 0)
  = Ret (Some (ident "x")) (streamOf "name" [ident "x"] [semicolon]).
Proof.
  exact (accept_again_after_rewind tkIdent ""
           (parserOn (lexed [ident "x"; semicolon]))
           (streamOf "name" [ident "x"] [semicolon]) (ident "x") eq_refl).
Defined.

(** ** Nothing to parse *)

(** On a parser that stands on [Eof], whatever it has read before, [Parse]
    returns at once: a unit with the name of the lexer, no functions and no
    variables, and no error.  Empty input is the case of a new parser. *)
Theorem Parse_at_eof_empty_unit (prec : string -> Z) (fuel : nat)
    (p p1 : Parser) (cur : Token) :
  token p = Ret cur p ->
  kind cur = tkEof ->
  nextTokenOrPanic p = Ret tt p1 ->
  Parse prec (S fuel) p = Ret (mkUnit (name (lex p)) [] [], None) p1.
Proof.
  intros Hc Hk Hn. unfold Parse. cbn [parseLoop].
  rewrite (bind_Ret _ _ _ _ _ (accept_match tkEof p p1 cur Hc Hk Hn)).
  reflexivity.
Qed.

Lemma Parse_at_eof_empty_unit_witness :
  parseInput specPrecedence 1 "empty.b" []
  = Ret (mkUnit "empty.b" [] [], None) (streamOf "empty.b" [eof] []).
Proof.
  exact (Parse_at_eof_empty_unit specPrecedence 0
           (streamOf "empty.b" [] []) (streamOf "empty.b" [eof] []) eof
           eq_refl eq_refl eq_refl).
Defined.

(** ** Statements, written and read back *)

Lemma accept_declines (t : TokenType) (str : string) (p : Parser)
    (cur : Token) :
  token p = Ret cur p -> leads t str cur = false ->
  accept t str p = Ret None p.
Proof.
  intros Hc Hl. unfold accept. rewrite (bind_Ret _ _ _ _ _ Hc).
  unfold leads in Hl.
  destruct (TokenType_eqb (kind cur) t); [| reflexivity].
  cbn [andb] in Hl. rewrite Hl. reflexivity.
Qed.

Lemma accept_streamOf_declines (t : TokenType) (str : string) (nm : string)
    (pre ts : list Token) :
  leads t str (hd eof ts) = false ->
  accept t str (streamOf nm pre ts) = Ret None (streamOf nm pre ts).
Proof.
  intros Hl. exact (accept_declines t str _ _ (token_streamOf nm pre ts) Hl).
Qed.

Lemma leading_expect_fails {A} (t : TokenType) (str : string)
    (k : Token -> M (result A)) (p : Parser) (cur : Token) :
  token p = Ret cur p -> leads t str cur = false ->
  exists e, bindOk (expect t str) k p = Ret (Err e) p.
Proof.
  intros Hc Hl.
  destruct (expect_after_accept_none t str p cur Hc
              (accept_declines t str p cur Hc Hl)) as [msg He].
  eexists. apply bindOk_Err. exact He.
Qed.

Lemma notElse_leads (t : Token) :
  notElse t = true -> leads tkKeyword "else" t = false.
Proof.
  unfold notElse, leads. intros H. apply negb_true_iff in H.
  change (("else" =? "")%string) with false. cbn [orb].
  rewrite String.eqb_sym. exact H.
Qed.

Lemma attempt_Ok (pos : Z) (m k : M (result Node)) (p p' : Parser)
    (node : Node) :
  m p = Ret (Ok node) p' -> attempt pos m k p = Ret (Ok node) p'.
Proof. intros H. unfold attempt, bind, getIdx. rewrite H. reflexivity. Qed.

Lemma bind_getIdx {A} (k : Z -> M A) (p : Parser) :
  bind getIdx k p = k (tokIdx p) p.
Proof. reflexivity. Qed.

(** *** Which alternative of [parseStatement] a token leads to *)

Section Alternatives.

Variable prec : string -> Z.
Variable n : nat.
Variable p : Parser.
Variable cur : Token.
Hypothesis current : token p = Ret cur p.

Lemma parseStatement_is_if (node : Node) (p' : Parser) :
  parseIf_ prec n (parseStatement prec n) p = Ret (Ok node) p' ->
  parseStatement prec (S n) p = Ret (Ok node) p'.
Proof.
  intros H. cbn [parseStatement]. rewrite bind_getIdx.
  apply attempt_Ok. exact H.
Qed.

Hypothesis not_if : leads tkKeyword "if" cur = false.

Lemma parseStatement_is_block (node : Node) (p' : Parser) :
  parseBlock_ n (parseStatement prec n) p = Ret (Ok node) p' ->
  parseStatement prec (S n) p = Ret (Ok node) p'.
Proof.
  intros H. cbn [parseStatement]. rewrite bind_getIdx.
  rewrite attempt_skip
    by (unfold parseIf_; eapply leading_expect_fails; eassumption).
  apply attempt_Ok. exact H.
Qed.

Hypothesis not_block : leads tkOpenBrace "" cur = false.

Lemma parseStatement_is_auto (node : Node) (p' : Parser) :
  parseVarDecl n p = Ret (Ok node) p' ->
  parseStatement prec (S n) p = Ret (Ok node) p'.
Proof.
  intros H. cbn [parseStatement]. rewrite bind_getIdx.
  rewrite attempt_skip
    by (unfold parseIf_; eapply leading_expect_fails; eassumption).
  rewrite attempt_skip
    by (unfold parseBlock_, expectType; eapply leading_expect_fails;
        eassumption).
  apply attempt_Ok. exact H.
Qed.

Hypothesis not_auto : leads tkKeyword "auto" cur = false.

Lemma parseStatement_is_extrn (node : Node) (p' : Parser) :
  parseExternVarDecl n p = Ret (Ok node) p' ->
  parseStatement prec (S n) p = Ret (Ok node) p'.
Proof.
  intros H. cbn [parseStatement]. rewrite bind_getIdx.
  rewrite attempt_skip
    by (unfold parseIf_; eapply leading_expect_fails; eassumption).
  rewrite attempt_skip
    by (unfold parseBlock_, expectType; eapply leading_expect_fails;
        eassumption).
  rewrite attempt_skip
    by (unfold parseVarDecl; eapply leading_expect_fails; eassumption).
  apply attempt_Ok. exact H.
Qed.

Hypothesis not_extrn : leads tkKeyword "extrn" cur = false.

Lemma parseStatement_is_while (node : Node) (p' : Parser) :
  parseWhile_ prec n (parseStatement prec n) p = Ret (Ok node) p' ->
  parseStatement prec (S n) p = Ret (Ok node) p'.
Proof.
  intros H. cbn [parseStatement]. rewrite bind_getIdx.
  rewrite attempt_skip
    by (unfold parseIf_; eapply leading_expect_fails; eassumption).
  rewrite attempt_skip
    by (unfold parseBlock_, expectType; eapply leading_expect_fails;
        eassumption).
  rewrite attempt_skip
    by (unfold parseVarDecl; eapply leading_expect_fails; eassumption).
  rewrite attempt_skip
    by (unfold parseExternVarDecl; eapply leading_expect_fails; eassumption).
  apply attempt_Ok. exact H.
Qed.

Hypothesis not_while : leads tkKeyword "while" cur = false.

Lemma parseStatement_is_switch (node : Node) (p' : Parser) :
  parseSwitch_ prec n (parseStatement prec n) p = Ret (Ok node) p' ->
  parseStatement prec (S n) p = Ret (Ok node) p'.
Proof.
  intros H. cbn [parseStatement]. rewrite bind_getIdx.
  rewrite attempt_skip
    by (unfold parseIf_; eapply leading_expect_fails; eassumption).
  rewrite attempt_skip
    by (unfold parseBlock_, expectType; eapply leading_expect_fails;
        eassumption).
  rewrite attempt_skip
    by (unfold parseVarDecl; eapply leading_expect_fails; eassumption).
  rewrite attempt_skip
    by (unfold parseExternVarDecl; eapply leading_expect_fails; eassumption).
  rewrite attempt_skip
    by (unfold parseWhile_; eapply leading_expect_fails; eassumption).
  apply attempt_Ok. exact H.
Qed.

Hypothesis not_switch : leads tkKeyword "switch" cur = false.

Lemma parseStatement_is_simple :
  parseStatement prec (S n) p = simpleStatement prec n (tokIdx p) p.
Proof.
  cbn [parseStatement]. rewrite bind_getIdx.
  rewrite attempt_skip
    by (unfold parseIf_; eapply leading_expect_fails; eassumption).
  rewrite attempt_skip
    by (unfold parseBlock_, expectType; eapply leading_expect_fails;
        eassumption).
  rewrite attempt_skip
    by (unfold parseVarDecl; eapply leading_expect_fails; eassumption).
  rewrite attempt_skip
    by (unfold parseExternVarDecl; eapply leading_expect_fails; eassumption).
  rewrite attempt_skip
    by (unfold parseWhile_; eapply leading_expect_fails; eassumption).
  rewrite attempt_skip
    by (unfold parseSwitch_; eapply leading_expect_fails; eassumption).
  reflexivity.
Qed.

End Alternatives.

(** *** An operand as an expression *)

Lemma atomToken_kind (a : Atom) :
  TokenType_eqb (kind (atomToken a)) tkOpenParen = false
  /\ TokenType_eqb (kind (atomToken a)) tkOperator = false.
Proof. destruct a; split; reflexivity. Qed.

Lemma parsePrimary_atom (fuel : nat) (callExpr : M (result Node))
    (nm : string) (pre : list Token) (a : Atom) (node : Node) (nx : Token)
    (more : list Token) :
  atomNode a = Some node ->
  TokenType_eqb (kind nx) tkOpenBracket = false ->
  TokenType_eqb (kind nx) tkOpenParen = false ->
  parsePrimary_ fuel callExpr (streamOf nm pre (atomToken a :: nx :: more))
  = Ret (Ok node) (streamOf nm (pre ++ [atomToken a]) (nx :: more)).
Proof.
  intros Ha Hbracket Hparen. unfold parsePrimary_.
  assert (Hfirst :
            orElse (parseParen_ callExpr)
              (orElse parseConstant
                 (orElse parseIdent
                    (cur <- token ;;
                     ret (Err (NewParseError cur
                                 "expected primary expression")))))
              (streamOf nm pre (atomToken a :: nx :: more))
            = Ret (Ok node)
                (streamOf nm (pre ++ [atomToken a]) (nx :: more))).
  { unfold orElse at 1, parseParen_.
    destruct (leading_expect_mismatch tkOpenParen ""
                (fun _ => inner <~ callExpr ;;
                          _ <~ expectType tkCloseParen ;;
                          ret (Ok (ParenNode inner)))
                _ _ (token_streamOf nm pre (atomToken a :: nx :: more))
                (proj1 (atomToken_kind a))) as [e1 He1].
    unfold expectType. rewrite (bind_Ret _ _ _ _ _ He1).
    unfold orElse at 1.
    destruct a as [x | lit | c | s]; cbn [atomNode] in Ha.
    - injection Ha as <-. unfold parseConstant.
      destruct (expectOneOf_streamOf_other [tkNumber; tkCharacter; tkString]
                  nm pre (atomToken (AIdent x) :: nx :: more) eq_refl)
        as [e2 He2].
      rewrite (bind_Ret _ _ _ _ _ (bindOk_Err _ _ _ _ _ He2)).
      unfold orElse, parseIdent, expectType.
      rewrite (bind_Ret _ _ _ _ _
                 (bindOk_Ok _ _ _ _ _
                    (expect_streamOf tkIdent "" nm pre (ident x) _
                       eq_refl eq_refl))).
      reflexivity.
    - rewrite (bind_Ret _ _ _ _ _
                 (parseConstant_streamOf nm pre _ _ node Ha)).
      reflexivity.
    - rewrite (bind_Ret _ _ _ _ _
                 (parseConstant_streamOf nm pre _ _ node Ha)).
      reflexivity.
    - rewrite (bind_Ret _ _ _ _ _
                 (parseConstant_streamOf nm pre _ _ node Ha)).
      reflexivity. }
  rewrite (bindOk_Ok _ _ _ _ _ Hfirst). unfold acceptType.
  rewrite (bind_Ret _ _ _ _ _
             (accept_streamOf_other tkOpenBracket "" nm _ (nx :: more)
                Hbracket)).
  rewrite (bind_Ret _ _ _ _ _
             (accept_streamOf_other tkOpenParen "" nm _ (nx :: more)
                Hparen)).
  reflexivity.
Qed.

Lemma endsExpression_kinds (t : Token) :
  endsExpression t = true ->
  TokenType_eqb (kind t) tkOperator = false
  /\ TokenType_eqb (kind t) tkOpenBracket = false
  /\ TokenType_eqb (kind t) tkOpenParen = false
  /\ TokenType_eqb (kind t) tkTernary = false.
Proof.
  unfold endsExpression. intros H. apply negb_true_iff in H.
  cbn [existsb] in H.
  repeat (apply orb_false_iff in H; destruct H as [? H]). tauto.
Qed.

(** An operand that nothing of an expression follows is an expression of
    its own. *)
Lemma parseExpression_atom (prec : string -> Z) (n : nat) (nm : string)
    (pre : list Token) (a : Atom) (node : Node) (nx : Token)
    (more : list Token) :
  atomNode a = Some node -> endsExpression nx = true ->
  parseExpression prec (S n) (streamOf nm pre (atomToken a :: nx :: more))
  = Ret (Ok node) (streamOf nm (pre ++ [atomToken a]) (nx :: more)).
Proof.
  intros Ha Hnx.
  destruct (endsExpression_kinds nx Hnx)
    as (Hop & Hbracket & Hparen & Hternary).
  assert (Hsub :
            parseSubExpression_ n (parseExpression prec n)
              (streamOf nm pre (atomToken a :: nx :: more))
            = Ret (Ok node)
                (streamOf nm (pre ++ [atomToken a]) (nx :: more))).
  { unfold parseSubExpression_, acceptType.
    rewrite (bind_Ret _ _ _ _ _
               (accept_streamOf_other tkOperator "" nm pre
                  (atomToken a :: nx :: more) (proj2 (atomToken_kind a)))).
    cbv iota.
    rewrite (bindOk_Ok (ret (Ok ""%string)) _ _ _ _ eq_refl).
    rewrite (bindOk_Ok _ _ _ _ _
               (parsePrimary_atom n _ nm pre a node nx more Ha
                  Hbracket Hparen)).
    cbv zeta. change (("" =? "")%string) with true. cbv iota.
    rewrite (bind_Ret _ _ _ _ _ (token_streamOf nm _ (nx :: more))).
    cbn [hd]. rewrite Hop. reflexivity. }
  cbn [parseExpression].
  rewrite (bindOk_Ok _ _ _ _ _ Hsub). unfold acceptType.
  rewrite (bind_Ret _ _ _ _ _
             (accept_streamOf_other tkOperator "" nm _ (nx :: more) Hop)).
  cbv iota. rewrite (bindOk_Ok (ret (Ok node)) _ _ _ _ eq_refl).
  rewrite (bind_Ret _ _ _ _ _
             (accept_streamOf_other tkTernary "" nm _ (nx :: more)
                Hternary)).
  reflexivity.
Qed.

(** *** What a statement starts with *)

Lemma stmtTokens_head (s : Stmt) :
  exists t ts,
    stmtTokens s = t :: ts
    /\ TokenType_eqb (kind t) tkCloseBrace = false
    /\ notElse t = true
    /\ leads tkKeyword "case" t = false
    /\ leads tkKeyword "default" t = false.
Proof.
  destruct s as [| | l | l | [a |] | a | ss | c b | c b [e |] | items | names
                | c cases dflt];
    cbn [stmtTokens]; try (eexists _, _; repeat split; reflexivity);
    destruct a; eexists _, _; repeat split; reflexivity.
Qed.

Lemma stmtTokens_not_empty (s : Stmt) : (1 <= List.length (stmtTokens s))%nat.
Proof.
  destruct (stmtTokens_head s) as (t & ts & -> & _). cbn. lia.
Qed.

Lemma flat_map_stmtTokens_length (ss : list Stmt) :
  (List.length ss <= List.length (flat_map stmtTokens ss))%nat.
Proof.
  induction ss as [| s ss IH]; [reflexivity |].
  cbn [flat_map List.length]. rewrite length_app.
  pose proof (stmtTokens_not_empty s). lia.
Qed.

Lemma notElse_after_statements (ss : list Stmt) (rest : list Token) :
  notElse (hd eof (flat_map stmtTokens ss ++ closeBrace :: rest)) = true.
Proof.
  destruct ss as [| s ss]; [reflexivity |].
  cbn [flat_map].
  destruct (stmtTokens_head s) as (t & ts & -> & _ & Hne & _).
  exact Hne.
Qed.

(** *** A token put back *)

Lemma token_peeked (nm : string) (pre : list Token) (t : Token)
    (more : list Token) :
  token (peeked nm pre t more) = Ret t (peeked nm pre t more).
Proof.
  unfold token, bind, getIdx, tokenAt, peeked, rewindTo, streamOf.
  cbn [tokIdx tokens lex].
  rewrite !length_app, Nat2Z.id. cbn [List.length].
  replace ((0 <=? Z.of_nat (List.length pre))
           && (Z.of_nat (List.length pre)
               <? Z.of_nat (List.length pre + 1 + 1)))
    with true by (symmetry; apply andb_true_iff; split;
                  [apply Z.leb_le | apply Z.ltb_lt]; lia).
  rewrite <- app_assoc. rewrite nth_error_app2 by lia.
  rewrite Nat.sub_diag. reflexivity.
Qed.

Lemma nextTokenOrPanic_peeked (nm : string) (pre : list Token) (t : Token)
    (more : list Token) :
  nextTokenOrPanic (peeked nm pre t more)
  = Ret tt (streamOf nm (pre ++ [t]) more).
Proof.
  assert (Hrange : -1 <= tokIdx (streamOf nm pre (t :: more))
                   < Z.of_nat (List.length
                                 (tokens (streamOf nm pre (t :: more))))).
  { unfold streamOf. cbn [tokIdx tokens]. rewrite length_app.
    cbn [List.length]. lia. }
  destruct (nextToken_again (streamOf nm pre (t :: more)) _ _ Hrange
              (nextToken_streamOf nm pre (t :: more))) as [Hagain _].
  unfold nextTokenOrPanic, peeked.
  change (Z.of_nat (List.length pre))
    with (tokIdx (streamOf nm pre (t :: more))).
  change (streamOf nm (pre ++ [t]) more)
    with (streamOf nm (pre ++ [hd eof (t :: more)]) (tl (t :: more))).
  rewrite (bind_Ret _ _ _ _ _ Hagain). reflexivity.
Qed.

Lemma accept_takes (t : TokenType) (str : string) (p p1 : Parser)
    (cur : Token) :
  token p = Ret cur p -> leads t str cur = true ->
  nextTokenOrPanic p = Ret tt p1 ->
  accept t str p = Ret (Some cur) p1.
Proof.
  intros Hc Hl Hn. unfold leads in Hl. apply andb_prop in Hl.
  destruct Hl as [Hk Hs]. unfold accept.
  rewrite (bind_Ret _ _ _ _ _ Hc), Hk, Hs.
  rewrite (bind_Ret _ _ _ _ _ Hn). reflexivity.
Qed.

Lemma accept_peeked (t : TokenType) (str : string) (nm : string)
    (pre : list Token) (cur : Token) (more : list Token) :
  leads t str cur = true ->
  accept t str (peeked nm pre cur more)
  = Ret (Some cur) (streamOf nm (pre ++ [cur]) more).
Proof.
  intros Hl.
  exact (accept_takes t str _ _ cur (token_peeked nm pre cur more) Hl
           (nextTokenOrPanic_peeked nm pre cur more)).
Qed.

Lemma expect_peeked (t : TokenType) (str : string) (nm : string)
    (pre : list Token) (cur : Token) (more : list Token) :
  leads t str cur = true ->
  expect t str (peeked nm pre cur more)
  = Ret (Ok cur) (streamOf nm (pre ++ [cur]) more).
Proof.
  intros Hl. unfold expect.
  rewrite (bind_Ret _ _ _ _ _ (accept_peeked t str nm pre cur more Hl)).
  reflexivity.
Qed.

Lemma accept_streamOf_takes (t : TokenType) (str : string) (nm : string)
    (pre : list Token) (cur : Token) (ts : list Token) :
  leads t str cur = true ->
  accept t str (streamOf nm pre (cur :: ts))
  = Ret (Some cur) (streamOf nm (pre ++ [cur]) ts).
Proof.
  intros Hl.
  exact (accept_takes t str _ _ cur (token_streamOf nm pre (cur :: ts)) Hl
           (nextTokenOrPanic_streamOf nm pre (cur :: ts))).
Qed.

Lemma stepBack_streamOf (nm : string) (pre : list Token) (t : Token)
    (more : list Token) :
  stepBack (streamOf nm (pre ++ [t]) more) = Ret tt (peeked nm pre t more).
Proof.
  unfold stepBack. rewrite bind_getIdx. unfold setIdx, peeked.
  replace (tokIdx (streamOf nm (pre ++ [t]) more) - 1)
    with (Z.of_nat (List.length pre))
    by (unfold streamOf; cbn [tokIdx]; rewrite length_app;
        cbn [List.length]; lia).
  reflexivity.
Qed.

Lemma endsCase_notElse (t : Token) : endsCase t = true -> notElse t = true.
Proof.
  unfold endsCase, leads, notElse. intros H.
  destruct (TokenType_eqb (kind t) tkKeyword) eqn:Hk; [| reflexivity].
  cbn [andb orb] in H |- *.
  change (("case" =? "")%string) with false in H.
  change (("default" =? "")%string) with false in H.
  cbn [orb] in H.
  destruct (value t =? "else")%string eqn:He; [| reflexivity].
  apply String.eqb_eq in He. rewrite He in H. cbn in H.
  apply TokenType_eqb_eq in Hk. rewrite Hk in H. cbn in H. discriminate.
Qed.

(** *** The statements that hold statements *)

Section StatementsReadBack.

Variable prec : string -> Z.
Variable nm : string.
Variable n : nat.
Variable callStmt : M (result Node).
Hypothesis callStmt_reads :
  forall (s : Stmt) (node : Node) (pre rest : list Token),
    stmtNode s = Some node ->
    wellNested s = true ->
    (dangling s = true -> notElse (hd eof rest) = true) ->
    (List.length (stmtTokens s) <= n)%nat ->
    callStmt (streamOf nm pre (stmtTokens s ++ rest))
    = Ret (Ok node) (streamOf nm (pre ++ stmtTokens s) rest).

Lemma blockLoop_reads (ss : list Stmt) :
  forall (nodes : list Node) (k : nat) (acc : list Node)
         (pre rest : list Token),
    allSome (map stmtNode ss) = Some nodes ->
    forallb wellNested ss = true ->
    (List.length (flat_map stmtTokens ss) <= n)%nat ->
    (List.length ss < k)%nat ->
    blockLoop k callStmt acc
      (streamOf nm pre (flat_map stmtTokens ss ++ closeBrace :: rest))
    = Ret (Ok (acc ++ nodes))
        (streamOf nm (pre ++ flat_map stmtTokens ss) (closeBrace :: rest)).
Proof.
  induction ss as [| s ss IH]; intros nodes k acc pre rest Hnodes Hwn Hlen Hk;
    (destruct k as [| k]; [cbn in Hk; lia |]).
  - cbn [map allSome] in Hnodes. injection Hnodes as <-.
    cbn [flat_map app blockLoop].
    rewrite (bind_Ret _ _ _ _ _ (token_streamOf nm pre _)).
    cbn [hd]. rewrite !app_nil_r. reflexivity.
  - cbn [map allSome] in Hnodes.
    destruct (stmtNode s) as [nd |] eqn:Hs; [| discriminate].
    destruct (allSome (map stmtNode ss)) as [nds |] eqn:Hss;
      [| discriminate].
    injection Hnodes as <-.
    cbn [forallb] in Hwn. apply andb_prop in Hwn. destruct Hwn as [Hw Hws].
    cbn [flat_map] in Hlen |- *. rewrite length_app in Hlen.
    rewrite <- app_assoc.
    assert (Htok : exists t,
               token (streamOf nm pre
                        (stmtTokens s
                         ++ flat_map stmtTokens ss ++ closeBrace :: rest))
               = Ret t (streamOf nm pre
                          (stmtTokens s
                           ++ flat_map stmtTokens ss ++ closeBrace :: rest))
               /\ TokenType_eqb (kind t) tkCloseBrace = false).
    { rewrite token_streamOf.
      destruct (stmtTokens_head s) as (t & ts & -> & Hcb & _).
      exists t. split; [reflexivity | exact Hcb]. }
    destruct Htok as (t & Htok & Hcb).
    cbn [blockLoop]. rewrite (bind_Ret _ _ _ _ _ Htok), Hcb. cbn [negb].
    rewrite (bindOk_Ok _ _ _ _ _
               (callStmt_reads s nd pre _ Hs Hw
                  (fun _ => notElse_after_statements ss rest)
                  ltac:(lia))).
    rewrite (IH nds k (acc ++ [nd]) _ rest eq_refl Hws ltac:(lia)
               ltac:(cbn in Hk; lia)).
    rewrite <- !app_assoc. reflexivity.
Qed.

Lemma parseBlock_reads (ss : list Stmt) (nodes : list Node)
    (pre rest : list Token) :
  allSome (map stmtNode ss) = Some nodes ->
  forallb wellNested ss = true ->
  (List.length (stmtTokens (SBlock ss)) <= S n)%nat ->
  parseBlock_ n callStmt (streamOf nm pre (stmtTokens (SBlock ss) ++ rest))
  = Ret (Ok (BlockNode nodes))
      (streamOf nm (pre ++ stmtTokens (SBlock ss)) rest).
Proof.
  intros Hnodes Hwn Hlen. cbn [stmtTokens] in Hlen |- *.
  cbn [List.length] in Hlen. rewrite length_app in Hlen.
  cbn [List.length] in Hlen.
  pose proof (flat_map_stmtTokens_length ss) as Hss.
  unfold parseBlock_, expectType. cbn [app]. rewrite <- app_assoc.
  cbn [app].
  rewrite (bindOk_Ok _ _ _ _ _
             (expect_streamOf tkOpenBrace "" nm pre openBrace _
                eq_refl eq_refl)).
  rewrite (bindOk_Ok _ _ _ _ _
             (blockLoop_reads ss nodes n [] _ rest Hnodes Hwn
                ltac:(lia) ltac:(lia))).
  rewrite (bindOk_Ok _ _ _ _ _
             (expect_streamOf tkCloseBrace "" nm _ closeBrace _
                eq_refl eq_refl)).
  unfold ret. cbn [app]. do 2 f_equal. rewrite <- !app_assoc. reflexivity.
Qed.

Lemma parseWhile_reads (c : Atom) (b : Stmt) (cn bn : Node)
    (pre rest : list Token) :
  atomNode c = Some cn -> stmtNode b = Some bn ->
  wellNested b = true ->
  (dangling b = true -> notElse (hd eof rest) = true) ->
  (List.length (stmtTokens (SWhile c b)) <= S n)%nat ->
  parseWhile_ prec n callStmt
    (streamOf nm pre (stmtTokens (SWhile c b) ++ rest))
  = Ret (Ok (WhileNode cn bn))
      (streamOf nm (pre ++ stmtTokens (SWhile c b)) rest).
Proof.
  intros Hc Hb Hw Hd Hlen. cbn [stmtTokens List.length] in Hlen |- *.
  destruct n as [| n']; [lia |].
  unfold parseWhile_, expectType. cbn [app].
  rewrite (bindOk_Ok _ _ _ _ _
             (expect_streamOf tkKeyword "while" nm pre (keyword "while") _
                eq_refl eq_refl)).
  rewrite (bindOk_Ok _ _ _ _ _
             (expect_streamOf tkOpenParen "" nm _ openParen _
                eq_refl eq_refl)).
  rewrite (bindOk_Ok _ _ _ _ _
             (parseExpression_atom prec n' nm _ c cn closeParen _ Hc
                eq_refl)).
  rewrite (bindOk_Ok _ _ _ _ _
             (expect_streamOf tkCloseParen "" nm _ closeParen _
                eq_refl eq_refl)).
  rewrite (bindOk_Ok _ _ _ _ _
             (callStmt_reads b bn _ rest Hb Hw Hd ltac:(lia))).
  unfold ret. do 2 f_equal. rewrite <- !app_assoc. reflexivity.
Qed.

Lemma parseIf_reads (c : Atom) (b : Stmt) (cn bn : Node)
    (pre rest : list Token) :
  atomNode c = Some cn -> stmtNode b = Some bn ->
  wellNested b = true ->
  notElse (hd eof rest) = true ->
  (List.length (stmtTokens (SIf c b None)) <= S n)%nat ->
  parseIf_ prec n callStmt
    (streamOf nm pre (stmtTokens (SIf c b None) ++ rest))
  = Ret (Ok (IfNode cn bn false NilNode))
      (streamOf nm (pre ++ stmtTokens (SIf c b None)) rest).
Proof.
  intros Hc Hb Hw Hd Hlen. cbn [stmtTokens List.length] in Hlen |- *.
  destruct n as [| n']; [lia |].
  unfold parseIf_, expectType. cbn [app].
  rewrite (bindOk_Ok _ _ _ _ _
             (expect_streamOf tkKeyword "if" nm pre (keyword "if") _
                eq_refl eq_refl)).
  rewrite (bindOk_Ok _ _ _ _ _
             (expect_streamOf tkOpenParen "" nm _ openParen _
                eq_refl eq_refl)).
  rewrite (bindOk_Ok _ _ _ _ _
             (parseExpression_atom prec n' nm _ c cn closeParen _ Hc
                eq_refl)).
  rewrite (bindOk_Ok _ _ _ _ _
             (expect_streamOf tkCloseParen "" nm _ closeParen _
                eq_refl eq_refl)).
  rewrite (bindOk_Ok _ _ _ _ _
             (callStmt_reads b bn _ rest Hb Hw (fun _ => Hd) ltac:(lia))).
  rewrite (bind_Ret _ _ _ _ _
             (accept_streamOf_declines tkKeyword "else" nm _ rest
                (notElse_leads _ Hd))).
  unfold ret. do 2 f_equal. rewrite <- !app_assoc. reflexivity.
Qed.

Lemma parseIfElse_reads (c : Atom) (b e : Stmt) (cn bn en : Node)
    (pre rest : list Token) :
  atomNode c = Some cn -> stmtNode b = Some bn -> stmtNode e = Some en ->
  wellNested b = true -> dangling b = false -> wellNested e = true ->
  (dangling e = true -> notElse (hd eof rest) = true) ->
  (List.length (stmtTokens (SIf c b (Some e))) <= S n)%nat ->
  parseIf_ prec n callStmt
    (streamOf nm pre (stmtTokens (SIf c b (Some e)) ++ rest))
  = Ret (Ok (IfNode cn bn true en))
      (streamOf nm (pre ++ stmtTokens (SIf c b (Some e))) rest).
Proof.
  intros Hc Hb He Hwb Hdb Hwe Hd Hlen.
  cbn [stmtTokens List.length] in Hlen |- *. rewrite length_app in Hlen.
  cbn [List.length] in Hlen.
  destruct n as [| n']; [lia |].
  unfold parseIf_, expectType. cbn [app]. rewrite <- app_assoc.
  cbn [app].
  rewrite (bindOk_Ok _ _ _ _ _
             (expect_streamOf tkKeyword "if" nm pre (keyword "if") _
                eq_refl eq_refl)).
  rewrite (bindOk_Ok _ _ _ _ _
             (expect_streamOf tkOpenParen "" nm _ openParen _
                eq_refl eq_refl)).
  rewrite (bindOk_Ok _ _ _ _ _
             (parseExpression_atom prec n' nm _ c cn closeParen _ Hc
                eq_refl)).
  rewrite (bindOk_Ok _ _ _ _ _
             (expect_streamOf tkCloseParen "" nm _ closeParen _
                eq_refl eq_refl)).
  rewrite (bindOk_Ok _ _ _ _ _
             (callStmt_reads b bn _ _ Hb Hwb
                ltac:(intros Hx; congruence) ltac:(lia))).
  rewrite (bind_Ret _ _ _ _ _
             (accept_streamOf tkKeyword "else" nm _ (keyword "else") _
                eq_refl eq_refl)).
  rewrite (bindOk_Ok _ _ _ _ _
             (callStmt_reads e en _ rest He Hwe Hd ltac:(lia))).
  unfold ret. do 2 f_equal. repeat (rewrite <- app_assoc; cbn [app]).
  reflexivity.
Qed.

Lemma notElse_after_case_statements (ss : list Stmt) (t : Token)
    (more : list Token) :
  endsCase t = true ->
  notElse (hd eof (flat_map stmtTokens ss ++ t :: more)) = true.
Proof.
  intros Ht. destruct ss as [| s ss]; [exact (endsCase_notElse t Ht) |].
  cbn [flat_map].
  destruct (stmtTokens_head s) as (h & ts & -> & _ & Hne & _).
  exact Hne.
Qed.

(** The body of a case: its statements, up to the label or brace that
    follows, which is put back. *)
Lemma caseBody_reads (ss : list Stmt) :
  forall (nodes : list Node) (k : nat) (acc : list Node)
         (pre : list Token) (t : Token) (more : list Token),
    allSome (map stmtNode ss) = Some nodes ->
    forallb wellNested ss = true ->
    (List.length (flat_map stmtTokens ss) <= n)%nat ->
    (List.length ss < k)%nat ->
    endsCase t = true ->
    caseBody k callStmt acc
      (streamOf nm pre (flat_map stmtTokens ss ++ t :: more))
    = Ret (Ok (acc ++ nodes))
        (peeked nm (pre ++ flat_map stmtTokens ss) t more).
Proof.
  induction ss as [| s ss IH];
    intros nodes k acc pre t more Hnodes Hwn Hlen Hk Ht;
    (destruct k as [| k]; [cbn in Hk; lia |]).
  - cbn [map allSome] in Hnodes. injection Hnodes as <-.
    cbn [flat_map app caseBody]. rewrite !app_nil_r.
    destruct (leads tkKeyword "case" t) eqn:Hcase.
    { rewrite (bind_Ret _ _ _ _ _
                 (accept_streamOf_takes tkKeyword "case" nm pre t more
                    Hcase)).
      rewrite (bind_Ret _ _ _ _ _ (stepBack_streamOf nm pre t more)).
      reflexivity. }
    rewrite (bind_Ret _ _ _ _ _
               (accept_streamOf_declines tkKeyword "case" nm pre
                  (t :: more) Hcase)).
    destruct (leads tkKeyword "default" t) eqn:Hdefault.
    { rewrite (bind_Ret _ _ _ _ _
                 (accept_streamOf_takes tkKeyword "default" nm pre t more
                    Hdefault)).
      rewrite (bind_Ret _ _ _ _ _ (stepBack_streamOf nm pre t more)).
      reflexivity. }
    rewrite (bind_Ret _ _ _ _ _
               (accept_streamOf_declines tkKeyword "default" nm pre
                  (t :: more) Hdefault)).
    unfold endsCase in Ht. rewrite Hcase, Hdefault in Ht. cbn [orb] in Ht.
    unfold acceptType.
    rewrite (bind_Ret _ _ _ _ _
               (accept_streamOf_takes tkCloseBrace "" nm pre t more Ht)).
    rewrite (bind_Ret _ _ _ _ _ (stepBack_streamOf nm pre t more)).
    reflexivity.
  - cbn [map allSome] in Hnodes.
    destruct (stmtNode s) as [nd |] eqn:Hs; [| discriminate].
    destruct (allSome (map stmtNode ss)) as [nds |] eqn:Hss;
      [| discriminate].
    injection Hnodes as <-.
    cbn [forallb] in Hwn. apply andb_prop in Hwn. destruct Hwn as [Hw Hws].
    cbn [flat_map] in Hlen |- *. rewrite length_app in Hlen.
    rewrite <- app_assoc.
    assert (Htok : exists h,
               token (streamOf nm pre
                        (stmtTokens s ++ flat_map stmtTokens ss ++ t :: more))
               = Ret h (streamOf nm pre
                          (stmtTokens s
                           ++ flat_map stmtTokens ss ++ t :: more))
               /\ leads tkKeyword "case" h = false
               /\ leads tkKeyword "default" h = false
               /\ leads tkCloseBrace "" h = false).
    { rewrite token_streamOf.
      destruct (stmtTokens_head s)
        as (h & ts & -> & Hcb & _ & Hcase & Hdefault).
      exists h. split; [reflexivity |]. split; [exact Hcase |].
      split; [exact Hdefault |]. unfold leads. rewrite Hcb. reflexivity. }
    destruct Htok as (h & Htok & Hcase & Hdefault & Hbrace).
    cbn [caseBody]. unfold acceptType.
    rewrite (bind_Ret _ _ _ _ _ (accept_declines _ _ _ _ Htok Hcase)).
    rewrite (bind_Ret _ _ _ _ _ (accept_declines _ _ _ _ Htok Hdefault)).
    rewrite (bind_Ret _ _ _ _ _ (accept_declines _ _ _ _ Htok Hbrace)).
    rewrite (bindOk_Ok _ _ _ _ _
               (callStmt_reads s nd pre _ Hs Hw
                  (fun _ => notElse_after_case_statements ss t more Ht)
                  ltac:(lia))).
    rewrite (IH nds k (acc ++ [nd]) _ t more eq_refl Hws ltac:(lia)
               ltac:(cbn in Hk; lia) Ht).
    rewrite <- !app_assoc. reflexivity.
Qed.

(** What the loop of a [switch] stands on: a label or the closing brace,
    read or put back. *)
Definition standsAt (p : Parser) (pre : list Token) (l : list Token)
    : Prop :=
  exists t more,
    l = t :: more
    /\ token p = Ret t p
    /\ nextTokenOrPanic p = Ret tt (streamOf nm (pre ++ [t]) more).

Lemma standsAt_streamOf (pre : list Token) (t : Token) (more : list Token) :
  standsAt (streamOf nm pre (t :: more)) pre (t :: more).
Proof.
  exists t, more. split; [reflexivity |].
  split; [apply token_streamOf | apply nextTokenOrPanic_streamOf].
Qed.

Lemma standsAt_peeked (pre : list Token) (t : Token) (more : list Token) :
  standsAt (peeked nm pre t more) pre (t :: more).
Proof.
  exists t, more. split; [reflexivity |].
  split; [apply token_peeked | apply nextTokenOrPanic_peeked].
Qed.

Lemma switch_rest_head (cases : list (Atom * list Stmt))
    (dflt : option (list Stmt)) (rest : list Token) :
  exists t more,
    flat_map caseTokens cases ++ dfltTokens dflt ++ closeBrace :: rest
    = t :: more
    /\ endsCase t = true.
Proof.
  destruct cases as [| [k ss] cases]; [destruct dflt as [ss |] |];
    eexists _, _; split; reflexivity.
Qed.

Lemma switchLoop_reads (cn : Node) (dflt : option (list Stmt))
    (dn : list Node) (rest : list Token) (cases : list (Atom * list Stmt)) :
  dfltNodes dflt = Some dn ->
  match dflt with Some ss => forallb wellNested ss | None => true end
  = true ->
  forall (cs : list CaseNode) (k : nat) (p : Parser) (pre : list Token)
         (acc : list CaseNode),
    allSome (map caseNodeOf cases) = Some cs ->
    forallb (fun kc => match kc with (_, ss) => forallb wellNested ss end)
      cases = true ->
    (List.length (flat_map caseTokens cases ++ dfltTokens dflt
                  ++ [closeBrace]) <= k)%nat ->
    (k <= n)%nat ->
    standsAt p pre
      (flat_map caseTokens cases ++ dfltTokens dflt ++ closeBrace :: rest) ->
    switchLoop k callStmt cn [] acc p
    = Ret (Ok (SwitchNode cn dn (acc ++ cs)))
        (streamOf nm
           (pre ++ flat_map caseTokens cases ++ dfltTokens dflt
            ++ [closeBrace])
           rest).
Proof.
  intros Hdn Hwd.
  induction cases as [| [kk ss] cases IH];
    intros cs k p pre acc Hcs Hwn Hlen Hkn Hp;
    destruct Hp as (t & more & Heq & Htok & Hnext).
  - cbn [map allSome] in Hcs. injection Hcs as <-. rewrite app_nil_r.
    cbn [flat_map app] in Heq, Hlen |- *.
    destruct dflt as [ss |]; cbn [dfltTokens dfltNodes app] in *.
    + (* default : ... } *)
      injection Heq as <- <-. cbn [List.length] in Hlen.
      rewrite length_app in Hlen. cbn [List.length] in Hlen.
      pose proof (flat_map_stmtTokens_length ss) as Hss.
      destruct k as [| [| k]]; [lia | lia |].
      cbn [switchLoop]. unfold acceptType, expectType.
      rewrite (bind_Ret _ _ _ _ _
                 (accept_declines tkCloseBrace "" _ _ Htok eq_refl)).
      rewrite (bind_Ret _ _ _ _ _
                 (accept_declines tkKeyword "case" _ _ Htok eq_refl)).
      rewrite (bind_Ret _ _ _ _ _
                 (accept_takes tkKeyword "default" _ _ _ Htok eq_refl
                    Hnext)).
      rewrite (bindOk_Ok _ _ _ _ _
                 (expect_streamOf tkColon "" nm _ colon _ eq_refl eq_refl)).
      rewrite (bindOk_Ok _ _ _ _ _
                 (caseBody_reads ss dn (S k) [] _ closeBrace rest Hdn Hwd
                    ltac:(lia) ltac:(lia) eq_refl)).
      cbn [app switchLoop]. unfold acceptType.
      rewrite (bind_Ret _ _ _ _ _
                 (accept_peeked tkCloseBrace "" nm _ closeBrace rest
                    eq_refl)).
      unfold ret. do 2 f_equal. repeat (rewrite <- app_assoc; cbn [app]).
      reflexivity.
    + (* } *)
      injection Hdn as <-. injection Heq as <- <-.
      destruct k as [| k]; [cbn in Hlen; lia |].
      cbn [switchLoop]. unfold acceptType.
      rewrite (bind_Ret _ _ _ _ _
                 (accept_takes tkCloseBrace "" _ _ _ Htok eq_refl Hnext)).
      reflexivity.
  - (* case kk : ss ... *)
    cbn [map allSome caseNodeOf] in Hcs.
    destruct (constantOf (atomToken kk)) as [kn |] eqn:Hkk;
      [| discriminate].
    destruct (allSome (map stmtNode ss)) as [ns |] eqn:Hss;
      [| discriminate].
    destruct (allSome (map caseNodeOf cases)) as [cs' |] eqn:Hcs';
      [| discriminate].
    injection Hcs as <-.
    cbn [forallb] in Hwn. apply andb_prop in Hwn. destruct Hwn as [Hw Hws].
    cbn [flat_map caseTokens app] in Heq, Hlen |- *.
    injection Heq as <- <-.
    rewrite <- !app_assoc in Hlen, Hnext |- *. cbn [List.length] in Hlen.
    rewrite length_app in Hlen.
    pose proof (flat_map_stmtTokens_length ss) as Hlss.
    destruct k as [| k]; [lia |].
    destruct (switch_rest_head cases dflt rest) as (t' & more' & Hrest & Ht').
    cbn [switchLoop]. unfold acceptType, expectType.
    rewrite (bind_Ret _ _ _ _ _
               (accept_declines tkCloseBrace "" _ _ Htok eq_refl)).
    rewrite (bind_Ret _ _ _ _ _
               (accept_takes tkKeyword "case" _ _ _ Htok eq_refl Hnext)).
    rewrite (bindOk_Ok _ _ _ _ _ (parseConstant_streamOf nm _ _ _ kn Hkk)).
    rewrite (bindOk_Ok _ _ _ _ _
               (expect_streamOf tkColon "" nm _ colon _ eq_refl eq_refl)).
    rewrite Hrest.
    rewrite (bindOk_Ok _ _ _ _ _
               (caseBody_reads ss ns k [] _ t' more' Hss Hw
                  ltac:(lia) ltac:(lia) Ht')).
    cbn [app].
    rewrite (IH cs' k _ _ (acc ++ [mkCase kn ns]) eq_refl Hws
               ltac:(lia) ltac:(lia)
               ltac:(rewrite Hrest; apply standsAt_peeked)).
    unfold ret. do 2 f_equal.
    + rewrite <- app_assoc. reflexivity.
    + repeat (rewrite <- app_assoc; cbn [app]). reflexivity.
Qed.

Lemma parseSwitch_reads (c : Atom) (cases : list (Atom * list Stmt))
    (dflt : option (list Stmt)) (node : Node) (pre rest : list Token) :
  stmtNode (SSwitch c cases dflt) = Some node ->
  wellNested (SSwitch c cases dflt) = true ->
  (List.length (stmtTokens (SSwitch c cases dflt)) <= S n)%nat ->
  parseSwitch_ prec n callStmt
    (streamOf nm pre (stmtTokens (SSwitch c cases dflt) ++ rest))
  = Ret (Ok node) (streamOf nm (pre ++ stmtTokens (SSwitch c cases dflt)) rest).
Proof.
  intros Hnode Hwn Hlen.
  cbn [stmtNode] in Hnode.
  change (fun kc : Atom * list Stmt =>
            match kc with
            | (k, ss) =>
                match constantOf (atomToken k), allSome (map stmtNode ss) with
                | Some kn, Some ns => Some (mkCase kn ns)
                | _, _ => None
                end
            end) with caseNodeOf in Hnode.
  change (match dflt with
          | Some ss => allSome (map stmtNode ss)
          | None => Some []
          end) with (dfltNodes dflt) in Hnode.
  destruct (atomNode c) as [cn |] eqn:Hc; [| discriminate].
  destruct (allSome (map caseNodeOf cases)) as [cs |] eqn:Hcs;
    [| destruct (dfltNodes dflt); discriminate].
  destruct (dfltNodes dflt) as [dn |] eqn:Hdn; [| discriminate].
  injection Hnode as <-.
  cbn [wellNested] in Hwn. apply andb_prop in Hwn. destruct Hwn as [Hwc Hwd].
  cbn [stmtTokens] in Hlen |- *.
  change (fun kc : Atom * list Stmt =>
            match kc with
            | (k, ss) =>
                keyword "case" :: atomToken k :: colon
                :: flat_map stmtTokens ss
            end) with caseTokens in Hlen |- *.
  change (match dflt with
          | Some ss => keyword "default" :: colon :: flat_map stmtTokens ss
          | None => []
          end) with (dfltTokens dflt) in Hlen |- *.
  cbn [List.length] in Hlen.
  assert (Hexpr : forall pre' more,
             parseExpression prec n
               (streamOf nm pre' (atomToken c :: closeParen :: more))
             = Ret (Ok cn)
                 (streamOf nm (pre' ++ [atomToken c]) (closeParen :: more))).
  { intros pre' more.
    assert (Hn : exists n', n = S n') by (exists (pred n); lia).
    destruct Hn as [n' Hn]. rewrite Hn.
    exact (parseExpression_atom prec n' nm pre' c cn closeParen more Hc
             eq_refl). }
  unfold parseSwitch_, expectType. cbn [app].
  rewrite <- !app_assoc. cbn [app].
  rewrite (bindOk_Ok _ _ _ _ _
             (expect_streamOf tkKeyword "switch" nm pre (keyword "switch") _
                eq_refl eq_refl)).
  rewrite (bindOk_Ok _ _ _ _ _
             (expect_streamOf tkOpenParen "" nm _ openParen _
                eq_refl eq_refl)).
  rewrite (bindOk_Ok _ _ _ _ _ (Hexpr _ _)).
  rewrite (bindOk_Ok _ _ _ _ _
             (expect_streamOf tkCloseParen "" nm _ closeParen _
                eq_refl eq_refl)).
  rewrite (bindOk_Ok _ _ _ _ _
             (expect_streamOf tkOpenBrace "" nm _ openBrace _
                eq_refl eq_refl)).
  destruct (switch_rest_head cases dflt rest) as (t & more & Hrest & _).
  match goal with
  | |- switchLoop _ _ _ _ _ (streamOf _ ?pre' _) = _ =>
      pose proof (standsAt_streamOf pre' t more) as Hst
  end.
  rewrite <- Hrest in Hst.
  rewrite (switchLoop_reads cn dflt dn rest cases Hdn Hwd cs n _ _ []
             Hcs Hwc ltac:(lia) ltac:(lia) Hst).
  unfold ret. do 2 f_equal. repeat (rewrite <- app_assoc; cbn [app]).
  reflexivity.
Qed.

End StatementsReadBack.

(** *** Declarations among the statements *)

Lemma allSome_Forall2 {A B} (f : A -> option B) (l : list A) (r : list B) :
  allSome (map f l) = Some r -> Forall2 (fun x y => f x = Some y) l r.
Proof.
  revert r. induction l as [| x l IH]; intros r H; cbn [map allSome] in H.
  - injection H as <-. constructor.
  - destruct (f x) as [y |] eqn:Hx; [| discriminate].
    destruct (allSome (map f l)) as [r' |]; [| discriminate].
    injection H as <-. constructor; [exact Hx | apply IH; reflexivity].
Qed.

Lemma commaList_length (groups : list (list Token)) :
  Forall (fun g => (1 <= List.length g)%nat) groups ->
  (List.length groups <= List.length (commaList groups))%nat.
Proof.
  intros H. destruct H as [| g gs Hg Hgs]; [reflexivity |].
  cbn [commaList List.length]. rewrite length_app.
  assert (List.length gs
          <= List.length (flat_map (fun g' => comma :: g') gs))%nat.
  { clear Hg Hgs. induction gs as [| g' gs IH]; [reflexivity |].
    cbn [flat_map List.length app]. rewrite length_app. lia. }
  lia.
Qed.

Lemma parseVarDecl_reads (n : nat) (nm : string) (items : list AutoItem)
    (node : Node) (pre rest : list Token) :
  stmtNode (SAuto items) = Some node ->
  (List.length (stmtTokens (SAuto items)) <= S n)%nat ->
  parseVarDecl n (streamOf nm pre (stmtTokens (SAuto items) ++ rest))
  = Ret (Ok node) (streamOf nm (pre ++ stmtTokens (SAuto items)) rest).
Proof.
  intros Hnode Hlen. cbn [stmtNode] in Hnode.
  destruct items as [| it its]; [discriminate |].
  destruct (allSome (map itemDecl (it :: its))) as [decls |] eqn:Hall;
    [| discriminate].
  injection Hnode as <-. apply allSome_Forall2 in Hall.
  inversion Hall as [| it0 d its0 ds Hd Hall' Heq1 Heq2]. subst it0 its0.
  clear Hall Heq2.
  cbn [stmtTokens List.length] in Hlen |- *. rewrite length_app in Hlen.
  assert (Hgroups : (List.length (it :: its)
                     <= List.length
                          (commaList (map itemTokens (it :: its))))%nat).
  { rewrite <- (length_map itemTokens). apply commaList_length.
    apply Forall_forall. intros g Hin. apply in_map_iff in Hin.
    destruct Hin as ([x [lit |]] & <- & _); cbn; lia. }
  cbn [List.length] in Hlen, Hgroups.
  unfold parseVarDecl, expectType. cbn [app]. rewrite <- app_assoc.
  cbn [app].
  rewrite (bindOk_Ok _ _ _ _ _
             (expect_streamOf tkKeyword "auto" nm pre (keyword "auto") _
                eq_refl eq_refl)).
  rewrite (bindOk_Ok _ _ _ _ _
             (varDeclLoop_streamOf nm rest its ds Hall' it d n [] _ Hd
                ltac:(lia))).
  rewrite (bindOk_Ok _ _ _ _ _
             (expect_streamOf tkSemicolon "" nm _ semicolon _
                eq_refl eq_refl)).
  cbn [app List.length].
  replace (Z.of_nat (S (List.length ds)) <=? 0) with false
    by (symmetry; apply Z.leb_gt; lia).
  unfold ret. do 2 f_equal. repeat (rewrite <- app_assoc; cbn [app]).
  reflexivity.
Qed.

Lemma parseExternVarDecl_reads (n : nat) (nm : string) (names : list string)
    (node : Node) (pre rest : list Token) :
  stmtNode (SExtrn names) = Some node ->
  (List.length (stmtTokens (SExtrn names)) <= S n)%nat ->
  parseExternVarDecl n (streamOf nm pre (stmtTokens (SExtrn names) ++ rest))
  = Ret (Ok node) (streamOf nm (pre ++ stmtTokens (SExtrn names)) rest).
Proof.
  intros Hnode Hlen. cbn [stmtNode] in Hnode.
  destruct names as [| x xs]; [discriminate |]. injection Hnode as <-.
  cbn [stmtTokens List.length] in Hlen |- *. rewrite length_app in Hlen.
  assert (Hgroups : (List.length (x :: xs)
                     <= List.length
                          (commaList (map (fun s => [ident s]) (x :: xs))))%nat).
  { rewrite <- (length_map (fun s => [ident s])). apply commaList_length.
    apply Forall_forall. intros g Hin. apply in_map_iff in Hin.
    destruct Hin as (y & <- & _). cbn. lia. }
  cbn [List.length] in Hlen, Hgroups.
  unfold parseExternVarDecl, expectType. cbn [app]. rewrite <- app_assoc.
  cbn [app].
  rewrite (bindOk_Ok _ _ _ _ _
             (expect_streamOf tkKeyword "extrn" nm pre (keyword "extrn") _
                eq_refl eq_refl)).
  rewrite (bindOk_Ok _ _ _ _ _
             (parseVariableList_streamOf nm semicolon _ rest x xs n
                eq_refl ltac:(lia))).
  rewrite (bindOk_Ok _ _ _ _ _
             (expect_streamOf tkSemicolon "" nm _ semicolon _
                eq_refl eq_refl)).
  cbn [List.length].
  replace (Z.of_nat (S (List.length xs)) <=? 0) with false
    by (symmetry; apply Z.leb_gt; lia).
  unfold ret. do 2 f_equal. repeat (rewrite <- app_assoc; cbn [app]).
  reflexivity.
Qed.

(** *** Every statement *)

Lemma atomToken_declines (a : Atom) :
  leads tkKeyword "if" (atomToken a) = false
  /\ leads tkOpenBrace "" (atomToken a) = false
  /\ leads tkKeyword "auto" (atomToken a) = false
  /\ leads tkKeyword "extrn" (atomToken a) = false
  /\ leads tkKeyword "while" (atomToken a) = false
  /\ leads tkKeyword "switch" (atomToken a) = false
  /\ leads tkSemicolon "" (atomToken a) = false
  /\ leads tkKeyword "break" (atomToken a) = false
  /\ leads tkKeyword "return" (atomToken a) = false
  /\ leads tkKeyword "goto" (atomToken a) = false.
Proof. destruct a; repeat split; reflexivity. Qed.

(** A statement led by a token of its own, or an operand and [;]. *)
Lemma simpleStatement_reads (prec : string -> Z) (n : nat) (nm : string)
    (s : Stmt) (node : Node) (pre rest : list Token) (pos : Z) :
  match s with
  | SNull | SBreak | SGoto _ | SLabel _ | SReturn _ | SExpr _ => True
  | _ => False
  end ->
  stmtNode s = Some node ->
  (List.length (stmtTokens s) <= S n)%nat ->
  simpleStatement prec n pos (streamOf nm pre (stmtTokens s ++ rest))
  = Ret (Ok node) (streamOf nm (pre ++ stmtTokens s) rest).
Proof.
  intros Hs Hnode Hlen.
  destruct s as [| | l | l | [a |] | a | | | | | |]; try contradiction;
    clear Hs; cbn [stmtNode] in Hnode; cbn [stmtTokens List.length] in Hlen;
    cbn [stmtTokens app]; unfold simpleStatement, acceptType, expectType.
  - (* ; *)
    injection Hnode as <-.
    rewrite (bind_Ret _ _ _ _ _
               (accept_streamOf tkSemicolon "" nm pre semicolon _
                  eq_refl eq_refl)).
    reflexivity.
  - (* break ; *)
    injection Hnode as <-.
    rewrite (bind_Ret _ _ _ _ _
               (accept_streamOf_declines tkSemicolon "" nm pre
                  (keyword "break" :: _) eq_refl)).
    rewrite (bind_Ret _ _ _ _ _
               (accept_streamOf tkKeyword "break" nm pre (keyword "break") _
                  eq_refl eq_refl)).
    rewrite (bindOk_Ok _ _ _ _ _
               (expect_streamOf tkSemicolon "" nm _ semicolon _
                  eq_refl eq_refl)).
    unfold ret. do 2 f_equal. rewrite <- app_assoc. reflexivity.
  - (* goto l ; *)
    injection Hnode as <-.
    rewrite (bind_Ret _ _ _ _ _
               (accept_streamOf_declines tkSemicolon "" nm pre
                  (keyword "goto" :: _) eq_refl)).
    rewrite (bind_Ret _ _ _ _ _
               (accept_streamOf_declines tkKeyword "break" nm pre
                  (keyword "goto" :: _) eq_refl)).
    rewrite (bind_Ret _ _ _ _ _
               (accept_streamOf_declines tkKeyword "return" nm pre
                  (keyword "goto" :: _) eq_refl)).
    rewrite (bind_Ret _ _ _ _ _
               (accept_streamOf tkKeyword "goto" nm pre (keyword "goto") _
                  eq_refl eq_refl)).
    rewrite (bindOk_Ok _ _ _ _ _
               (expect_streamOf tkIdent "" nm _ (ident l) _
                  eq_refl eq_refl)).
    rewrite (bindOk_Ok _ _ _ _ _
               (expect_streamOf tkSemicolon "" nm _ semicolon _
                  eq_refl eq_refl)).
    unfold ret. do 2 f_equal. rewrite <- !app_assoc. reflexivity.
  - (* l : *)
    injection Hnode as <-.
    rewrite (bind_Ret _ _ _ _ _
               (accept_streamOf_declines tkSemicolon "" nm pre
                  (ident l :: _) eq_refl)).
    rewrite (bind_Ret _ _ _ _ _
               (accept_streamOf_declines tkKeyword "break" nm pre
                  (ident l :: _) eq_refl)).
    rewrite (bind_Ret _ _ _ _ _
               (accept_streamOf_declines tkKeyword "return" nm pre
                  (ident l :: _) eq_refl)).
    rewrite (bind_Ret _ _ _ _ _
               (accept_streamOf_declines tkKeyword "goto" nm pre
                  (ident l :: _) eq_refl)).
    unfold identStatement, acceptType.
    rewrite (bind_Ret _ _ _ _ _
               (accept_streamOf tkIdent "" nm pre (ident l) _
                  eq_refl eq_refl)).
    rewrite (bind_Ret _ _ _ _ _
               (accept_streamOf tkColon "" nm _ colon _ eq_refl eq_refl)).
    unfold ret. do 2 f_equal. rewrite <- app_assoc. reflexivity.
  - (* return a ; *)
    destruct (atomNode a) as [an |] eqn:Ha; [| discriminate].
    injection Hnode as <-.
    destruct n as [| n']; [lia |].
    rewrite (bind_Ret _ _ _ _ _
               (accept_streamOf_declines tkSemicolon "" nm pre
                  (keyword "return" :: _) eq_refl)).
    rewrite (bind_Ret _ _ _ _ _
               (accept_streamOf_declines tkKeyword "break" nm pre
                  (keyword "return" :: _) eq_refl)).
    rewrite (bind_Ret _ _ _ _ _
               (accept_streamOf tkKeyword "return" nm pre (keyword "return")
                  _ eq_refl eq_refl)).
    rewrite (bind_Ret _ _ _ _ _
               (accept_streamOf_declines tkSemicolon "" nm _
                  (atomToken a :: _)
                  (proj1 (proj2 (proj2 (proj2 (proj2 (proj2 (proj2
                     (atomToken_declines a)))))))))).
    rewrite (bindOk_Ok _ _ _ _ _
               (parseExpression_atom prec n' nm _ a an semicolon _ Ha
                  eq_refl)).
    rewrite (bindOk_Ok _ _ _ _ _
               (expect_streamOf tkSemicolon "" nm _ semicolon _
                  eq_refl eq_refl)).
    unfold ret. do 2 f_equal. rewrite <- !app_assoc. reflexivity.
  - (* return ; *)
    injection Hnode as <-.
    rewrite (bind_Ret _ _ _ _ _
               (accept_streamOf_declines tkSemicolon "" nm pre
                  (keyword "return" :: _) eq_refl)).
    rewrite (bind_Ret _ _ _ _ _
               (accept_streamOf_declines tkKeyword "break" nm pre
                  (keyword "return" :: _) eq_refl)).
    rewrite (bind_Ret _ _ _ _ _
               (accept_streamOf tkKeyword "return" nm pre (keyword "return")
                  _ eq_refl eq_refl)).
    rewrite (bind_Ret _ _ _ _ _
               (accept_streamOf tkSemicolon "" nm _ semicolon _
                  eq_refl eq_refl)).
    unfold ret. do 2 f_equal. rewrite <- app_assoc. reflexivity.
  - (* a ; *)
    destruct (atomNode a) as [an |] eqn:Ha; [| discriminate].
    injection Hnode as <-.
    destruct n as [| n']; [lia |].
    destruct (atomToken_declines a)
      as (_ & _ & _ & _ & _ & _ & Hsemi & Hbreak & Hreturn & Hgoto).
    rewrite (bind_Ret _ _ _ _ _
               (accept_streamOf_declines tkSemicolon "" nm pre
                  (atomToken a :: _) Hsemi)).
    rewrite (bind_Ret _ _ _ _ _
               (accept_streamOf_declines tkKeyword "break" nm pre
                  (atomToken a :: _) Hbreak)).
    rewrite (bind_Ret _ _ _ _ _
               (accept_streamOf_declines tkKeyword "return" nm pre
                  (atomToken a :: _) Hreturn)).
    rewrite (bind_Ret _ _ _ _ _
               (accept_streamOf_declines tkKeyword "goto" nm pre
                  (atomToken a :: _) Hgoto)).
    unfold identStatement, acceptType.
    destruct a as [x | lit | c | str].
    + cbn [atomNode] in Ha. injection Ha as <-. cbn [atomToken].
      rewrite (bind_Ret _ _ _ _ _
                 (accept_streamOf tkIdent "" nm pre (ident x) _
                    eq_refl eq_refl)).
      rewrite (bind_Ret _ _ _ _ _
                 (accept_streamOf_declines tkColon "" nm _
                    (semicolon :: rest) eq_refl)).
      rewrite (bind_Ret _ _ _ _ _
                 (accept_streamOf tkSemicolon "" nm _ semicolon _
                    eq_refl eq_refl)).
      unfold ret. do 2 f_equal. rewrite <- app_assoc. reflexivity.
    + rewrite (bind_Ret _ _ _ _ _
                 (accept_streamOf_declines tkIdent "" nm pre
                    (atomToken (ANumber lit) :: _) eq_refl)).
      unfold exprStatement, expectType.
      rewrite (bind_Ret _ _ _ _ _
                 (parseExpression_atom prec n' nm _ _ an semicolon _ Ha
                    eq_refl)).
      rewrite bind_getIdx.
      rewrite (bindOk_Ok _ _ _ _ _
                 (expect_streamOf tkSemicolon "" nm _ semicolon _
                    eq_refl eq_refl)).
      unfold ret. do 2 f_equal. rewrite <- app_assoc. reflexivity.
    + rewrite (bind_Ret _ _ _ _ _
                 (accept_streamOf_declines tkIdent "" nm pre
                    (atomToken (AChar c) :: _) eq_refl)).
      unfold exprStatement, expectType.
      rewrite (bind_Ret _ _ _ _ _
                 (parseExpression_atom prec n' nm _ _ an semicolon _ Ha
                    eq_refl)).
      rewrite bind_getIdx.
      rewrite (bindOk_Ok _ _ _ _ _
                 (expect_streamOf tkSemicolon "" nm _ semicolon _
                    eq_refl eq_refl)).
      unfold ret. do 2 f_equal. rewrite <- app_assoc. reflexivity.
    + rewrite (bind_Ret _ _ _ _ _
                 (accept_streamOf_declines tkIdent "" nm pre
                    (atomToken (AString str) :: _) eq_refl)).
      unfold exprStatement, expectType.
      rewrite (bind_Ret _ _ _ _ _
                 (parseExpression_atom prec n' nm _ _ an semicolon _ Ha
                    eq_refl)).
      rewrite bind_getIdx.
      rewrite (bindOk_Ok _ _ _ _ _
                 (expect_streamOf tkSemicolon "" nm _ semicolon _
                    eq_refl eq_refl)).
      unfold ret. do 2 f_equal. rewrite <- app_assoc. reflexivity.
Qed.

Lemma parseStatement_reads (prec : string -> Z) (nm : string) (fuel : nat) :
  forall (s : Stmt) (node : Node) (pre rest : list Token),
    stmtNode s = Some node ->
    wellNested s = true ->
    (dangling s = true -> notElse (hd eof rest) = true) ->
    (List.length (stmtTokens s) <= fuel)%nat ->
    parseStatement prec fuel (streamOf nm pre (stmtTokens s ++ rest))
    = Ret (Ok node) (streamOf nm (pre ++ stmtTokens s) rest).
Proof.
  induction fuel as [| n IH]; intros s node pre rest Hnode Hwn Hd Hlen.
  { pose proof (stmtTokens_not_empty s). lia. }
  assert (Hsimple :
            match s with
            | SNull | SBreak | SGoto _ | SLabel _ | SReturn _ | SExpr _ =>
                True
            | _ => False
            end ->
            exists cur,
              token (streamOf nm pre (stmtTokens s ++ rest))
              = Ret cur (streamOf nm pre (stmtTokens s ++ rest))
              /\ leads tkKeyword "if" cur = false
              /\ leads tkOpenBrace "" cur = false
              /\ leads tkKeyword "auto" cur = false
              /\ leads tkKeyword "extrn" cur = false
              /\ leads tkKeyword "while" cur = false
              /\ leads tkKeyword "switch" cur = false).
  { intros Hs. rewrite token_streamOf.
    destruct s as [| | l | l | [a |] | a | | | | | |]; try contradiction;
      cbn [stmtTokens app hd]; eexists; (split; [reflexivity |]);
      try (repeat split; reflexivity);
      destruct (atomToken_declines a) as (? & ? & ? & ? & ? & ? & _);
      repeat split; assumption. }
  destruct s as [| | l | l | r | a | ss | c b | c b [e |] | items | names
                | c cases dflt].
  1-6: destruct (Hsimple I)
         as (cur & Hc & Hif & Hblock & Hauto & Hextrn & Hwhile & Hswitch);
       rewrite (parseStatement_is_simple prec n _ cur Hc Hif Hblock Hauto
                  Hextrn Hwhile Hswitch);
       apply simpleStatement_reads; [exact I | exact Hnode | exact Hlen].
  - (* { ... } *)
    clear Hsimple. cbn [stmtNode] in Hnode.
    destruct (allSome (map stmtNode ss)) as [nodes |] eqn:Hss;
      [| discriminate].
    injection Hnode as <-. cbn [wellNested] in Hwn.
    apply (parseStatement_is_block prec n _ openBrace).
    + rewrite token_streamOf. reflexivity.
    + reflexivity.
    + exact (parseBlock_reads nm n _ (IH) ss nodes pre rest Hss Hwn Hlen).
  - (* while (c) b *)
    clear Hsimple. cbn [stmtNode] in Hnode.
    destruct (atomNode c) as [cn |] eqn:Hc; [| discriminate].
    destruct (stmtNode b) as [bn |] eqn:Hb; [| discriminate].
    injection Hnode as <-. cbn [wellNested dangling] in Hwn, Hd.
    apply (parseStatement_is_while prec n _ (keyword "while"));
      try reflexivity.
    + rewrite token_streamOf. reflexivity.
    + exact (parseWhile_reads prec nm n _ (IH) c b cn bn pre rest
               Hc Hb Hwn Hd Hlen).
  - (* if (c) b else e *)
    clear Hsimple. cbn [stmtNode] in Hnode.
    destruct (atomNode c) as [cn |] eqn:Hc; [| discriminate].
    destruct (stmtNode b) as [bn |] eqn:Hb; [| discriminate].
    destruct (stmtNode e) as [en |] eqn:He; [| discriminate].
    injection Hnode as <-. cbn [wellNested dangling] in Hwn, Hd.
    apply andb_prop in Hwn. destruct Hwn as [Hwn Hwe].
    apply andb_prop in Hwn. destruct Hwn as [Hwb Hdb].
    apply negb_true_iff in Hdb.
    apply (parseStatement_is_if prec n).
    exact (parseIfElse_reads prec nm n _ (IH) c b e cn bn en pre rest
             Hc Hb He Hwb Hdb Hwe Hd Hlen).
  - (* if (c) b *)
    clear Hsimple. cbn [stmtNode] in Hnode.
    destruct (atomNode c) as [cn |] eqn:Hc; [| discriminate].
    destruct (stmtNode b) as [bn |] eqn:Hb; [| discriminate].
    injection Hnode as <-. cbn [wellNested dangling] in Hwn, Hd.
    apply (parseStatement_is_if prec n).
    exact (parseIf_reads prec nm n _ (IH) c b cn bn pre rest
             Hc Hb Hwn (Hd eq_refl) Hlen).
  - (* auto ... ; *)
    clear Hsimple.
    apply (parseStatement_is_auto prec n _ (keyword "auto"));
      try reflexivity.
    + rewrite token_streamOf. reflexivity.
    + exact (parseVarDecl_reads n nm items node pre rest Hnode Hlen).
  - (* extrn ... ; *)
    clear Hsimple.
    apply (parseStatement_is_extrn prec n _ (keyword "extrn"));
      try reflexivity.
    + rewrite token_streamOf. reflexivity.
    + exact (parseExternVarDecl_reads n nm names node pre rest Hnode Hlen).
  - (* switch (c) { ... } *)
    clear Hsimple.
    apply (parseStatement_is_switch prec n _ (keyword "switch"));
      try reflexivity.
    + rewrite token_streamOf. reflexivity.
    + exact (parseSwitch_reads prec nm n _ (IH) c cases dflt node pre rest
               Hnode Hwn Hlen).
Qed.

(** ** Declarations, written and read back *)

Lemma expect_streamOf_fails (t : TokenType) (str : string) (nm : string)
    (pre ts : list Token) :
  leads t str (hd eof ts) = false ->
  exists e, expect t str (streamOf nm pre ts)
            = Ret (Err e) (streamOf nm pre ts).
Proof.
  intros Hl.
  destruct (expect_after_accept_none t str _ _ (token_streamOf nm pre ts)
              (accept_streamOf_declines t str nm pre ts Hl)) as [msg He].
  eexists. exact He.
Qed.

Lemma parseVariableList_reads (nm : string) (stop : Token)
    (pre rest : list Token) (names : list string) (fuel : nat) :
  leads tkComma "" stop = false -> leads tkIdent "" stop = false ->
  (List.length names <= fuel)%nat ->
  parseVariableList fuel
    (streamOf nm pre
       (commaList (map (fun s => [ident s]) names) ++ stop :: rest))
  = Ret (Ok names)
      (streamOf nm (pre ++ commaList (map (fun s => [ident s]) names))
         (stop :: rest)).
Proof.
  intros Hcomma Hident Hf. destruct names as [| x xs].
  - cbn [map commaList app]. unfold parseVariableList, acceptType.
    rewrite (bind_Ret _ _ _ _ _
               (accept_streamOf_declines tkIdent "" nm pre (stop :: rest)
                  Hident)).
    rewrite app_nil_r. reflexivity.
  - apply parseVariableList_streamOf; [| cbn in Hf; lia].
    unfold leads in Hcomma. cbn [String.eqb orb] in Hcomma.
    rewrite andb_true_r in Hcomma. exact Hcomma.
Qed.

Lemma declTokens_head (d : Decl) :
  exists x ts, declTokens d = ident x :: ts.
Proof.
  destruct d as [f ps b | x [a |] | x lit vs]; eexists _, _; reflexivity.
Qed.

Lemma parseExternalVariableInit_reads (nm : string) (fuel : nat) (d : Decl)
    (node : Node) (pre rest : list Token) :
  match d with DFunction _ _ _ => False | _ => True end ->
  declNode d = Some node ->
  (List.length (declTokens d) <= fuel)%nat ->
  parseExternalVariableInit fuel (streamOf nm pre (declTokens d ++ rest))
  = Ret (Ok node) (streamOf nm (pre ++ declTokens d) rest).
Proof.
  intros Hd Hnode Hlen.
  destruct d as [f ps b | x [a |] | x lit vs]; [contradiction | | |];
    clear Hd; cbn [declNode] in Hnode; cbn [declTokens app];
    unfold parseExternalVariableInit, expectType, acceptType.
  - (* x c ; *)
    destruct (constantOf (atomToken a)) as [cn |] eqn:Ha; [| discriminate].
    injection Hnode as <-.
    rewrite (bindOk_Ok _ _ _ _ _
               (expect_streamOf tkIdent "" nm pre (ident x) _
                  eq_refl eq_refl)).
    rewrite (bind_Ret _ _ _ _ _
               (accept_streamOf_declines tkOpenBracket "" nm _
                  (atomToken a :: _)
                  ltac:(destruct a; reflexivity))).
    rewrite (bind_Ret _ _ _ _ _ (parseConstant_streamOf nm _ _ _ cn Ha)).
    rewrite (bindOk_Ok _ _ _ _ _
               (expect_streamOf tkSemicolon "" nm _ semicolon _
                  eq_refl eq_refl)).
    unfold ret. do 2 f_equal. rewrite <- !app_assoc. reflexivity.
  - (* x ; *)
    injection Hnode as <-.
    rewrite (bindOk_Ok _ _ _ _ _
               (expect_streamOf tkIdent "" nm pre (ident x) _
                  eq_refl eq_refl)).
    rewrite (bind_Ret _ _ _ _ _
               (accept_streamOf_declines tkOpenBracket "" nm _
                  (semicolon :: rest) eq_refl)).
    destruct (expectOneOf_streamOf_other [tkNumber; tkCharacter; tkString]
                nm (pre ++ [ident x]) (semicolon :: rest) eq_refl)
      as [e He].
    assert (Hconst : parseConstant
                       (streamOf nm (pre ++ [ident x]) (semicolon :: rest))
                     = Ret (Err e)
                         (streamOf nm (pre ++ [ident x])
                            (semicolon :: rest)))
      by (unfold parseConstant; apply bindOk_Err; exact He).
    rewrite (bind_Ret _ _ _ _ _ Hconst).
    rewrite (bindOk_Ok _ _ _ _ _
               (expect_streamOf tkSemicolon "" nm _ semicolon _
                  eq_refl eq_refl)).
    unfold ret. do 2 f_equal. rewrite <- !app_assoc. reflexivity.
  - (* x [ n ] c1 , ... ; *)
    destruct (Atoi lit) as [size |] eqn:Hlit; [| discriminate].
    destruct vs as [| v vs]; [discriminate |].
    destruct (allSome (map (fun a => constantOf (atomToken a)) (v :: vs)))
      as [nodes |] eqn:Hall; [| discriminate].
    injection Hnode as <-.
    apply allSome_Forall2 in Hall.
    assert (Hcs : Forall2 (fun c n => constantOf c = Some n)
                    (map atomToken (v :: vs)) nodes).
    { clear - Hall. induction Hall; constructor; assumption. }
    cbn [map] in Hcs.
    inversion Hcs as [| c0 n0 cs0 ns0 Hc0 Hcs0 Heq1 Heq2]. subst c0 cs0.
    cbn [declTokens List.length] in Hlen. rewrite length_app in Hlen.
    assert (Hgroups :
              (List.length (v :: vs)
               <= List.length
                    (commaList (map (fun a => [atomToken a]) (v :: vs))))%nat).
    { rewrite <- (length_map (fun a => [atomToken a])).
      apply commaList_length. apply Forall_forall. intros g Hin.
      apply in_map_iff in Hin. destruct Hin as (y & <- & _). cbn. lia. }
    cbn [List.length] in Hlen, Hgroups.
    replace (map (fun a => [atomToken a]) (v :: vs))
      with (map (fun c => [c]) (atomToken v :: map atomToken vs))
      by (cbn [map]; rewrite map_map; reflexivity).
    rewrite <- app_assoc. cbn [app].
    rewrite (bindOk_Ok _ _ _ _ _
               (expect_streamOf tkIdent "" nm pre (ident x) _
                  eq_refl eq_refl)).
    rewrite (bind_Ret _ _ _ _ _
               (accept_streamOf tkOpenBracket "" nm _ openBracket _
                  eq_refl eq_refl)).
    rewrite (bindOk_Ok _ _ _ _ _
               (expect_streamOf tkNumber "" nm _ (number lit) _
                  eq_refl eq_refl)).
    rewrite (bindOk_Ok _ _ _ _ _
               (expect_streamOf tkCloseBracket "" nm _ closeBracket _
                  eq_refl eq_refl)).
    change (value (number lit)) with lit. rewrite Hlit.
    rewrite (bindOk_Ok _ _ _ _ _
               (vecValuesLoop_streamOf nm semicolon rest eq_refl
                  (map atomToken vs) ns0 Hcs0 (atomToken v) n0 fuel [] _
                  Hc0 ltac:(rewrite length_map; lia))).
    rewrite (bindOk_Ok _ _ _ _ _
               (expect_streamOf tkSemicolon "" nm _ semicolon _
                  eq_refl eq_refl)).
    unfold ret. cbn [app]. do 2 f_equal.
    repeat (rewrite <- app_assoc; cbn [app]). reflexivity.
Qed.

(** A function is found by the second alternative of [parseTopLevel]: the
    first has taken the name and failed on the parenthesis, the name is
    read again from the buffer. *)
Lemma parseTopLevel_reads_function (prec : string -> Z) (nm : string)
    (fuel : nat) (f : string) (ps : list string) (b : Stmt) (bn : Node)
    (pre rest : list Token) :
  stmtNode b = Some bn ->
  wellNested b = true ->
  (dangling b = true -> notElse (hd eof rest) = true) ->
  (List.length (declTokens (DFunction f ps b)) <= fuel)%nat ->
  parseTopLevel prec fuel
    (streamOf nm pre (declTokens (DFunction f ps b) ++ rest))
  = Ret (Ok (FunctionNode f ps bn))
      (streamOf nm (pre ++ declTokens (DFunction f ps b)) rest).
Proof.
  intros Hb Hw Hd Hlen.
  cbn [declTokens List.length] in Hlen. rewrite length_app in Hlen.
  cbn [List.length] in Hlen.
  assert (Hgroups :
            (List.length ps
             <= List.length (commaList (map (fun s => [ident s]) ps)))%nat).
  { rewrite <- (length_map (fun s => [ident s])). apply commaList_length.
    apply Forall_forall. intros g Hin. apply in_map_iff in Hin.
    destruct Hin as (y & <- & _). cbn. lia. }
  cbn [declTokens app]. rewrite <- app_assoc. cbn [app].
  set (more := commaList (map (fun s => [ident s]) ps)
               ++ closeParen :: stmtTokens b ++ rest).
  (* the initializer alternative fails one token on *)
  assert (Hinit : exists e,
             parseExternalVariableInit fuel
               (streamOf nm pre (ident f :: openParen :: more))
             = Ret (Err e)
                 (streamOf nm (pre ++ [ident f]) (openParen :: more))).
  { unfold parseExternalVariableInit, expectType, acceptType.
    rewrite (bindOk_Ok _ _ _ _ _
               (expect_streamOf tkIdent "" nm pre (ident f) _
                  eq_refl eq_refl)).
    rewrite (bind_Ret _ _ _ _ _
               (accept_streamOf_declines tkOpenBracket "" nm _
                  (openParen :: more) eq_refl)).
    destruct (expectOneOf_streamOf_other [tkNumber; tkCharacter; tkString]
                nm (pre ++ [ident f]) (openParen :: more) eq_refl)
      as [e1 He1].
    assert (Hconst : parseConstant
                       (streamOf nm (pre ++ [ident f]) (openParen :: more))
                     = Ret (Err e1)
                         (streamOf nm (pre ++ [ident f])
                            (openParen :: more)))
      by (unfold parseConstant; apply bindOk_Err; exact He1).
    rewrite (bind_Ret _ _ _ _ _ Hconst).
    destruct (expect_streamOf_fails tkSemicolon "" nm (pre ++ [ident f])
                (openParen :: more) eq_refl) as [e2 He2].
    exists e2. apply bindOk_Err. exact He2. }
  destruct Hinit as [e Hinit].
  (* the function alternative, from the name again *)
  assert (Hfun :
            parseFuncDeclaration prec fuel
              (peeked nm pre (ident f) (openParen :: more))
            = Ret (Ok (FunctionNode f ps bn))
                (streamOf nm
                   (pre ++ ident f :: openParen
                    :: commaList (map (fun s => [ident s]) ps)
                    ++ closeParen :: stmtTokens b)
                   rest)).
  { unfold parseFuncDeclaration, expectType.
    rewrite (bindOk_Ok _ _ _ _ _
               (expect_peeked tkIdent "" nm pre (ident f) _ eq_refl)).
    rewrite (bindOk_Ok _ _ _ _ _
               (expect_streamOf tkOpenParen "" nm _ openParen _
                  eq_refl eq_refl)).
    unfold more.
    rewrite (bindOk_Ok _ _ _ _ _
               (parseVariableList_reads nm closeParen _ _ ps fuel
                  eq_refl eq_refl ltac:(lia))).
    rewrite (bindOk_Ok _ _ _ _ _
               (expect_streamOf tkCloseParen "" nm _ closeParen _
                  eq_refl eq_refl)).
    rewrite (bindOk_Ok _ _ _ _ _
               (parseStatement_reads prec nm fuel b bn _ rest Hb Hw Hd
                  ltac:(lia))).
    unfold ret. do 2 f_equal. repeat (rewrite <- app_assoc; cbn [app]).
    reflexivity. }
  unfold parseTopLevel. rewrite bind_getIdx.
  rewrite (bind_Ret _ _ _ _ _ Hinit). rewrite bind_getIdx.
  replace (tokIdx (streamOf nm (pre ++ [ident f]) (openParen :: more))
           =? tokIdx (streamOf nm pre (ident f :: openParen :: more)) + 1)
    with true
    by (symmetry; apply Z.eqb_eq; unfold streamOf; cbn [tokIdx];
        rewrite length_app; cbn [List.length]; lia).
  unfold setIdx at 1. unfold bind at 1.
  change (rewindTo (streamOf nm (pre ++ [ident f]) (openParen :: more))
            (tokIdx (streamOf nm pre (ident f :: openParen :: more))))
    with (peeked nm pre (ident f) (openParen :: more)).
  unfold functionAlternative.
  rewrite (bind_Ret _ _ _ _ _ Hfun). rewrite bind_getIdx. reflexivity.
Qed.

(** Every declaration is read back. *)
Lemma parseTopLevel_reads (prec : string -> Z) (nm : string) (fuel : nat)
    (d : Decl) (node : Node) (pre rest : list Token) :
  declNode d = Some node ->
  declNested d = true ->
  (declDangling d = true -> notElse (hd eof rest) = true) ->
  (List.length (declTokens d) <= fuel)%nat ->
  parseTopLevel prec fuel (streamOf nm pre (declTokens d ++ rest))
  = Ret (Ok node) (streamOf nm (pre ++ declTokens d) rest).
Proof.
  intros Hnode Hw Hd Hlen.
  destruct d as [f ps b | x init | x lit vs].
  - cbn [declNode] in Hnode.
    destruct (stmtNode b) as [bn |] eqn:Hb; [| discriminate].
    injection Hnode as <-.
    exact (parseTopLevel_reads_function prec nm fuel f ps b bn pre rest
             Hb Hw Hd Hlen).
  - unfold parseTopLevel. rewrite bind_getIdx.
    rewrite (bind_Ret _ _ _ _ _
               (parseExternalVariableInit_reads nm fuel (DScalar x init)
                  node pre rest I Hnode Hlen)).
    rewrite bind_getIdx. reflexivity.
  - unfold parseTopLevel. rewrite bind_getIdx.
    rewrite (bind_Ret _ _ _ _ _
               (parseExternalVariableInit_reads nm fuel (DVector x lit vs)
                  node pre rest I Hnode Hlen)).
    rewrite bind_getIdx. reflexivity.
Qed.

(** ** Programs, written and read back *)

Lemma declNode_isTopLevelDecl (d : Decl) (node : Node) :
  declNode d = Some node -> isTopLevelDecl node = true.
Proof.
  destruct d as [f ps b | x [a |] | x lit vs]; cbn [declNode]; intros H.
  - destruct (stmtNode b); [| discriminate]. injection H as <-. reflexivity.
  - destruct (constantOf (atomToken a)); [| discriminate].
    injection H as <-. reflexivity.
  - injection H as <-. reflexivity.
  - destruct (Atoi lit); [| discriminate].
    destruct vs; [discriminate |].
    destruct (allSome _); [| discriminate]. injection H as <-. reflexivity.
Qed.

Lemma notElse_after_decl (ds : list Decl) :
  notElse (hd eof (flat_map declTokens ds)) = true.
Proof.
  destruct ds as [| d ds]; [reflexivity |].
  cbn [flat_map]. destruct (declTokens_head d) as (x & ts & ->). reflexivity.
Qed.

Lemma parseLoop_reads (prec : string -> Z) (nm : string) (ds : list Decl) :
  forall (nodes : list Node) (fuel : nat) (unit : TranslationUnit)
         (pre : list Token),
    allSome (map declNode ds) = Some nodes ->
    forallb declNested ds = true ->
    (List.length (flat_map declTokens ds) < fuel)%nat ->
    parseLoop prec fuel unit (streamOf nm pre (flat_map declTokens ds))
    = Ret (fold_left addDecl nodes unit, None)
        (streamOf nm ((pre ++ flat_map declTokens ds) ++ [eof]) []).
Proof.
  induction ds as [| d ds IH]; intros nodes fuel unit pre Hnodes Hw Hlen;
    (destruct fuel as [| n]; [lia |]).
  - cbn [map allSome] in Hnodes. injection Hnodes as <-.
    cbn [flat_map fold_left parseLoop]. rewrite app_nil_r.
    change (streamOf nm pre []) with (streamOf nm pre [eof]).
    unfold acceptType.
    rewrite (bind_Ret _ _ _ _ _
               (accept_streamOf tkEof "" nm pre eof [] eq_refl eq_refl)).
    reflexivity.
  - cbn [map allSome] in Hnodes.
    destruct (declNode d) as [node |] eqn:Hd; [| discriminate].
    destruct (allSome (map declNode ds)) as [nodes' |] eqn:Hds;
      [| discriminate].
    injection Hnodes as <-.
    cbn [forallb] in Hw. apply andb_prop in Hw. destruct Hw as [Hwd Hws].
    cbn [flat_map] in Hlen |- *. rewrite length_app in Hlen.
    assert (Hone : (1 <= List.length (declTokens d))%nat).
    { destruct (declTokens_head d) as (x & ts & ->). cbn. lia. }
    assert (Heof : acceptType tkEof
                     (streamOf nm pre
                        (declTokens d ++ flat_map declTokens ds))
                   = Ret None
                       (streamOf nm pre
                          (declTokens d ++ flat_map declTokens ds))).
    { apply accept_streamOf_declines.
      destruct (declTokens_head d) as (x & ts & ->). reflexivity. }
    cbn [parseLoop]. rewrite (bind_Ret _ _ _ _ _ Heof).
    rewrite (bind_Ret _ _ _ _ _
               (parseTopLevel_reads prec nm n d node pre _ Hd Hwd
                  (fun _ => notElse_after_decl ds) ltac:(lia))).
    pose proof (declNode_isTopLevelDecl d node Hd) as Htop.
    specialize (IH nodes' n (addDecl unit node) (pre ++ declTokens d)
                  eq_refl Hws ltac:(lia)).
    rewrite (app_assoc pre (declTokens d)). cbn [fold_left].
    destruct node; try discriminate; exact IH.
Qed.

Lemma NewParser_lexed (nm : string) (ts : list Token) :
  NewParser nm (lexed ts) = Ret tt (streamOf nm [] ts).
Proof. destruct ts; reflexivity. Qed.

(** Every statement of the sentences above is read back: whatever has been
    read before and whatever follows, [parseStatement] on the tokens of the
    statement returns the tree the statement stands for and leaves the
    parser on the token after it.  A statement that ends in an [if] without
    [else] must not be followed by [else], and no [if] with an [else] may
    have such a statement for its body. *)
Theorem statement_reads_back (prec : string -> Z) (nm : string)
    (fuel : nat) (s : Stmt) (node : Node) (pre rest : list Token) :
  stmtNode s = Some node ->
  wellNested s = true ->
  (dangling s = true -> notElse (hd eof rest) = true) ->
  (List.length (stmtTokens s) <= fuel)%nat ->
  parseStatement prec fuel (streamOf nm pre (stmtTokens s ++ rest))
  = Ret (Ok node) (streamOf nm (pre ++ stmtTokens s) rest).
Proof.
  intros Hnode Hw Hd Hlen.
  exact (parseStatement_reads prec nm fuel s node pre rest Hnode Hw Hd Hlen).
Qed.

Lemma statement_reads_back_witness :
  parseStatement specPrecedence 24
    (parserOn
       (lexed [keyword "switch"; openParen; ident "x"; closeParen; openBrace;
               keyword "case"; number "1"; colon;
               keyword "if"; openParen; ident "c"; closeParen;
               keyword "break"; semicolon;
               keyword "case"; tok tkCharacter "a"; colon; ident "out"; colon;
               keyword "default"; colon; keyword "return"; semicolon;
               closeBrace;
               keyword "return"; semicolon]))
  = Ret (Ok (SwitchNode (IdentNode "x") [ReturnNode NullNode]
               [mkCase (IntegerNode 1)
                  [IfNode (IdentNode "c") BreakNode false NilNode];
                mkCase (CharacterNode "a") [LabelNode "out"]]))
      (streamOf "name"
         [keyword "switch"; openParen; ident "x"; closeParen; openBrace;
          keyword "case"; number "1"; colon;
          keyword "if"; openParen; ident "c"; closeParen;
          keyword "break"; semicolon;
          keyword "case"; tok tkCharacter "a"; colon; ident "out"; colon;
          keyword "default"; colon; keyword "return"; semicolon;
          closeBrace]
         [keyword "return"; semicolon]).
Proof.
  exact (statement_reads_back specPrecedence "name" 24
           (SSwitch (AIdent "x")
              [(ANumber "1", [SIf (AIdent "c") SBreak None]);
               (AChar "a", [SLabel "out"])]
              (Some [SReturn None]))
           (SwitchNode (IdentNode "x") [ReturnNode NullNode]
              [mkCase (IntegerNode 1)
                 [IfNode (IdentNode "c") BreakNode false NilNode];
               mkCase (CharacterNode "a") [LabelNode "out"]])
           [] [keyword "return"; semicolon]
           eq_refl eq_refl (fun _ => eq_refl) ltac:(cbn; lia)).
Defined.

(** Every program of such declarations is read back: on its tokens
    [NewParser] and [Parse] return, without an error, the unit with the
    name of the file, the functions of the program in [Funcs] and its
    variables in [Vars], each as the tree it stands for and in the order
    of the program; the whole input is consumed. *)
Theorem program_reads_back (prec : string -> Z) (nm : string)
    (ds : list Decl) (nodes : list Node) (fuel : nat) :
  allSome (map declNode ds) = Some nodes ->
  forallb declNested ds = true ->
  (List.length (flat_map declTokens ds) < fuel)%nat ->
  parseInput prec fuel nm (lexed (flat_map declTokens ds))
  = Ret (mkUnit nm (filter isFunction nodes)
           (filter (fun n => negb (isFunction n)) nodes), None)
      (streamOf nm (flat_map declTokens ds ++ [eof]) []).
Proof.
  intros Hnodes Hw Hlen. unfold parseInput.
  rewrite NewParser_lexed. unfold Parse.
  rewrite (parseLoop_reads prec nm ds nodes fuel _ [] Hnodes Hw Hlen).
  rewrite fold_addDecl. reflexivity.
Qed.

Lemma program_reads_back_witness :
  parseInput specPrecedence 40 "prog.b"
    (lexed (flat_map declTokens sampleProgram))
  = Ret (mkUnit "prog.b"
           [FunctionNode "main" ["a"]
              (BlockNode
                 [VarDeclNode [mkVarDecl "i" false 0];
                  WhileNode (IdentNode "i") (StatementNode (IdentNode "a"));
                  IfNode (IdentNode "a") (ReturnNode (IdentNode "i")) true
                    NullNode])]
           [ExternVarInitNode "n" (IntegerNode 3)], None)
      (streamOf "prog.b" (flat_map declTokens sampleProgram ++ [eof]) []).
Proof.
  exact (program_reads_back specPrecedence "prog.b" sampleProgram
           [ExternVarInitNode "n" (IntegerNode 3);
            FunctionNode "main" ["a"]
              (BlockNode
                 [VarDeclNode [mkVarDecl "i" false 0];
                  WhileNode (IdentNode "i") (StatementNode (IdentNode "a"));
                  IfNode (IdentNode "a") (ReturnNode (IdentNode "i")) true
                    NullNode])]
           40 eq_refl eq_refl ltac:(cbn; lia)).
Defined.

(** ** External scalars without a value *)

Lemma expect_takes (t : TokenType) (str : string) (p p1 : Parser)
    (cur : Token) :
  token p = Ret cur p -> leads t str cur = true ->
  nextTokenOrPanic p = Ret tt p1 ->
  expect t str p = Ret (Ok cur) p1.
Proof.
  intros Hc Hl Hn. unfold expect.
  rewrite (bind_Ret _ _ _ _ _ (accept_takes t str p p1 cur Hc Hl Hn)).
  reflexivity.
Qed.

(** On a token that starts no constant [parseConstant] fails where it
    stands. *)
Lemma parseConstant_declines (p : Parser) (cur : Token) :
  token p = Ret cur p ->
  find (fun ty => TokenType_eqb (kind cur) ty)
    [tkNumber; tkCharacter; tkString] = None ->
  exists e, parseConstant p = Ret (Err e) p.
Proof.
  intros Hc Hf. eexists. unfold parseConstant. apply bindOk_Err.
  unfold expectOneOf. rewrite (bind_Ret _ _ _ _ _ Hc), Hf.
  rewrite (bind_Ret _ _ _ _ _ Hc). reflexivity.
Qed.

(** [name ;] in any state of the parser: the current token is an
    identifier, the token read after it is a [;], and the token after that
    can be read. *)
Lemma parseExternalVariableInit_scalar_zero (fuel : nat) (p p1 p2 : Parser)
    (id semi : Token) :
  token p = Ret id p -> kind id = tkIdent ->
  nextTokenOrPanic p = Ret tt p1 ->
  token p1 = Ret semi p1 -> kind semi = tkSemicolon ->
  nextTokenOrPanic p1 = Ret tt p2 ->
  parseExternalVariableInit fuel p
  = Ret (Ok (ExternVarInitNode (value id) (IntegerNode 0))) p2.
Proof.
  intros Hid Hkid Hn1 Hsemi Hksemi Hn2.
  assert (Hlid : leads tkIdent "" id = true)
    by (unfold leads; rewrite Hkid; reflexivity).
  assert (Hlsemi : leads tkSemicolon "" semi = true)
    by (unfold leads; rewrite Hksemi; reflexivity).
  assert (Hbracket : leads tkOpenBracket "" semi = false)
    by (unfold leads; rewrite Hksemi; reflexivity).
  destruct (parseConstant_declines p1 semi Hsemi
              ltac:(rewrite Hksemi; reflexivity)) as [e Hconst].
  unfold parseExternalVariableInit, expectType, acceptType.
  rewrite (bindOk_Ok _ _ _ _ _ (expect_takes tkIdent "" p p1 id Hid Hlid Hn1)).
  rewrite (bind_Ret _ _ _ _ _
             (accept_declines tkOpenBracket "" p1 semi Hsemi Hbracket)).
  rewrite (bind_Ret _ _ _ _ _ Hconst).
  rewrite (bindOk_Ok _ _ _ _ _
             (expect_takes tkSemicolon "" p1 p2 semi Hsemi Hlsemi Hn2)).
  reflexivity.
Qed.

Lemma allSome_app {A} (l1 l2 : list (option A)) (r1 r2 : list A) :
  allSome l1 = Some r1 -> allSome l2 = Some r2 ->
  allSome (l1 ++ l2) = Some (r1 ++ r2).
Proof.
  revert r1. induction l1 as [| [a |] l1 IH]; intros r1 H1 H2;
    cbn [allSome app] in *.
  - injection H1 as <-. exact H2.
  - destruct (allSome l1) as [r |]; [| discriminate].
    injection H1 as <-. rewrite (IH r eq_refl H2). reflexivity.
  - discriminate.
Qed.

(** C5: an external scalar declaration without an initializer, [name ;],
    is given the value [Integer(0)], wherever it stands.
    - In every state of the parser whose current token is an identifier
      and whose next two reads give a [;] and any further token,
      [parseExternalVariableInit] and [parseTopLevel] return
      [ExternVarInit(name, Integer(0))] and stand after the [;]; so do they
      after any tokens read before and before any tokens that follow.
    - In every program of declarations, [name ;] between any declarations
      before and after it, [Parse] returns without error the unit whose
      [Vars] hold [ExternVarInit(name, Integer(0))] at the place of the
      declaration among the variables.
    - The input [v ;] parses to the unit whose only global is
      [ExternVarInit(v, Integer(0))]. *)
Theorem extern_scalar_defaults_to_zero (prec : string -> Z) (fuel : nat) :
  (forall (p p1 p2 : Parser) (id semi : Token),
      token p = Ret id p -> kind id = tkIdent ->
      nextTokenOrPanic p = Ret tt p1 ->
      token p1 = Ret semi p1 -> kind semi = tkSemicolon ->
      nextTokenOrPanic p1 = Ret tt p2 ->
      parseExternalVariableInit fuel p
      = Ret (Ok (ExternVarInitNode (value id) (IntegerNode 0))) p2
      /\ parseTopLevel prec fuel p
         = Ret (Ok (ExternVarInitNode (value id) (IntegerNode 0))) p2)
  /\ (forall (nm : string) (pre rest : list Token) (id semi : Token),
         kind id = tkIdent -> kind semi = tkSemicolon ->
         parseExternalVariableInit fuel
           (streamOf nm pre (id :: semi :: rest))
         = Ret (Ok (ExternVarInitNode (value id) (IntegerNode 0)))
             (streamOf nm (pre ++ [id; semi]) rest)
         /\ parseTopLevel prec fuel (streamOf nm pre (id :: semi :: rest))
            = Ret (Ok (ExternVarInitNode (value id) (IntegerNode 0)))
                (streamOf nm (pre ++ [id; semi]) rest))
  /\ (forall (nm x : string) (before after : list Decl)
             (nodes1 nodes2 : list Node),
         allSome (map declNode before) = Some nodes1 ->
         allSome (map declNode after) = Some nodes2 ->
         forallb declNested before = true ->
         forallb declNested after = true ->
         (List.length
            (flat_map declTokens (before ++ DScalar x None :: after))
          < fuel)%nat ->
         parseInput prec fuel nm
           (lexed (flat_map declTokens (before ++ DScalar x None :: after)))
         = Ret (mkUnit nm
                  (filter isFunction nodes1 ++ filter isFunction nodes2)
                  (filter (fun n => negb (isFunction n)) nodes1
                   ++ ExternVarInitNode x (IntegerNode 0)
                   :: filter (fun n => negb (isFunction n)) nodes2),
                None)
             (streamOf nm
                (flat_map declTokens (before ++ DScalar x None :: after)
                 ++ [eof])
                []))
  /\ (forall (nm : string) (id semi : Token),
         kind id = tkIdent -> kind semi = tkSemicolon ->
         exists p',
           parseInput prec (S (S fuel)) nm (lexed [id; semi])
           = Ret (mkUnit nm [] [ExternVarInitNode (value id) (IntegerNode 0)],
                  None) p').
Proof.
  assert (Hstate :
            forall (p p1 p2 : Parser) (id semi : Token),
              token p = Ret id p -> kind id = tkIdent ->
              nextTokenOrPanic p = Ret tt p1 ->
              token p1 = Ret semi p1 -> kind semi = tkSemicolon ->
              nextTokenOrPanic p1 = Ret tt p2 ->
              parseExternalVariableInit fuel p
              = Ret (Ok (ExternVarInitNode (value id) (IntegerNode 0))) p2
              /\ parseTopLevel prec fuel p
                 = Ret (Ok (ExternVarInitNode (value id) (IntegerNode 0)))
                     p2).
  { intros p p1 p2 id semi Hid Hkid Hn1 Hsemi Hksemi Hn2.
    pose proof (parseExternalVariableInit_scalar_zero fuel p p1 p2 id semi
                  Hid Hkid Hn1 Hsemi Hksemi Hn2) as Hinit.
    split; [exact Hinit |].
    unfold parseTopLevel. rewrite bind_getIdx.
    rewrite (bind_Ret _ _ _ _ _ Hinit). rewrite bind_getIdx. reflexivity. }
  split; [exact Hstate |]. split; [| split].
  - intros nm pre rest id semi Hkid Hksemi.
    replace (pre ++ [id; semi]) with ((pre ++ [id]) ++ [semi])
      by (rewrite <- app_assoc; reflexivity).
    apply (Hstate _ (streamOf nm (pre ++ [id]) (semi :: rest)) _ id semi).
    + apply token_streamOf.
    + exact Hkid.
    + apply nextTokenOrPanic_streamOf.
    + apply token_streamOf.
    + exact Hksemi.
    + apply nextTokenOrPanic_streamOf.
  - intros nm x before after nodes1 nodes2 H1 H2 Hw1 Hw2 Hlen.
    unfold parseInput. rewrite NewParser_lexed. unfold Parse.
    rewrite (parseLoop_reads prec nm (before ++ DScalar x None :: after)
               (nodes1 ++ ExternVarInitNode x (IntegerNode 0) :: nodes2)
               fuel _ []).
    + rewrite fold_addDecl. cbn [File Funcs Vars app].
      rewrite !filter_app. cbn [filter isFunction negb]. reflexivity.
    + rewrite map_app. apply allSome_app; [exact H1 |].
      cbn [map allSome declNode]. rewrite H2. reflexivity.
    + rewrite forallb_app. rewrite Hw1. cbn [forallb declNested andb].
      exact Hw2.
    + exact Hlen.
  - intros nm id semi Hkid Hksemi.
    destruct id as [k v s e], semi as [k' v' s' e']. cbn in Hkid, Hksemi.
    subst k k'. eexists. reflexivity.
Qed.

Lemma extern_scalar_defaults_to_zero_witness :
  parseExternalVariableInit 0
    (streamOf "name" [ident "f"; openParen; closeParen; semicolon]
       [ident "v"; semicolon; ident "w"; number "1"; semicolon])
  = Ret (Ok (ExternVarInitNode "v" (IntegerNode 0)))
      (streamOf "name"
         [ident "f"; openParen; closeParen; semicolon; ident "v"; semicolon]
         [ident "w"; number "1"; semicolon])
  /\ parseInput specPrecedence 12 "name"
       (lexed [ident "f"; openParen; closeParen; semicolon;
               ident "v"; semicolon;
               ident "w"; number "1"; semicolon])
     = Ret (mkUnit "name"
              [FunctionNode "f" [] NullNode]
              [ExternVarInitNode "v" (IntegerNode 0);
               ExternVarInitNode "w" (IntegerNode 1)],
            None)
         (streamOf "name"
            [ident "f"; openParen; closeParen; semicolon;
             ident "v"; semicolon;
             ident "w"; number "1"; semicolon; eof]
            [])
  /\ exists p',
       parseInput specPrecedence 2 "name" (lexed [ident "v"; semicolon])
       = Ret (mkUnit "name" [] [ExternVarInitNode "v" (IntegerNode 0)], None)
           p'.
Proof.
  destruct (extern_scalar_defaults_to_zero specPrecedence 12)
    as (_ & Hstream & Hprogram & _).
  destruct (extern_scalar_defaults_to_zero specPrecedence 0)
    as (_ & Hstream0 & _ & Hinput).
  split; [| split].
  - exact (proj1 (Hstream0 "name"
                    [ident "f"; openParen; closeParen; semicolon]
                    [ident "w"; number "1"; semicolon]
                    (ident "v") semicolon eq_refl eq_refl)).
  - exact (Hprogram "name" "v"
             [DFunction "f" [] SNull]
             [DScalar "w" (Some (ANumber "1"))]
             [FunctionNode "f" [] NullNode]
             [ExternVarInitNode "w" (IntegerNode 1)]
             eq_refl eq_refl eq_refl eq_refl ltac:(cbn; lia)).
  - exact (Hinput "name" (ident "v") semicolon eq_refl eq_refl).
Defined.
